(** * gifx: streaming GIF codec and inter-frame optimizer

    A shallow embedding of the block-level encoder ([encoder.go]), the
    block iterator of the decoder ([decoder.go]) and the frame optimizer
    ([optimizer.go]), with the properties of the specification stated and
    proved over it.

    Conventions.
    - A Go [byte]/[uint8] is a [Z] in [0, 256); [uint16] is a [Z] in
      [0, 65536); conversions write their wrap-around out ([uint8_of],
      [uint16_of]).  A Go [int] is a [Z]; image dimensions are far below
      the 64-bit range, so no overflow is modelled for coordinates.
    - A Go [string] is its sequence of bytes.
    - A Go slice of bytes held by the caller is a window into a buffer of a
      shared heap, so that sub-images alias their parent's pixels. *)

From Stdlib Require Import ZArith Lia ZifyBool String Ascii.
From stdpp Require Import base numbers option list gmap.

Local Open Scope Z_scope.

(** ** Outcomes of Go code *)

(** Go's [error] values as they are built in the sources: sentinel errors
    of package [io], [errors.New] and [fmt.Errorf] with its one argument. *)
Inductive error : Type :=
  | io_EOF
  | io_ErrUnexpectedEOF
  | errors_New (msg : string)
  | fmt_Errorf_v (format : string) (cause : error)
  | fmt_Errorf_d (format : string) (arg : Z).

(** [err == io.EOF]. *)
Definition is_EOF (err : error) : bool :=
  match err with io_EOF => true | _ => false end.

(** The outcome of a call: a normal return, a run-time panic (index or
    slice out of range, division by zero, negative [make]), or a loop that
    never exits. *)
Inductive outcome (A : Type) : Type :=
  | Ret (a : A)
  | Panic
  | Diverge.
Arguments Ret {A} a.
Arguments Panic {A}.
Arguments Diverge {A}.

#[global] Instance outcome_ret : MRet outcome := fun A a => Ret a.
#[global] Instance outcome_bind : MBind outcome := fun A B k m =>
  match m with
  | Ret a => k a
  | Panic => Panic
  | Diverge => Diverge
  end.

Definition of_option {A} (o : option A) : outcome A :=
  match o with Some a => Ret a | None => Panic end.

(** ** Bytes and byte slices *)

Definition uint8_of (n : Z) : Z := n mod 256.
Definition uint16_of (n : Z) : Z := n mod 65536.
Definition is_byte (b : Z) : Prop := 0 <= b < 256.
Definition is_uint16 (n : Z) : Prop := 0 <= n < 65536.

Definition len {A} (l : list A) : Z := Z.of_nat (length l).

(** [l[i]]: panics outside [0, len l). *)
Definition index (l : list Z) (i : Z) : outcome Z :=
  if (0 <=? i) && (i <? len l) then of_option (l !! Z.to_nat i) else Panic.

(** [copy(dst[lo:hi], src)]: slicing panics unless [0 <= lo <= hi <= len dst];
    [copy] moves [min (hi - lo) (len src)] elements. *)
Definition copy_range (dst : list Z) (lo hi : Z) (src : list Z) : outcome (list Z) :=
  if (0 <=? lo) && (lo <=? hi) && (hi <=? len dst) then
    let n := Nat.min (Z.to_nat (hi - lo)) (length src) in
    Ret (take (Z.to_nat lo) dst ++ take n src ++ drop (Z.to_nat lo + n) dst)
  else Panic.

(** [src[lo:hi]] read as a value. *)
Definition slice_range (src : list Z) (lo hi : Z) : outcome (list Z) :=
  if (0 <=? lo) && (lo <=? hi) && (hi <=? len src) then
    Ret (take (Z.to_nat (hi - lo)) (drop (Z.to_nat lo) src))
  else Panic.

(** ** Package image: points, rectangles, paletted images *)

Module image.

Record Point : Type := Pt { X : Z; Y : Z }.
Record Rectangle : Type := mkRectangle { Min : Point; Max : Point }.

#[global] Instance Point_eq_dec : EqDecision Point.
Proof. solve_decision. Defined.
#[global] Instance Rectangle_eq_dec : EqDecision Rectangle.
Proof. solve_decision. Defined.

(** [image.Rect]: the corners are put in order. *)
Definition Rect (x0 y0 x1 y1 : Z) : Rectangle :=
  let '(x0, x1) := if x1 <? x0 then (x1, x0) else (x0, x1) in
  let '(y0, y1) := if y1 <? y0 then (y1, y0) else (y0, y1) in
  mkRectangle (Pt x0 y0) (Pt x1 y1).

Definition ZR : Rectangle := mkRectangle (Pt 0 0) (Pt 0 0).

Definition Dx (r : Rectangle) : Z := X (Max r) - X (Min r).
Definition Dy (r : Rectangle) : Z := Y (Max r) - Y (Min r).

Definition Empty (r : Rectangle) : bool :=
  (X (Max r) <=? X (Min r)) || (Y (Max r) <=? Y (Min r)).

Definition Eq (r s : Rectangle) : bool :=
  bool_decide (r = s) || (Empty r && Empty s).

Definition In (r s : Rectangle) : bool :=
  if Empty r then true
  else (X (Min s) <=? X (Min r)) && (X (Max r) <=? X (Max s)) &&
       (Y (Min s) <=? Y (Min r)) && (Y (Max r) <=? Y (Max s)).

Definition Intersect (r s : Rectangle) : Rectangle :=
  let r' := mkRectangle
    (Pt (Z.max (X (Min r)) (X (Min s))) (Z.max (Y (Min r)) (Y (Min s))))
    (Pt (Z.min (X (Max r)) (X (Max s))) (Z.min (Y (Max r)) (Y (Max s)))) in
  if Empty r' then ZR else r'.

Definition Union (r s : Rectangle) : Rectangle :=
  if Empty r then s
  else if Empty s then r
  else mkRectangle
    (Pt (Z.min (X (Min r)) (X (Min s))) (Z.min (Y (Min r)) (Y (Min s))))
    (Pt (Z.max (X (Max r)) (X (Max s))) (Z.max (Y (Max r)) (Y (Max s)))).

(** [image.Point.In]. *)
Definition PtIn (x y : Z) (r : Rectangle) : bool :=
  (X (Min r) <=? x) && (x <? X (Max r)) && (Y (Min r) <=? y) && (y <? Y (Max r)).

(** [color.RGBA]. *)
Record Color : Type := RGBA { R : Z; G : Z; B : Z; A : Z }.
Definition ColorPalette : Type := list Color.

(** A [[]uint8] owned by the caller: a window [off, off + slen) of the
    buffer [base] of the heap; [base = None] is the nil slice. *)
Record Slice : Type := mkSlice { base : option nat; off : nat; slen : nat }.
Definition nilSlice : Slice := mkSlice None 0 0.

Record Paletted : Type := mkPaletted {
  Pix : Slice;
  Stride : Z;
  PRect : Rectangle;
  Palette : ColorPalette
}.

Definition PixOffset (stride : Z) (r : Rectangle) (x y : Z) : Z :=
  (y - Y (Min r)) * stride + (x - X (Min r)) * 1.

(** [p.Pix[i:]]. *)
Definition reslice (s : Slice) (i : Z) : outcome Slice :=
  if (0 <=? i) && (i <=? Z.of_nat (slen s)) then
    Ret (mkSlice (base s) (off s + Z.to_nat i) (slen s - Z.to_nat i))
  else Panic.

(** [Paletted.SubImage]: the result is clipped to the image, and an empty
    result is a zero image with a nil [Pix]. *)
Definition SubImage (p : Paletted) (r : Rectangle) : outcome Paletted :=
  let r := Intersect r (PRect p) in
  if Empty r then Ret (mkPaletted nilSlice 0 ZR (Palette p))
  else
    let i := PixOffset (Stride p) (PRect p) (X (Min r)) (Y (Min r)) in
    s ← reslice (Pix p) i;
    Ret (mkPaletted s (Stride p) (Intersect (PRect p) r) (Palette p)).

End image.

(** The caller's heap of pixel buffers. *)
Abbreviation Heap := (gmap nat (list Z)).

Definition load (h : Heap) (s : image.Slice) : outcome (list Z) :=
  match image.base s with
  | None => Ret []
  | Some b =>
      match h !! b with
      | None => Panic
      | Some buf =>
          if decide (image.off s + image.slen s <= length buf)%nat
          then Ret (take (image.slen s) (drop (image.off s) buf))
          else Panic
      end
  end.

Definition store (h : Heap) (s : image.Slice) (l : list Z) : Heap :=
  match image.base s with
  | None => h
  | Some b =>
      alter (fun buf => take (image.off s) buf ++ l ++
                        drop (image.off s + image.slen s) buf) b h
  end.

(** ** optimizer.go *)

(** The optimizer's mirror [o.pm]: an [image.Paletted] that [Optimize]
    allocates itself with [image.NewPaletted] and never hands out, so its
    pixel buffer is held by value. *)
Record Mirror : Type := mkMirror {
  mPix : list Z;
  mStride : Z;
  mRect : image.Rectangle;
  mPalette : image.ColorPalette
}.

(** [image.NewPaletted]: a zeroed buffer of [Dx * Dy] bytes with stride
    [Dx]; negative dimensions panic. *)
Definition NewPaletted (r : image.Rectangle) (p : image.ColorPalette) : outcome Mirror :=
  if (image.Dx r <? 0) || (image.Dy r <? 0) then Panic
  else Ret (mkMirror (replicate (Z.to_nat (image.Dx r * image.Dy r)) 0)
                     (1 * image.Dx r) r p).

Record Optimizer : Type := mkOptimizer {
  o_pm : option Mirror;
  o_xs : list Z
}.

Definition NewOptimizer (transparentIndex : Z) : Optimizer :=
  mkOptimizer None [transparentIndex].

(** [for len(o.xs) < n { o.xs = append(o.xs, o.xs...) }]; an empty [xs]
    never grows. *)
Fixpoint grow (fuel : nat) (xs : list Z) (n : Z) : outcome (list Z) :=
  if len xs <? n then
    match fuel with
    | O => Diverge
    | S fuel' => grow fuel' (xs ++ xs) n
    end
  else Ret xs.

(** [pm.Pix[j] == o.pm.Pix[i] || pm.Pix[j] == o.xs[0]]. *)
Definition same_pixel (P M xs : list Z) (j i : Z) : outcome bool :=
  p ← index P j;
  m ← index M i;
  if bool_decide (p = m) then Ret true
  else x ← index xs 0; Ret (bool_decide (p = x)).

(** [crop = r] if [crop] is empty, else [crop.Union(r)]. *)
Definition add_crop (crop r : image.Rectangle) : image.Rectangle :=
  if image.Empty crop then r else image.Union crop r.

(** The locals of [optimizeByPix] together with the buffers it writes. *)
Record pix_state : Type := mkPixState {
  ps_crop : image.Rectangle;
  ps_same : bool;
  ps_i0 : Z;
  ps_x0 : Z;
  ps_y0 : Z;
  ps_P : list Z;   (* pm.Pix *)
  ps_M : list Z;   (* o.pm.Pix *)
  ps_xs : list Z   (* o.xs *)
}.

(** The body run when the run [i0, i) ends at [i]: a run of unchanged pixels
    is blanked in [pm.Pix], a run of changed pixels is copied to the mirror
    and added to the crop. *)
Definition pix_close (stride i : Z) (s : pix_state) : outcome pix_state :=
  let '(mkPixState crop same i0 x0 y0 P M xs) := s in
  if stride =? 0 then Panic
  else
    let x := Z.rem i stride in
    let y := Z.quot i stride in
    if same then
      xs' ← grow (Z.to_nat (i - i0)) xs (i - i0);
      src ← slice_range xs' 0 (i - i0);
      P' ← copy_range P i0 i src;
      Ret (mkPixState crop (negb same) i x y P' M xs')
    else
      src ← slice_range P i0 i;
      M' ← copy_range M i0 i src;
      let r := if y0 <? y then image.Rect 0 y0 stride (y + 1)
               else image.Rect x0 y0 x (y + 1) in
      Ret (mkPixState (add_crop crop r) (negb same) i x y P M' xs).

(** One iteration of the loop of [optimizeByPix], at index [i]. *)
Definition pix_step (stride i : Z) (s : pix_state) : outcome pix_state :=
  if i =? 0 then
    b ← same_pixel (ps_P s) (ps_M s) (ps_xs s) i i;
    Ret (mkPixState (ps_crop s) b (ps_i0 s) (ps_x0 s) (ps_y0 s) (ps_P s) (ps_M s) (ps_xs s))
  else
    turn ← (if i =? len (ps_P s) then Ret true
            else b ← same_pixel (ps_P s) (ps_M s) (ps_xs s) i i;
                 Ret (negb (eqb b (ps_same s))));
    if turn : bool then pix_close stride i s else Ret s.

Fixpoint pix_loop (fuel : nat) (stride i : Z) (s : pix_state) : outcome pix_state :=
  match fuel with
  | O => Ret s
  | S fuel' => s' ← pix_step stride i s; pix_loop fuel' stride (i + 1) s'
  end.

(** [optimizeByPix]: [for i := 0; i <= len(pm.Pix); i++]. *)
Definition optimizeByPix (stride : Z) (P M xs : list Z) : outcome pix_state :=
  pix_loop (S (length P)) stride 0
    (mkPixState image.ZR false 0 0 0 P M xs).

(** The locals of the inner loop of [optimizeByLine]. *)
Record line_state : Type := mkLineState {
  ls_crop : image.Rectangle;
  ls_same : bool;
  ls_i0 : Z;
  ls_j0 : Z;
  ls_x0 : Z;
  ls_i : Z;
  ls_j : Z;
  ls_P : list Z;
  ls_M : list Z;
  ls_xs : list Z
}.

(** The body run when the run [x0, x) of row [y] ends at column [x]. *)
Definition line_close (y x : Z) (s : line_state) : outcome line_state :=
  let '(mkLineState crop same i0 j0 x0 i j P M xs) := s in
  if same then
    xs' ← grow (Z.to_nat (j - j0)) xs (j - j0);
    src ← slice_range xs' 0 (j - j0);
    P' ← copy_range P j0 j src;
    Ret (mkLineState crop (negb same) i j x i j P' M xs')
  else
    src ← slice_range P j0 j;
    M' ← copy_range M i0 i src;
    let r := image.Rect x0 y x (y + 1) in
    Ret (mkLineState (add_crop crop r) (negb same) i j x i j P M' xs).

(** [i++; j++] at the end of an iteration. *)
Definition line_next (s : line_state) : line_state :=
  mkLineState (ls_crop s) (ls_same s) (ls_i0 s) (ls_j0 s) (ls_x0 s)
              (ls_i s + 1) (ls_j s + 1) (ls_P s) (ls_M s) (ls_xs s).

(** One iteration of the inner loop of [optimizeByLine], at column [x] of
    row [y]; [maxX] is [pm.Rect.Max.X]. *)
Definition line_step (maxX y x : Z) (s : line_state) : outcome line_state :=
  s1 ← (if x =? ls_x0 s then
          b ← same_pixel (ls_P s) (ls_M s) (ls_xs s) (ls_j s) (ls_i s);
          Ret (mkLineState (ls_crop s) b (ls_i s) (ls_j s) (ls_x0 s)
                           (ls_i s) (ls_j s) (ls_P s) (ls_M s) (ls_xs s))
        else
          turn ← (if x =? maxX then Ret true
                  else b ← same_pixel (ls_P s) (ls_M s) (ls_xs s) (ls_j s) (ls_i s);
                       Ret (negb (eqb b (ls_same s))));
          if turn : bool then line_close y x s else Ret s);
  Ret (line_next s1).

Fixpoint line_loop (fuel : nat) (maxX y x : Z) (s : line_state) : outcome line_state :=
  match fuel with
  | O => Ret s
  | S fuel' => s' ← line_step maxX y x s; line_loop fuel' maxX y (x + 1) s'
  end.

(** What one row hands to the next: the crop and the buffers. *)
Record rows_state : Type := mkRowsState {
  rs_crop : image.Rectangle;
  rs_P : list Z;
  rs_M : list Z;
  rs_xs : list Z
}.

(** The body of the outer loop of [optimizeByLine], for row [y]. *)
Definition row_step (pstride : Z) (prect : image.Rectangle)
    (mstride : Z) (mrect : image.Rectangle) (y : Z) (s : rows_state) : outcome rows_state :=
  let x0 := image.X (image.Min prect) in
  let i := image.PixOffset mstride mrect x0 y in
  let j := image.PixOffset pstride prect x0 y in
  s' ← line_loop (Z.to_nat (image.X (image.Max prect) - x0 + 1))
         (image.X (image.Max prect)) y x0
         (mkLineState (rs_crop s) false 0 0 x0 i j (rs_P s) (rs_M s) (rs_xs s));
  Ret (mkRowsState (ls_crop s') (ls_P s') (ls_M s') (ls_xs s')).

Fixpoint rows_loop (fuel : nat) (pstride : Z) (prect : image.Rectangle)
    (mstride : Z) (mrect : image.Rectangle) (y : Z) (s : rows_state) : outcome rows_state :=
  match fuel with
  | O => Ret s
  | S fuel' =>
      s' ← row_step pstride prect mstride mrect y s;
      rows_loop fuel' pstride prect mstride mrect (y + 1) s'
  end.

(** [optimizeByLine]: [for y := pm.Rect.Min.Y; y < pm.Rect.Max.Y; y++]. *)
Definition optimizeByLine (pstride : Z) (prect : image.Rectangle)
    (mstride : Z) (mrect : image.Rectangle) (P M xs : list Z) : outcome rows_state :=
  rows_loop (Z.to_nat (image.Dy prect)) pstride prect mstride mrect
    (image.Y (image.Min prect)) (mkRowsState image.ZR P M xs).

(** The crop [Optimize] applies: an empty crop becomes the pixel at the
    frame's origin. *)
Definition final_crop (pm : image.Paletted) (crop : image.Rectangle) : image.Rectangle :=
  if image.Empty crop then
    image.Rect (image.X (image.Min (image.PRect pm))) (image.Y (image.Min (image.PRect pm)))
               (image.X (image.Min (image.PRect pm)) + 1)
               (image.Y (image.Min (image.PRect pm)) + 1)
  else crop.

(** The end of [Optimize]: the frame itself when the crop is its whole
    rectangle, else its sub-image. *)
Definition cropped (pm : image.Paletted) (crop : image.Rectangle) : outcome image.Paletted :=
  let crop := final_crop pm crop in
  if negb (image.Eq (image.PRect pm) crop) then image.SubImage pm crop
  else Ret pm.

(** [Optimize] chooses the fast path. *)
Definition fast_path_taken (m : Mirror) (pm : image.Paletted) : bool :=
  image.Eq (image.PRect pm) (mRect m) &&
  (Z.of_nat (image.slen (image.Pix pm)) =? len (mPix m)).

(** The result of [Optimize]: the returned image or the error, with the
    optimizer and the caller's heap after the call. *)
Definition Optimize (o : Optimizer) (pm : image.Paletted) (h : Heap)
    : outcome ((image.Paletted + error) * Optimizer * Heap) :=
  match o_pm o with
  | None =>
      m ← NewPaletted (image.PRect pm) (image.Palette pm);
      P ← load h (image.Pix pm);
      M ← copy_range (mPix m) 0 (len (mPix m)) P;
      Ret (inl pm, mkOptimizer (Some (mkMirror M (mStride m) (mRect m) (mPalette m))) (o_xs o), h)
  | Some m =>
      if negb (image.In (image.PRect pm) (mRect m)) then
        Ret (inr (errors_New "image outside bounds"), o, h)
      else
        P ← load h (image.Pix pm);
        '(crop, P', M', xs') ←
          (if fast_path_taken m pm then
             s ← optimizeByPix (image.Stride pm) P (mPix m) (o_xs o);
             Ret (ps_crop s, ps_P s, ps_M s, ps_xs s)
           else
             s ← optimizeByLine (image.Stride pm) (image.PRect pm)
                   (mStride m) (mRect m) P (mPix m) (o_xs o);
             Ret (rs_crop s, rs_P s, rs_M s, rs_xs s));
        let h' := store h (image.Pix pm) P' in
        let o' := mkOptimizer (Some (mkMirror M' (mStride m) (mRect m) (mPalette m))) xs' in
        ret ← cropped pm crop;
        Ret (inl ret, o', h')
  end.

(** [OptimizeAll]: fewer than two images are left alone; otherwise every
    image is replaced by its optimized version, in order. *)
Fixpoint OptimizeAll_loop (o : Optimizer) (todo : list image.Paletted)
    (done : list image.Paletted) (h : Heap)
    : outcome (option error * list image.Paletted * Heap) :=
  match todo with
  | [] => Ret (None, done, h)
  | pm :: rest =>
      '(r, o', h') ← Optimize o pm h;
      match r with
      | inr err => Ret (Some err, done ++ pm :: rest, h')
      | inl pm' => OptimizeAll_loop o' rest (done ++ [pm']) h'
      end
  end.

Definition OptimizeAll (pms : list image.Paletted) (transparentIndex : Z) (h : Heap)
    : outcome (option error * list image.Paletted * Heap) :=
  if len pms <? 2 then Ret (None, pms, h)
  else OptimizeAll_loop (NewOptimizer transparentIndex) pms [] h.

(** ** Well-formed images and their pixels *)

(** The invariants that [image.NewPaletted] and [SubImage] establish for a
    non-empty image held in the heap: the window lies inside its buffer,
    rows do not overlap and the last row fits. *)
Record wf_paletted (h : Heap) (pm : image.Paletted) : Prop := {
  wf_buf : exists b buf, image.base (image.Pix pm) = Some b /\ h !! b = Some buf /\
             (image.off (image.Pix pm) + image.slen (image.Pix pm) <= length buf)%nat;
  wf_w : image.X (image.Min (image.PRect pm)) < image.X (image.Max (image.PRect pm));
  wf_h : image.Y (image.Min (image.PRect pm)) < image.Y (image.Max (image.PRect pm));
  wf_stride : image.Dx (image.PRect pm) <= image.Stride pm;
  wf_len : (image.Dy (image.PRect pm) - 1) * image.Stride pm + image.Dx (image.PRect pm)
           <= Z.of_nat (image.slen (image.Pix pm))
}.

(** An optimizer that has seen its first frame: the mirror [m] is as
    [image.NewPaletted] made it, and [xs] holds copies of the transparent
    index [t]. *)
Record wf_optimizer (t : Z) (o : Optimizer) (m : Mirror) : Prop := {
  wo_pm : o_pm o = Some m;
  wo_stride : mStride m = image.Dx (mRect m);
  wo_len : len (mPix m) = image.Dx (mRect m) * image.Dy (mRect m);
  wo_xs : exists c, o_xs o = replicate (S c) t
}.

(** Where pixel [(x, y)] of [p] is stored: a buffer and an index in it. *)
Definition pixel_loc (p : image.Paletted) (x y : Z) : option (nat * nat) :=
  match image.base (image.Pix p) with
  | None => None
  | Some b =>
      let k := image.PixOffset (image.Stride p) (image.PRect p) x y in
      if (0 <=? k) && (k <? Z.of_nat (image.slen (image.Pix p)))
      then Some (b, (image.off (image.Pix p) + Z.to_nat k)%nat)
      else None
  end.

(** [m.Pix[m.PixOffset(x, y)]] of the mirror. *)
Definition mirror_pixel (m : Mirror) (x y : Z) : option Z :=
  mPix m !! Z.to_nat (image.PixOffset (mStride m) (mRect m) x y).

(** The byte at index [a] of buffer [b]. *)
Definition heap_byte (h : Heap) (b a : nat) : option Z :=
  match h !! b with Some buf => buf !! a | None => None end.

(** [p.Pix[p.PixOffset(x, y)]] read from the heap. *)
Definition pixel (h : Heap) (p : image.Paletted) (x y : Z) : option Z :=
  match pixel_loc p x y with
  | None => None
  | Some (b, a) => heap_byte h b a
  end.

(** Pixel [(x, y)] of the frame [pm] needs no change over the mirror [m]:
    it equals the mirror's pixel or is already the transparent index [t]. *)
Definition unchanged (t : Z) (h : Heap) (m : Mirror) (pm : image.Paletted)
    (x y : Z) : bool :=
  match pixel h pm x y, mirror_pixel m x y with
  | Some p, Some q => bool_decide (p = q) || bool_decide (p = t)
  | _, _ => true
  end.

(** What a viewer shows at [(x, y)] when [top] is drawn over a canvas
    showing [under], with the pixels of index [t] transparent. *)
Definition composite (t : Z) (under : option Z) (h : Heap) (top : image.Paletted)
    (x y : Z) : option Z :=
  if image.PtIn x y (image.PRect top) then
    match pixel h top x y with
    | Some v => if bool_decide (v = t) then under else Some v
    | None => None
    end
  else under.

(** ** The blocks of a GIF stream (decoder.go) *)

(** The bytes of a string literal. *)
Definition bytes_of (s : string) : list Z :=
  map (fun c => Z.of_N (N_of_ascii c)) (list_ascii_of_string s).

(** [image.Config.ColorModel]: absent, a [color.Palette], or another model. *)
Inductive ColorModel : Type :=
  | NoModel
  | PaletteModel (p : image.ColorPalette)
  | OtherModel.

Record Config : Type := mkConfig {
  cfg_ColorModel : ColorModel;
  cfg_Width : Z;
  cfg_Height : Z
}.

Record Header : Type := mkHeader {
  hdr_Version : list Z;
  hdr_Config : Config;
  hdr_BackgroundIndex : Z
}.

(** The image block codec: what writer.go and reader.go do with an image
    and with the header, and the LZW raster codec below them.  None of it is
    in the sources at hand; it is taken as an interface.
    - [Img] is the value of an [image.Paletted] as a frame carries it;
    - [transparent_of] is the palette index of the image's transparent
      colour, if it has one;
    - [check_image] is the validation of an image before it is written;
    - [encode_image] gives the bytes of the image block after its
      introducer [0x2C]; [decode_image] reads them back, given the header
      and the transparent index left pending by a graphic control;
    - [encode_header] and [decode_header] do the same for the header and
      logical screen descriptor. *)
Class ImageCodec : Type := {
  Img : Type;
  transparent_of : Img -> option Z;
  check_image : Config -> Img -> option error;
  encode_image : Config -> Img -> list Z;
  decode_image : option Header -> option Z -> list Z -> (Img * list Z) + error;
  encode_header : Config -> Z -> list Z;
  decode_header : list Z -> (Header * list Z) + error
}.

Record PlainText : Type := mkPlainText {
  pt_TextGridLeftPosition : Z;
  pt_TextGridTopPosition : Z;
  pt_TextGridWidth : Z;
  pt_TextGridHeight : Z;
  pt_CharacterCellWidth : Z;
  pt_CharacterCellHeight : Z;
  pt_TextForegroundColorIndex : Z;
  pt_TextBackgroundColorIndex : Z;
  pt_Strings : list (list Z);
  pt_DelayTime : Z;
  pt_DisposalMethod : Z
}.

Record Comment : Type := mkComment { c_Strings : list (list Z) }.

Record ApplicationNetscape : Type := mkApplicationNetscape {
  an_LoopCount : Z;
  an_SubBlocks : list (list Z)
}.

Record UnknownApplication : Type := mkUnknownApplication {
  ua_Identifier : list Z;
  ua_SubBlocks : list (list Z)
}.

Record UnknownExtension : Type := mkUnknownExtension {
  ue_Label : Z;
  ue_SubBlocks : list (list Z)
}.

Record Frame `{ImageCodec} : Type := mkFrame {
  f_Image : Img;
  f_DelayTime : Z;
  f_DisposalMethod : Z
}.

Arguments mkFrame {_} _ _ _.

(** What [ReadBlock] returns as [any]. *)
Inductive block `{ImageCodec} : Type :=
  | BFrame (f : Frame)
  | BPlainText (pt : PlainText)
  | BComment (c : Comment)
  | BApplicationNetscape (an : ApplicationNetscape)
  | BUnknownApplication (ua : UnknownApplication)
  | BUnknownExtension (ue : UnknownExtension).

Arguments BFrame {_} _.
Arguments BPlainText {_} _.
Arguments BComment {_} _.
Arguments BApplicationNetscape {_} _.
Arguments BUnknownApplication {_} _.
Arguments BUnknownExtension {_} _.

(** The section and extension labels of reader.go, with the values the
    wire format gives them. *)
Definition sExtension : Z := 0x21.
Definition sImageDescriptor : Z := 0x2C.
Definition sTrailer : Z := 0x3B.
Definition eText : Z := 0x01.
Definition eGraphicControl : Z := 0xF9.
Definition eComment : Z := 0xFE.
Definition eApplication : Z := 0xFF.

(** [time.Millisecond], in nanoseconds. *)
Definition time_Millisecond : Z := 1000000.
(** [unicode.MaxASCII]. *)
Definition unicode_MaxASCII : Z := 0x7F.

(** [writeUint16]: little-endian. *)
Definition writeUint16 (u : Z) : list Z := [uint8_of u; uint8_of (Z.shiftr u 8)].

(** [readUint16]: [uint16(b[0]) | uint16(b[1])<<8]; panics on a slice
    shorter than two bytes. *)
Definition readUint16 (b : list Z) : outcome Z :=
  match b with
  | b0 :: b1 :: _ => Ret (Z.lor b0 (uint16_of (Z.shiftl b1 8)))
  | _ => Panic
  end.

(** ** The encoder (encoder.go) *)

(** The byte sink: the [writer] interface of writer.go, an [io.Writer]
    that is also an [io.ByteWriter] and can be flushed.  Each operation
    returns the sink after the call and its error. *)
Class Writer (W : Type) : Type := {
  Write : W -> list Z -> W * option error;
  WriteByte : W -> Z -> W * option error;
  Flush : W -> W * option error
}.

(** A [bytes.Buffer]: the bytes written so far; it never fails. *)
#[global] Instance buffer_writer : Writer (list Z) := {
  Write w p := (w ++ p, None);
  WriteByte w b := (w ++ [b], None);
  Flush w := (w, None)
}.

(** [io.WriteString]: the bytes of the string go to [Write]. *)
Definition io_WriteString {W} `{Writer W} (w : W) (s : list Z) : W * option error :=
  Write w s.

(** The encoder: its sink, its latched error, and the header it was given.
    The scratch array [e.buf] is filled anew before each write of a prefix
    of it, so a write takes the bytes as a value. *)
Record encoder (W : Type) : Type := mkEncoder {
  e_w : W;
  e_err : option error;
  e_g : option (Config * Z)
}.
Arguments mkEncoder {W} _ _ _.
Arguments e_w {W} _.
Arguments e_err {W} _.
Arguments e_g {W} _.

Definition NewEncoder {W} (w : W) : encoder W := mkEncoder w None None.

(** Modelled from the spec: [encoder.write] of writer.go, by the sticky
    error of section 5: once the error is latched a write is a no-op,
    otherwise the bytes go to the sink and its error is latched. *)
Definition e_write {W} `{Writer W} (e : encoder W) (p : list Z) : encoder W :=
  match e_err e with
  | Some _ => e
  | None => let '(w', err) := Write (e_w e) p in mkEncoder w' err (e_g e)
  end.

(** Modelled from the spec: [encoder.writeByte] of writer.go, as [e_write]. *)
Definition e_writeByte {W} `{Writer W} (e : encoder W) (b : Z) : encoder W :=
  match e_err e with
  | Some _ => e
  | None => let '(w', err) := WriteByte (e_w e) b in mkEncoder w' err (e_g e)
  end.

(** Modelled from the spec: [encoder.flush] of writer.go, as [e_write]. *)
Definition e_flush {W} `{Writer W} (e : encoder W) : encoder W :=
  match e_err e with
  | Some _ => e
  | None => let '(w', err) := Flush (e_w e) in mkEncoder w' err (e_g e)
  end.

(** [_, e.err = io.WriteString(e.w, s)]: the error is assigned whatever it
    is. *)
Definition e_WriteString {W} `{Writer W} (e : encoder W) (s : list Z) : encoder W :=
  let '(w', err) := io_WriteString (e_w e) s in mkEncoder w' err (e_g e).

(** The width in bytes of the first rune of a non-empty string, as
    [for ... range str] decodes UTF-8: an invalid or truncated sequence
    counts for one byte. *)
Definition is_cont (lo hi b : Z) : bool := (lo <=? b) && (b <=? hi).

Definition rune_width (s : list Z) : nat :=
  match s with
  | [] => 0
  | b0 :: rest =>
      if b0 <? 0x80 then 1
      else if b0 <? 0xC2 then 1
      else if b0 <? 0xE0 then
        match rest with
        | b1 :: _ => if is_cont 0x80 0xBF b1 then 2 else 1
        | _ => 1
        end
      else if b0 <? 0xF0 then
        let lo := if b0 =? 0xE0 then 0xA0 else 0x80 in
        let hi := if b0 =? 0xED then 0x9F else 0xBF in
        match rest with
        | b1 :: b2 :: _ =>
            if is_cont lo hi b1 && is_cont 0x80 0xBF b2 then 3 else 1
        | _ => 1
        end
      else if b0 <? 0xF5 then
        let lo := if b0 =? 0xF0 then 0x90 else 0x80 in
        let hi := if b0 =? 0xF4 then 0x8F else 0xBF in
        match rest with
        | b1 :: b2 :: b3 :: _ =>
            if is_cont lo hi b1 && is_cont 0x80 0xBF b2 && is_cont 0x80 0xBF b3
            then 4 else 1
        | _ => 1
        end
      else 1
  end.

(** [for c := range str { if c > unicode.MaxASCII { return error } }]:
    [c] is the byte index at which each rune starts.  [true] when the loop
    ends without the error. *)
Fixpoint range_indices_ok (fuel : nat) (c : Z) (s : list Z) : bool :=
  match fuel with
  | O => true
  | S fuel' =>
      match s with
      | [] => true
      | _ =>
          if c >? unicode_MaxASCII then false
          else range_indices_ok fuel' (c + Z.of_nat (rune_width s)) (drop (rune_width s) s)
      end
  end.

Definition validateString (str : list Z) : option error :=
  if len str >? 0xff then Some (errors_New "string too long")
  else if range_indices_ok (length str) 0 str then None
  else Some (errors_New "string must only contain ASCII characters").

Fixpoint validateStrings_loop (strings : list (list Z)) : option error :=
  match strings with
  | [] => None
  | str :: rest =>
      match validateString str with
      | Some err => Some err
      | None => validateStrings_loop rest
      end
  end.

Definition validateStrings (strings : list (list Z)) : option error :=
  if len strings =? 0 then Some (errors_New "must provide at least one string")
  else validateStrings_loop strings.

Fixpoint validateSubBlocks (subBlocks : list (list Z)) : option error :=
  match subBlocks with
  | [] => None
  | sb :: rest =>
      if len sb >? 0xff then Some (errors_New "sub-block too long")
      else validateSubBlocks rest
  end.

Fixpoint writeStrings {W} `{Writer W} (e : encoder W) (strings : list (list Z))
    : encoder W * option error :=
  match strings with
  | [] => let e := e_writeByte e 0x00 in (e, e_err e)
  | s :: rest =>
      let e := e_writeByte e (uint8_of (len s)) in
      match e_err e with
      | Some err => (e, Some err)
      | None =>
          let e := e_WriteString e s in
          match e_err e with
          | Some err => (e, Some err)
          | None => writeStrings e rest
          end
      end
  end.

Fixpoint writeSubBlocks {W} `{Writer W} (e : encoder W) (subBlocks : list (list Z))
    : encoder W * option error :=
  match subBlocks with
  | [] => let e := e_writeByte e 0x00 in (e, e_err e)
  | sb :: rest =>
      let e := e_writeByte e (uint8_of (len sb)) in
      match e_err e with
      | Some err => (e, Some err)
      | None =>
          let e := e_write e sb in
          match e_err e with
          | Some err => (e, Some err)
          | None => writeSubBlocks e rest
          end
      end
  end.

(** The eight bytes of a graphic control extension as [WritePlainText]
    fills them: the disposal method shifted into the packed byte, the delay
    in hundredths of a second, no transparent index. *)
Definition plain_text_gce (pt : PlainText) : list Z :=
  [sExtension; eGraphicControl; 0x04; uint8_of (Z.shiftl (pt_DisposalMethod pt) 2)] ++
  writeUint16 (uint16_of (Z.quot (pt_DelayTime pt) (10 * time_Millisecond))) ++
  [0x00; 0x00].

(** The fifteen bytes that open a plain text extension. *)
Definition plain_text_head (pt : PlainText) : list Z :=
  [sExtension; eText; 0x0c] ++
  writeUint16 (pt_TextGridLeftPosition pt) ++
  writeUint16 (pt_TextGridTopPosition pt) ++
  writeUint16 (pt_TextGridWidth pt) ++
  writeUint16 (pt_TextGridHeight pt) ++
  [pt_CharacterCellWidth pt; pt_CharacterCellHeight pt;
   pt_TextForegroundColorIndex pt; pt_TextBackgroundColorIndex pt].

Definition WritePlainText {W} `{Writer W} (e : encoder W) (pt : PlainText)
    : encoder W * option error :=
  match validateStrings (pt_Strings pt) with
  | Some err => (e, Some (fmt_Errorf_v "gif: plain text %v" err))
  | None =>
      let e := if (pt_DelayTime pt >? 0) || negb (pt_DisposalMethod pt =? 0)
               then e_write e (plain_text_gce pt) else e in
      let e := e_write e (plain_text_head pt) in
      match e_err e with
      | Some err => (e, Some err)
      | None => writeStrings e (pt_Strings pt)
      end
  end.

Definition WriteComment {W} `{Writer W} (e : encoder W) (c : Comment)
    : encoder W * option error :=
  match validateStrings (c_Strings c) with
  | Some err => (e, Some (fmt_Errorf_v "gif: comment %v" err))
  | None =>
      let e := e_write e [sExtension; eComment] in
      match e_err e with
      | Some err => (e, Some err)
      | None => writeStrings e (c_Strings c)
      end
  end.

Definition WriteApplicationNetscape {W} `{Writer W} (e : encoder W)
    (an : ApplicationNetscape) : encoder W * option error :=
  match validateSubBlocks (an_SubBlocks an) with
  | Some err => (e, Some (fmt_Errorf_v "gif: application %v" err))
  | None =>
      let e := e_write e [sExtension; eApplication; 0x0b] in
      match e_err e with
      | Some err => (e, Some err)
      | None =>
          let e := e_WriteString e (bytes_of "NETSCAPE2.0") in
          match e_err e with
          | Some err => (e, Some err)
          | None =>
              let e := e_write e ([0x03; 0x01] ++ writeUint16 (uint16_of (an_LoopCount an))) in
              match e_err e with
              | Some err => (e, Some err)
              | None => writeSubBlocks e (an_SubBlocks an)
              end
          end
      end
  end.

Definition WriteUnknownApplication {W} `{Writer W} (e : encoder W)
    (ua : UnknownApplication) : encoder W * option error :=
  match validateString (ua_Identifier ua) with
  | Some err => (e, Some (fmt_Errorf_v "gif: application identifier %v" err))
  | None =>
      match validateSubBlocks (ua_SubBlocks ua) with
      | Some err => (e, Some (fmt_Errorf_v "gif: application %v" err))
      | None =>
          let e := e_write e [sExtension; eApplication; uint8_of (len (ua_Identifier ua))] in
          match e_err e with
          | Some err => (e, Some err)
          | None =>
              let e := e_WriteString e (ua_Identifier ua) in
              match e_err e with
              | Some err => (e, Some err)
              | None => writeSubBlocks e (ua_SubBlocks ua)
              end
          end
      end
  end.

Definition WriteUnknownExtension {W} `{Writer W} (e : encoder W)
    (ue : UnknownExtension) : encoder W * option error :=
  match validateSubBlocks (ue_SubBlocks ue) with
  | Some err => (e, Some (fmt_Errorf_v "gif: extension %v" err))
  | None =>
      let e := e_write e [sExtension; ue_Label ue] in
      match e_err e with
      | Some err => (e, Some err)
      | None => writeSubBlocks e (ue_SubBlocks ue)
      end
  end.

Definition WriteTrailer {W} `{Writer W} (e : encoder W) : encoder W * option error :=
  let e := e_writeByte e sTrailer in (e, e_err e).

Definition Encoder_Flush {W} `{Writer W} (e : encoder W) : encoder W * option error :=
  let e := e_flush e in (e, e_err e).

(** Modelled from the spec: [encoder.writeHeader] of writer.go, by section
    4.2: the signature and logical screen descriptor of the header the
    encoder holds, through the sticky write. *)
Definition writeHeader {W} `{Writer W} `{ImageCodec} (e : encoder W) : encoder W :=
  match e_g e with
  | Some (cfg, backgroundIndex) => e_write e (encode_header cfg backgroundIndex)
  | None => e
  end.

Definition WriteHeader {W} `{Writer W} `{ImageCodec} (e : encoder W) (cfg : Config)
    (backgroundIndex : Z) : encoder W * option error :=
  match cfg_ColorModel cfg with
  | OtherModel => (e, Some (errors_New "gif: color model must be a color.Palette"))
  | _ =>
      let e := mkEncoder (e_w e) (e_err e) (Some (cfg, backgroundIndex)) in
      let e := writeHeader e in
      (e, e_err e)
  end.

(** The graphic control extension that precedes an image block. *)
Definition image_gce (transparentIndex : option Z) (delay disposal : Z) : list Z :=
  [sExtension; eGraphicControl; 0x04;
   match transparentIndex with
   | Some _ => Z.lor 0x01 (uint8_of (Z.shiftl disposal 2))
   | None => Z.lor 0x00 (uint8_of (Z.shiftl disposal 2))
   end] ++
  writeUint16 (uint16_of delay) ++
  [match transparentIndex with Some ti => uint8_of ti | None => 0x00 end; 0x00].

(** Modelled from the spec: [encoder.writeImageBlock] of writer.go, by
    sections 4.3 and 4.7: an image that fails validation latches the
    error; a graphic control extension goes first when the delay is
    positive, the disposal is non-zero or the image has a transparent
    index; then the introducer [0x2C] and the image block.  writer.go is
    the file of Go 1.18's image/gif, unchanged (README), and its test is
    [delay > 0 || disposal != 0 || transparentIndex != -1]: a negative
    delay alone writes no graphic control. *)
Definition writeImageBlock {W} `{Writer W} `{ImageCodec} (e : encoder W)
    (pm : Img) (delay disposal : Z) : encoder W :=
  match e_err e with
  | Some _ => e
  | None =>
      let cfg := match e_g e with
                 | Some (cfg, _) => cfg
                 | None => mkConfig NoModel 0 0
                 end in
      match check_image cfg pm with
      | Some err => mkEncoder (e_w e) (Some err) (e_g e)
      | None =>
          let e := if (0 <? delay) || negb (disposal =? 0) ||
                      bool_decide (transparent_of pm <> None)
                   then e_write e (image_gce (transparent_of pm) delay disposal)
                   else e in
          e_write e (sImageDescriptor :: encode_image cfg pm)
      end
  end.

Definition WriteFrame {W} `{Writer W} `{ImageCodec} (e : encoder W) (f : Frame)
    : encoder W * option error :=
  let e := writeImageBlock e (f_Image f)
             (Z.quot (f_DelayTime f) (10 * time_Millisecond)) (f_DisposalMethod f) in
  (e, e_err e).

(** ** The decoder (decoder.go) *)

(** The decoder over a byte source that holds the bytes [d_r] still to be
    read (a [bytes.Reader]).  [d_hdr] stands for the fields the header sets
    ([vers], [width], [height], [backgroundIndex], [globalColorTable]).  The
    scratch array [d.tmp] is read only right after the read that filled
    it, so a read returns its bytes as a value. *)
Record decoder `{ImageCodec} : Type := mkDecoder {
  d_r : list Z;
  d_hdr : option Header;
  d_loopCount : Z;
  d_delayTime : Z;
  d_disposalMethod : Z;
  d_transparentIndex : Z;
  d_hasTransparentIndex : bool;
  d_delay : list Z;
  d_disposal : list Z;
  d_image : list Img
}.

Arguments mkDecoder {_} _ _ _ _ _ _ _ _ _ _.

(** [NewDecoder]: every field but the source has its zero value. *)
Definition NewDecoder `{ImageCodec} (r : list Z) : decoder :=
  mkDecoder r None 0 0 0 0 false [] [] [].

Definition set_r `{ImageCodec} (d : decoder) (r : list Z) : decoder :=
  mkDecoder r (d_hdr d) (d_loopCount d) (d_delayTime d) (d_disposalMethod d)
            (d_transparentIndex d) (d_hasTransparentIndex d)
            (d_delay d) (d_disposal d) (d_image d).

(** Modelled from the spec: [readByte] of reader.go, by the byte source
    contract of section 6: one byte, or an error at the end of the stream,
    never a silent zero. *)
Definition readByte `{ImageCodec} (d : decoder) : (Z + error) * decoder :=
  match d_r d with
  | [] => (inr io_ErrUnexpectedEOF, d)
  | b :: rest => (inl b, set_r d rest)
  end.

(** Modelled from the spec: [readFull] of reader.go, by the byte source
    contract of section 6: exactly [n] bytes, or an error on a short read
    (which uses up what was left). *)
Definition readFull `{ImageCodec} (d : decoder) (n : nat) : (list Z + error) * decoder :=
  if decide (n <= length (d_r d))%nat
  then (inl (take n (d_r d)), set_r d (drop n (d_r d)))
  else (inr io_ErrUnexpectedEOF, set_r d []).

(** Modelled from the spec: [decoder.readBlock] of reader.go, by the
    sub-block framer of section 4.1: one length byte [n], then exactly [n]
    bytes; the empty chunk is the terminator. *)
Definition readBlock `{ImageCodec} (d : decoder) : (list Z + error) * decoder :=
  match readByte d with
  | (inr err, d) => (inr err, d)
  | (inl n, d) => if n =? 0 then (inl [], d) else readFull d (Z.to_nat n)
  end.

(** [readStrings]: chunks until the terminator.  An iteration that goes on
    has read at least two bytes, so the bytes left bound the iterations. *)
Fixpoint readStrings_loop `{ImageCodec} (fuel : nat) (d : decoder)
    (strings : list (list Z)) : outcome ((list (list Z) + error) * decoder) :=
  match readBlock d with
  | (inr err, d) => Ret (inr err, d)
  | (inl chunk, d) =>
      if len chunk =? 0 then Ret (inl strings, d)
      else match fuel with
           | O => Diverge
           | S fuel' => readStrings_loop fuel' d (strings ++ [chunk])
           end
  end.

Definition readStrings `{ImageCodec} (d : decoder)
    : outcome ((list (list Z) + error) * decoder) :=
  readStrings_loop (length (d_r d)) d [].

(** [readSubBlocks]: as [readStrings], each chunk copied out of [d.tmp]. *)
Fixpoint readSubBlocks_loop `{ImageCodec} (fuel : nat) (d : decoder)
    (sb : list (list Z)) : outcome ((list (list Z) + error) * decoder) :=
  match readBlock d with
  | (inr err, d) => Ret (inr err, d)
  | (inl data, d) =>
      if len data =? 0 then Ret (inl sb, d)
      else match fuel with
           | O => Diverge
           | S fuel' => readSubBlocks_loop fuel' d (sb ++ [data])
           end
  end.

Definition readSubBlocks `{ImageCodec} (d : decoder)
    : outcome ((list (list Z) + error) * decoder) :=
  readSubBlocks_loop (length (d_r d)) d [].

(** Modelled from the spec: [decoder.readGraphicControl] of reader.go, by
    section 4.3: after the label come the size byte [0x04], the packed
    byte, the delay (little-endian), the transparent index and the
    terminator [0x00]; bits 4..2 of the packed byte are the disposal
    method, bit 0 says that the transparent index is set.  The values go to
    the pending scratch of the decoder.  reader.go is the file of Go 1.18's
    image/gif, unchanged (README): it checks the terminator last, after the
    scratch is set, and a terminator other than zero is an error. *)
Definition readGraphicControl `{ImageCodec} (d : decoder) : option error * decoder :=
  match readFull d 6 with
  | (inr err, d) => (Some (fmt_Errorf_v "gif: can't read graphic control: %s" err), d)
  | (inl tmp, d) =>
      match tmp with
      | [size; flags; d0; d1; ti; term] =>
          if negb (size =? 4) then
            (Some (fmt_Errorf_d "gif: invalid graphic control extension block size: %d" size), d)
          else
            let has := negb (Z.land flags 0x01 =? 0) in
            let d := mkDecoder (d_r d) (d_hdr d) (d_loopCount d)
                       (Z.lor d0 (Z.shiftl d1 8))
                       (Z.shiftr (Z.land flags 0x1C) 2)
                       (if has then ti else d_transparentIndex d)
                       (if has then true else d_hasTransparentIndex d)
                       (d_delay d) (d_disposal d) (d_image d) in
            if negb (term =? 0) then
              (Some (fmt_Errorf_d
                       "gif: invalid graphic control extension block terminator: %d" term),
               d)
            else (None, d)
      | _ => (Some io_ErrUnexpectedEOF, d)
      end
  end.

(** Modelled from the spec: [decoder.readImageDescriptor] of reader.go, by
    sections 4.7 and 4.8: the image block is decoded with the pending
    transparent index and the image is queued with the pending delay and
    disposal.  reader.go is the file of Go 1.18's image/gif, unchanged
    (README): after an image it resets [d.delayTime] and
    [d.hasTransparentIndex] and leaves [d.disposalMethod] as it is, where
    section 4.3 of the spec has the whole scratch cleared; the model follows
    the file.  [ReadBlock] calls it with [keepAllFrames = false], which
    queues the image when the queue is empty, as it is at every call. *)
Definition readImageDescriptor `{ImageCodec} (d : decoder) : option error * decoder :=
  match decode_image (d_hdr d)
          (if d_hasTransparentIndex d then Some (d_transparentIndex d) else None)
          (d_r d) with
  | inr err => (Some err, d)
  | inl (m, rest) =>
      (None,
       mkDecoder rest (d_hdr d) (d_loopCount d) 0 (d_disposalMethod d)
         (d_transparentIndex d) false
         (d_delay d ++ [d_delayTime d]) (d_disposal d ++ [d_disposalMethod d])
         (d_image d ++ [m]))
  end.

(** Modelled from the spec: [decoder.readHeaderAndScreenDescriptor] of
    reader.go, by section 4.2. *)
Definition readHeaderAndScreenDescriptor `{ImageCodec} (d : decoder)
    : option error * decoder :=
  match decode_header (d_r d) with
  | inr err => (Some err, d)
  | inl (hdr, rest) =>
      (None,
       mkDecoder rest (Some hdr) (d_loopCount d) (d_delayTime d) (d_disposalMethod d)
         (d_transparentIndex d) (d_hasTransparentIndex d)
         (d_delay d) (d_disposal d) (d_image d))
  end.

Definition ReadHeader `{ImageCodec} (d : decoder) : (option Header + error) * decoder :=
  match readHeaderAndScreenDescriptor d with
  | (Some err, d) => (inr err, d)
  | (None, d) => (inl (d_hdr d), d)
  end.

Definition readPlainText `{ImageCodec} (d : decoder)
    : outcome ((PlainText + error) * decoder) :=
  match readFull d 13 with
  | (inr err, d) => Ret (inr (fmt_Errorf_v "gif: reading plain text extension: %v" err), d)
  | (inl tmp, d) =>
      match tmp with
      | [t0; t1; t2; t3; t4; t5; t6; t7; t8; t9; t10; t11; t12] =>
          if negb (t0 =? 0x0c) then
            Ret (inr (fmt_Errorf_d "gif: invalid plain text extension block size: %d" t0), d)
          else
            left ← readUint16 [t1; t2];
            top ← readUint16 [t3; t4];
            width ← readUint16 [t5; t6];
            height ← readUint16 [t7; t8];
            let delay := uint16_of (d_delayTime d) in
            let disposal := d_disposalMethod d in
            '(r, d) ← readStrings d;
            match r with
            | inr err =>
                Ret (inr (fmt_Errorf_v "gif: reading plain text extension: %v" err), d)
            | inl strings =>
                Ret (inl (mkPlainText left top width height t9 t10 t11 t12
                            strings delay disposal),
                     mkDecoder (d_r d) (d_hdr d) (d_loopCount d) 0 0
                       (d_transparentIndex d) false
                       (d_delay d) (d_disposal d) (d_image d))
            end
      | _ => Panic
      end
  end.

Definition readComment `{ImageCodec} (d : decoder)
    : outcome ((Comment + error) * decoder) :=
  '(r, d) ← readStrings d;
  match r with
  | inr err => Ret (inr (fmt_Errorf_v "gif: reading comment extension: %v" err), d)
  | inl strings => Ret (inl (mkComment strings), d)
  end.

Definition set_loopCount `{ImageCodec} (d : decoder) (n : Z) : decoder :=
  mkDecoder (d_r d) (d_hdr d) n (d_delayTime d) (d_disposalMethod d)
            (d_transparentIndex d) (d_hasTransparentIndex d)
            (d_delay d) (d_disposal d) (d_image d).

Definition app_err : string := "gif: reading application extension: %v".

Definition readApplication `{ImageCodec} (d : decoder)
    : outcome ((block + error) * decoder) :=
  match readByte d with
  | (inr err, d) => Ret (inr (fmt_Errorf_v app_err err), d)
  | (inl b, d) =>
      match readFull d (Z.to_nat b) with
      | (inr err, d) => Ret (inr (fmt_Errorf_v app_err err), d)
      | (inl id, d) =>
          if bool_decide (id = bytes_of "NETSCAPE2.0") then
            match readBlock d with
            | (inr err, d) => Ret (inr (fmt_Errorf_v app_err err), d)
            | (inl tmp, d) =>
                d ← (if (len tmp =? 3) && bool_decide (tmp !! 0%nat = Some 1) then
                       n ← readUint16 (drop 1 tmp); Ret (set_loopCount d n)
                     else Ret d);
                '(r, d) ← readSubBlocks d;
                match r with
                | inr err => Ret (inr (fmt_Errorf_v app_err err), d)
                | inl sb =>
                    Ret (inl (BApplicationNetscape
                                (mkApplicationNetscape (d_loopCount d) sb)), d)
                end
            end
          else
            '(r, d) ← readSubBlocks d;
            match r with
            | inr err => Ret (inr (fmt_Errorf_v app_err err), d)
            | inl sb => Ret (inl (BUnknownApplication (mkUnknownApplication id sb)), d)
            end
      end
  end.

Definition readUnknownExtension `{ImageCodec} (d : decoder) (label : Z)
    : outcome ((UnknownExtension + error) * decoder) :=
  '(r, d) ← readSubBlocks d;
  match r with
  | inr err => Ret (inr (fmt_Errorf_v "gif: reading unknown extension: %v" err), d)
  | inl sb => Ret (inl (mkUnknownExtension label sb), d)
  end.

(** What [readExtension_] returns as [(any, error)]: a block, an error, or
    neither (a graphic control was read). *)
Inductive ext_result `{ImageCodec} : Type :=
  | ExtBlock (b : block)
  | ExtErr (err : error)
  | ExtNone.

Arguments ExtBlock {_} _.
Arguments ExtErr {_} _.
Arguments ExtNone {_}.

Definition readExtension_ `{ImageCodec} (d : decoder) : outcome (ext_result * decoder) :=
  match readByte d with
  | (inr err, d) => Ret (ExtErr (fmt_Errorf_v "gif: reading extension: %v" err), d)
  | (inl label, d) =>
      if label =? eText then
        '(r, d) ← readPlainText d;
        Ret (match r with inl pt => ExtBlock (BPlainText pt) | inr err => ExtErr err end, d)
      else if label =? eGraphicControl then
        let '(err, d) := readGraphicControl d in
        Ret (match err with Some err => ExtErr err | None => ExtNone end, d)
      else if label =? eComment then
        '(r, d) ← readComment d;
        Ret (match r with inl c => ExtBlock (BComment c) | inr err => ExtErr err end, d)
      else if label =? eApplication then
        '(r, d) ← readApplication d;
        Ret (match r with inl b => ExtBlock b | inr err => ExtErr err end, d)
      else
        '(r, d) ← readUnknownExtension d label;
        Ret (match r with
             | inl ue => ExtBlock (BUnknownExtension ue)
             | inr err => ExtErr err
             end, d)
  end.

(** The image branch of [ReadBlock]: the frame is built from the head of
    the queues, which are then emptied. *)
Definition read_frame `{ImageCodec} (d : decoder) : outcome ((block + error) * decoder) :=
  match readImageDescriptor d with
  | (Some err, d) => Ret (inr err, d)
  | (None, d) =>
      m ← of_option (d_image d !! 0%nat);
      delay ← of_option (d_delay d !! 0%nat);
      disposal ← of_option (d_disposal d !! 0%nat);
      Ret (inl (BFrame (mkFrame m (uint16_of delay) disposal)),
           mkDecoder (d_r d) (d_hdr d) (d_loopCount d) (d_delayTime d)
             (d_disposalMethod d) (d_transparentIndex d) (d_hasTransparentIndex d)
             [] [] [])
  end.

(** [ReadBlock]: the loop goes round only after a graphic control, which
    has read bytes, so the bytes left bound the iterations.  The end of the
    stream is the error [io.EOF], as in Go. *)
Fixpoint ReadBlock_loop `{ImageCodec} (fuel : nat) (d : decoder)
    : outcome ((block + error) * decoder) :=
  match readByte d with
  | (inr err, d) => Ret (inr (fmt_Errorf_v "gif: reading block: %v" err), d)
  | (inl c, d) =>
      if c =? sExtension then
        '(r, d) ← readExtension_ d;
        match r with
        | ExtBlock b => Ret (inl b, d)
        | ExtErr err => Ret (inr err, d)
        | ExtNone =>
            match fuel with
            | O => Diverge
            | S fuel' => ReadBlock_loop fuel' d
            end
        end
      else if c =? sImageDescriptor then read_frame d
      else if c =? sTrailer then Ret (inr io_EOF, d)
      else Ret (inr (fmt_Errorf_d "gif: unknown block type: 0x%.2x" c), d)
  end.

Definition ReadBlock `{ImageCodec} (d : decoder) : outcome ((block + error) * decoder) :=
  ReadBlock_loop (length (d_r d)) d.

(** [GIF] of gif.go, as [Decode] fills it. *)
Record GIF `{ImageCodec} : Type := mkGIF {
  g_Image : list Img;
  g_Delay : list Z;
  g_Disposal : list Z;
  g_Config : option Config;
  g_BackgroundIndex : Z;
  g_LoopCount : Z
}.

Arguments mkGIF {_} _ _ _ _ _ _.

Fixpoint Decode_loop `{ImageCodec} (fuel : nat) (d : decoder) (g : GIF)
    : outcome ((GIF + error) * decoder) :=
  '(r, d) ← ReadBlock d;
  match r with
  | inr err =>
      if is_EOF err then
        if len (g_Image g) =? 0
        then Ret (inr (errors_New "gif: missing image data"), d)
        else Ret (inl g, d)
      else Ret (inr err, d)
  | inl b =>
      let g := match b with
               | BApplicationNetscape an =>
                   mkGIF (g_Image g) (g_Delay g) (g_Disposal g) (g_Config g)
                         (g_BackgroundIndex g) (an_LoopCount an)
               | BFrame f =>
                   mkGIF (g_Image g ++ [f_Image f]) (g_Delay g ++ [f_DelayTime f])
                         (g_Disposal g ++ [f_DisposalMethod f]) (g_Config g)
                         (g_BackgroundIndex g) (g_LoopCount g)
               | _ => g
               end in
      match fuel with
      | O => Diverge
      | S fuel' => Decode_loop fuel' d g
      end
  end.

(** [Decode]: the loop count starts at -1, the header is read, and the
    blocks are collected until the end of the stream. *)
Definition Decode `{ImageCodec} (d : decoder) : outcome ((GIF + error) * decoder) :=
  let d := set_loopCount d (-1) in
  match ReadHeader d with
  | (inr err, d) => Ret (inr err, d)
  | (inl hdr, d) =>
      Decode_loop (length (d_r d)) d
        (mkGIF [] [] []
           (match hdr with Some h => Some (hdr_Config h) | None => None end)
           (match hdr with Some h => hdr_BackgroundIndex h | None => 0 end) (-1))
  end.

(** ** A codec to run the stream on

    An instance of the image block interface, used to evaluate the encoder
    and the decoder on concrete streams.  An image is one row of at most
    255 palette indices, stored as one length-prefixed chunk, without a
    palette and without compression; the header is the signature and the
    seven bytes of the logical screen descriptor. *)
Definition row_encode_header (cfg : Config) (backgroundIndex : Z) : list Z :=
  bytes_of "GIF89a" ++ writeUint16 (uint16_of (cfg_Width cfg)) ++
  writeUint16 (uint16_of (cfg_Height cfg)) ++ [0x70; backgroundIndex; 0x00].

Definition row_decode_header (r : list Z) : (Header * list Z) + error :=
  match r with
  | g :: i :: f :: v0 :: v1 :: v2 :: w0 :: w1 :: h0 :: h1 :: _ :: bi :: _ :: rest =>
      if bool_decide ([g; i; f; v0; v1; v2] = bytes_of "GIF89a") ||
         bool_decide ([g; i; f; v0; v1; v2] = bytes_of "GIF87a")
      then inl (mkHeader [g; i; f; v0; v1; v2]
                  (mkConfig NoModel (Z.lor w0 (Z.shiftl w1 8)) (Z.lor h0 (Z.shiftl h1 8)))
                  bi, rest)
      else inr (errors_New "gif: can't recognize format")
  | _ => inr io_ErrUnexpectedEOF
  end.

Definition row_decode_image (hdr : option Header) (ti : option Z) (r : list Z)
    : (list Z * list Z) + error :=
  match r with
  | n :: rest =>
      if decide (Z.to_nat n <= length rest)%nat
      then inl (take (Z.to_nat n) rest, drop (Z.to_nat n) rest)
      else inr io_ErrUnexpectedEOF
  | [] => inr io_ErrUnexpectedEOF
  end.

#[global] Instance row_codec : ImageCodec := {
  Img := list Z;
  transparent_of := fun _ => None;
  check_image := fun _ m =>
    if len m >? 0xff then Some (errors_New "gif: image block is too large to encode")
    else None;
  encode_image := fun _ m => uint8_of (len m) :: m;
  decode_image := row_decode_image;
  encode_header := row_encode_header;
  decode_header := row_decode_header
}.

(** ** Sub-block framing and streams *)

(** The sub-block framing of section 4.1: each chunk behind its length
    byte, then the terminator. *)
Definition frame_chunks (chunks : list (list Z)) : list Z :=
  concat (map (fun c => uint8_of (len c) :: c) chunks) ++ [0x00].

(** An encoder on a buffer holding [w], with no error latched. *)
Definition on_buffer (w : list Z) (g : option (Config * Z)) : encoder (list Z) :=
  mkEncoder w None g.

(** The pending graphic control scratch of the decoder is clear. *)
Definition scratch_clear `{ImageCodec} (d : decoder) : Prop :=
  d_delayTime d = 0 /\ d_disposalMethod d = 0 /\ d_hasTransparentIndex d = false.

(** The queues [d.image], [d.delay] and [d.disposal] are empty, as
    [NewDecoder] and every [ReadBlock] leave them. *)
Definition queues_empty `{ImageCodec} (d : decoder) : Prop :=
  d_image d = [] /\ d_delay d = [] /\ d_disposal d = [].

(** The transparent index a graphic control has left pending. *)
Definition pending_transparent `{ImageCodec} (d : decoder) : option Z :=
  if d_hasTransparentIndex d then Some (d_transparentIndex d) else None.

(** The decoder after a graphic control extension with the packed byte
    [flags], the delay bytes [d0 d1] and the transparent index [ti], the
    source now at [rest]. *)
Definition after_graphic_control `{ImageCodec} (d : decoder)
    (flags d0 d1 ti : Z) (rest : list Z) : decoder :=
  mkDecoder rest (d_hdr d) (d_loopCount d)
    (Z.lor d0 (Z.shiftl d1 8))
    (Z.shiftr (Z.land flags 0x1C) 2)
    (if negb (Z.land flags 0x01 =? 0) then ti else d_transparentIndex d)
    (if negb (Z.land flags 0x01 =? 0) then true else d_hasTransparentIndex d)
    (d_delay d) (d_disposal d) (d_image d).

(** The pending scratch of [d'] is that of [d]. *)
Definition same_scratch `{ImageCodec} (d d' : decoder) : Prop :=
  d_delayTime d' = d_delayTime d /\ d_disposalMethod d' = d_disposalMethod d /\
  d_transparentIndex d' = d_transparentIndex d /\
  d_hasTransparentIndex d' = d_hasTransparentIndex d.

(** The terminal-state property as the specification words it: once
    [ReadBlock] has reported the end of the stream, a further call reports
    it again and reads nothing. *)
Definition C6_as_stated `{ImageCodec} (d : decoder) : Prop :=
  forall d1, ReadBlock d = Ret (inr io_EOF, d1) ->
             ReadBlock d1 = Ret (inr io_EOF, d1).

(** ** Round trips (gif_test.go) *)

(** The [Write...] call of each test, by the kind of the block. *)
Definition Write_block {W} `{Writer W} `{ImageCodec} (e : encoder W) (v : block)
    : encoder W * option error :=
  match v with
  | BFrame f => WriteFrame e f
  | BPlainText pt => WritePlainText e pt
  | BComment c => WriteComment e c
  | BApplicationNetscape an => WriteApplicationNetscape e an
  | BUnknownApplication ua => WriteUnknownApplication e ua
  | BUnknownExtension ue => WriteUnknownExtension e ue
  end.

(** [doEncode]: the header, the block under test, the terminator frame,
    the trailer and a flush, into a buffer; the bytes and the error of each
    call. *)
Definition doEncode `{ImageCodec} (cfg : Config) (backgroundIndex : Z)
    (v : block) (term : Frame) : list Z * list (option error) :=
  let '(e, r1) := WriteHeader (NewEncoder []) cfg backgroundIndex in
  let '(e, r2) := Write_block e v in
  let '(e, r3) := WriteFrame e term in
  let '(e, r4) := WriteTrailer e in
  let '(e, r5) := Encoder_Flush e in
  (e_w e, [r1; r2; r3; r4; r5]).

(** [doDecode]: the header, then three calls of [ReadBlock]: the block
    under test, the terminator frame and the end of the stream. *)
Definition doDecode `{ImageCodec} (data : list Z)
    : outcome ((option Header + error) * list (block + error)) :=
  let hd := ReadHeader (NewDecoder data) in
  '(b1, d) ← ReadBlock (snd hd);
  '(b2, d) ← ReadBlock d;
  '(b3, d) ← ReadBlock d;
  Ret (fst hd, [b1; b2; b3]).

(** The encoding succeeds and decoding gives back the blocks [v'] and
    [term'] and then the end of the stream. *)
Definition round_trip `{ImageCodec} (cfg : Config) (backgroundIndex : Z)
    (v : block) (term : Frame) (v' : block) (term' : Frame) : Prop :=
  exists data hdr,
    doEncode cfg backgroundIndex v term = (data, [None; None; None; None; None]) /\
    doDecode data = Ret (inl (Some hdr), [inl v'; inl (BFrame term'); inr io_EOF]).

(** A delay as the encoder puts it on the wire and the decoder reports it:
    the duration in units of 10 ms, as a [uint16]. *)
Definition delay_units (delayTime : Z) : Z :=
  uint16_of (Z.quot delayTime (10 * time_Millisecond)).

Definition frame_as_decoded `{ImageCodec} (f : Frame) : Frame :=
  mkFrame (f_Image f) (delay_units (f_DelayTime f)) (f_DisposalMethod f).

(** A block with its delay in the decoder's unit. *)
Definition as_decoded `{ImageCodec} (v : block) : block :=
  match v with
  | BFrame f => BFrame (frame_as_decoded f)
  | BPlainText pt =>
      BPlainText (mkPlainText (pt_TextGridLeftPosition pt) (pt_TextGridTopPosition pt)
        (pt_TextGridWidth pt) (pt_TextGridHeight pt)
        (pt_CharacterCellWidth pt) (pt_CharacterCellHeight pt)
        (pt_TextForegroundColorIndex pt) (pt_TextBackgroundColorIndex pt)
        (pt_Strings pt) (delay_units (pt_DelayTime pt)) (pt_DisposalMethod pt))
  | _ => v
  end.

(** Validity by the data model of the specification: strings are ASCII
    and at most 255 bytes long and their list is not empty, sub-blocks are
    at most 255 bytes long, fields fit their wire width, the delay is
    between 0 and 65535 units, the disposal method is one of 0..3. *)
Definition spec_string (s : list Z) : Prop :=
  len s <= 255 /\ Forall (fun b => 0 <= b <= 0x7F) s.
Definition spec_strings (l : list (list Z)) : Prop :=
  l <> [] /\ Forall spec_string l.
Definition spec_sub_blocks (l : list (list Z)) : Prop :=
  Forall (fun sb => len sb <= 255 /\ Forall is_byte sb) l.
Definition spec_delay (delayTime : Z) : Prop :=
  0 <= delayTime /\ Z.quot delayTime (10 * time_Millisecond) <= 65535.
Definition spec_disposal (disposal : Z) : Prop := 0 <= disposal <= 3.

Definition spec_valid `{ImageCodec} (v : block) : Prop :=
  match v with
  | BFrame f => spec_delay (f_DelayTime f) /\ spec_disposal (f_DisposalMethod f)
  | BPlainText pt =>
      is_uint16 (pt_TextGridLeftPosition pt) /\ is_uint16 (pt_TextGridTopPosition pt) /\
      is_uint16 (pt_TextGridWidth pt) /\ is_uint16 (pt_TextGridHeight pt) /\
      is_byte (pt_CharacterCellWidth pt) /\ is_byte (pt_CharacterCellHeight pt) /\
      is_byte (pt_TextForegroundColorIndex pt) /\
      is_byte (pt_TextBackgroundColorIndex pt) /\
      spec_strings (pt_Strings pt) /\
      spec_delay (pt_DelayTime pt) /\ spec_disposal (pt_DisposalMethod pt)
  | BComment c => spec_strings (c_Strings c)
  | BApplicationNetscape an => -1 <= an_LoopCount an /\ spec_sub_blocks (an_SubBlocks an)
  | BUnknownApplication ua =>
      spec_string (ua_Identifier ua) /\ spec_sub_blocks (ua_SubBlocks ua)
  | BUnknownExtension ue => is_byte (ue_Label ue) /\ spec_sub_blocks (ue_SubBlocks ue)
  end.

(** The round-trip property as the specification words it: a valid block
    comes back equal to itself. *)
Definition C1_as_stated `{ImageCodec} (cfg : Config) (backgroundIndex : Z)
    (v : block) (term : Frame) : Prop :=
  spec_valid v -> round_trip cfg backgroundIndex v term v term.

(** Validity for the round trip that the code gives.  Over the data model:
    no string and no sub-block is empty (an empty chunk is the terminator of
    the framing), a string has at most 128 bytes, a loop count is a
    [uint16], an unknown extension does not use a label that the decoder
    knows, an unknown application is not called NETSCAPE2.0, and a disposal
    method fits its three bits. *)
Definition rt_string (s : list Z) : Prop :=
  1 <= len s <= 128 /\ Forall (fun b => 0 <= b <= 0x7F) s.
Definition rt_strings (l : list (list Z)) : Prop :=
  l <> [] /\ Forall rt_string l.
Definition rt_sub_blocks (l : list (list Z)) : Prop :=
  Forall (fun sb => 1 <= len sb <= 255 /\ Forall is_byte sb) l.
Definition rt_delay (delayTime : Z) : Prop := 0 <= delayTime.
Definition rt_disposal (disposal : Z) : Prop := 0 <= disposal <= 7.

(** The image codec does its part for the image of a frame: the image
    passes the validation, its transparent index is a byte, and its image
    block, whatever follows it, decodes to the image. *)
Definition image_round_trip `{ImageCodec} (cfg : Config) (hdr : Header) (m : Img) : Prop :=
  check_image cfg m = None /\
  (forall ti, transparent_of m = Some ti -> is_byte ti) /\
  forall rest, decode_image (Some hdr) (transparent_of m) (encode_image cfg m ++ rest)
               = inl (m, rest).

Definition rt_frame `{ImageCodec} (cfg : Config) (hdr : Header) (f : Frame) : Prop :=
  rt_delay (f_DelayTime f) /\ rt_disposal (f_DisposalMethod f) /\
  image_round_trip cfg hdr (f_Image f).

Definition rt_valid `{ImageCodec} (cfg : Config) (hdr : Header) (v : block) : Prop :=
  match v with
  | BFrame f => rt_frame cfg hdr f
  | BPlainText pt =>
      is_uint16 (pt_TextGridLeftPosition pt) /\ is_uint16 (pt_TextGridTopPosition pt) /\
      is_uint16 (pt_TextGridWidth pt) /\ is_uint16 (pt_TextGridHeight pt) /\
      is_byte (pt_CharacterCellWidth pt) /\ is_byte (pt_CharacterCellHeight pt) /\
      is_byte (pt_TextForegroundColorIndex pt) /\
      is_byte (pt_TextBackgroundColorIndex pt) /\
      rt_strings (pt_Strings pt) /\
      rt_delay (pt_DelayTime pt) /\ rt_disposal (pt_DisposalMethod pt)
  | BComment c => rt_strings (c_Strings c)
  | BApplicationNetscape an =>
      is_uint16 (an_LoopCount an) /\ rt_sub_blocks (an_SubBlocks an)
  | BUnknownApplication ua =>
      len (ua_Identifier ua) <= 128 /\
      Forall (fun b => 0 <= b <= 0x7F) (ua_Identifier ua) /\
      ua_Identifier ua <> bytes_of "NETSCAPE2.0" /\
      rt_sub_blocks (ua_SubBlocks ua)
  | BUnknownExtension ue =>
      is_byte (ue_Label ue) /\
      ue_Label ue <> eText /\ ue_Label ue <> eGraphicControl /\
      ue_Label ue <> eComment /\ ue_Label ue <> eApplication /\
      rt_sub_blocks (ue_SubBlocks ue)
  end.

(** A frame is written with a graphic control extension of its own: its
    delay is at least one unit of 10 ms, its disposal method is not zero, or
    its image has a transparent color. *)
Definition has_graphic_control `{ImageCodec} (f : Frame) : bool :=
  (0 <? Z.quot (f_DelayTime f) (10 * time_Millisecond)) ||
  negb (f_DisposalMethod f =? 0) ||
  bool_decide (transparent_of (f_Image f) <> None).

(** The bytes of a frame: a graphic control extension when there is
    something for it to say, the introducer and the image block. *)
Definition frame_bytes `{ImageCodec} (cfg : Config) (f : Frame) : list Z :=
  let delay := Z.quot (f_DelayTime f) (10 * time_Millisecond) in
  (if has_graphic_control f
   then image_gce (transparent_of (f_Image f)) delay (f_DisposalMethod f)
   else []) ++
  sImageDescriptor :: encode_image cfg (f_Image f).

(** The bytes of a block on the wire. *)
Definition block_bytes `{ImageCodec} (cfg : Config) (v : block) : list Z :=
  match v with
  | BFrame f => frame_bytes cfg f
  | BPlainText pt =>
      (if (pt_DelayTime pt >? 0) || negb (pt_DisposalMethod pt =? 0)
       then plain_text_gce pt else []) ++
      plain_text_head pt ++ frame_chunks (pt_Strings pt)
  | BComment c => [sExtension; eComment] ++ frame_chunks (c_Strings c)
  | BApplicationNetscape an =>
      [sExtension; eApplication; 0x0b] ++ bytes_of "NETSCAPE2.0" ++
      [0x03; 0x01] ++ writeUint16 (uint16_of (an_LoopCount an)) ++
      frame_chunks (an_SubBlocks an)
  | BUnknownApplication ua =>
      [sExtension; eApplication; uint8_of (len (ua_Identifier ua))] ++
      ua_Identifier ua ++ frame_chunks (ua_SubBlocks ua)
  | BUnknownExtension ue =>
      [sExtension; ue_Label ue] ++ frame_chunks (ue_SubBlocks ue)
  end.

(** ** The disposal method that stays pending

    [readImageDescriptor] resets the pending delay and the transparency
    flag and leaves the pending disposal method, [readPlainText] resets all
    three.  So between two blocks the delay and the flag are clear, and the
    disposal method of the last graphic control extension is still pending
    unless a plain text has come since. *)

(** The pending delay and transparency flag are clear. *)
Definition scratch_idle `{ImageCodec} (d : decoder) : Prop :=
  d_delayTime d = 0 /\ d_hasTransparentIndex d = false.

(** [WritePlainText] writes a graphic control extension first. *)
Definition plain_text_has_graphic_control (pt : PlainText) : bool :=
  (pt_DelayTime pt >? 0) || negb (pt_DisposalMethod pt =? 0).

(** A block as [ReadBlock] gives it back when the disposal method [p] is
    pending: the delay in units of 10 ms, and the block's own disposal
    method when it was written with a graphic control extension, else
    [p]. *)
Definition decoded_from `{ImageCodec} (p : Z) (v : block) : block :=
  match v with
  | BFrame f =>
      BFrame (mkFrame (f_Image f) (delay_units (f_DelayTime f))
                (if has_graphic_control f then f_DisposalMethod f else p))
  | BPlainText pt =>
      BPlainText (mkPlainText (pt_TextGridLeftPosition pt) (pt_TextGridTopPosition pt)
        (pt_TextGridWidth pt) (pt_TextGridHeight pt)
        (pt_CharacterCellWidth pt) (pt_CharacterCellHeight pt)
        (pt_TextForegroundColorIndex pt) (pt_TextBackgroundColorIndex pt)
        (pt_Strings pt) (delay_units (pt_DelayTime pt))
        (if plain_text_has_graphic_control pt then pt_DisposalMethod pt else p))
  | _ => v
  end.

(** The disposal method that is pending after the block [v] is read, when
    [p] was pending before. *)
Definition pending_after `{ImageCodec} (p : Z) (v : block) : Z :=
  match v with
  | BFrame f => if has_graphic_control f then f_DisposalMethod f else p
  | BPlainText _ => 0
  | _ => p
  end.

(** The disposal methods of the frames of a stream as the decoder reports
    them, when [p] is pending at its start. *)
Fixpoint disposals_from `{ImageCodec} (p : Z) (blocks : list block) : list Z :=
  match blocks with
  | [] => []
  | v :: vs =>
      match v with
      | BFrame _ => [pending_after p v]
      | _ => []
      end ++ disposals_from (pending_after p v) vs
  end.

(** ** Invariants of the optimizer's loops *)

Section fast_path_invariant.
Variables (P0 M0 : list Z) (t : Z) (stride : Z).

(** Pixel [k] needs no change: it equals the mirror or is already
    transparent. *)
Definition sameL (k : nat) : bool :=
  match P0 !! k, M0 !! k with
  | Some p, Some m => bool_decide (p = m) || bool_decide (p = t)
  | _, _ => true
  end.

(** The state at the head of iteration [i >= 1]: everything before the
    current run [i0, i) is final, the rest is untouched. *)
Record pix_inv (i : Z) (s : pix_state) : Prop := {
  pi_i0 : 0 <= ps_i0 s < i;
  pi_i : i <= len P0 + 1;
  pi_fin : i = len P0 + 1 -> ps_i0 s = len P0;
  pi_x0 : ps_x0 s = ps_i0 s `mod` stride;
  pi_y0 : ps_y0 s = ps_i0 s `div` stride;
  pi_lenP : length (ps_P s) = length P0;
  pi_lenM : length (ps_M s) = length P0;
  pi_P : forall k : nat, ps_P s !! k =
           if decide (Z.of_nat k < ps_i0 s)
           then (if sameL k then Some t else P0 !! k) else P0 !! k;
  pi_M : forall k : nat, ps_M s !! k =
           if decide (Z.of_nat k < ps_i0 s /\ sameL k = false)
           then P0 !! k else M0 !! k;
  pi_run : forall k : nat, ps_i0 s <= Z.of_nat k < i -> (k < length P0)%nat ->
           sameL k = ps_same s;
  pi_xs : exists c, ps_xs s = replicate (S c) t;
  pi_cover : forall k : nat, Z.of_nat k < ps_i0 s -> sameL k = false ->
             image.PtIn (Z.of_nat k `mod` stride) (Z.of_nat k `div` stride) (ps_crop s) = true;
  pi_empty : (forall k : nat, Z.of_nat k < ps_i0 s -> sameL k = true) ->
             ps_crop s = image.ZR
}.

End fast_path_invariant.

Section frame_over_mirror_invariant.
(** A frame with pixels [P0], stride [pstride] and rectangle [prect],
    over a mirror with pixels [M0], stride [mstride] and rectangle
    [mrect]; [t] is the transparent index. *)
Variables (P0 M0 : list Z) (t : Z).
Variables (pstride : Z) (prect : image.Rectangle).
Variables (mstride : Z) (mrect : image.Rectangle).

Local Abbreviation minX := (image.X (image.Min prect)).
Local Abbreviation minY := (image.Y (image.Min prect)).
Local Abbreviation maxX := (image.X (image.Max prect)).
Local Abbreviation maxY := (image.Y (image.Max prect)).

Definition jof (x y : Z) : Z := image.PixOffset pstride prect x y.
Definition iof (x y : Z) : Z := image.PixOffset mstride mrect x y.

(** The frame is a non-empty, well-formed image inside the mirror. *)
Record geometry : Prop := {
  g_w : minX < maxX;
  g_h : minY < maxY;
  g_stride : maxX - minX <= pstride;
  g_lenP : (maxY - minY - 1) * pstride + (maxX - minX) <= len P0;
  g_inX : image.X (image.Min mrect) <= minX /\ maxX <= image.X (image.Max mrect);
  g_inY : image.Y (image.Min mrect) <= minY /\ maxY <= image.Y (image.Max mrect);
  g_mstride : mstride = image.Dx mrect;
  g_lenM : len M0 = image.Dx mrect * image.Dy mrect
}.

(** Pixel [(x, y)] of the frame needs no change. *)
Definition sameXY (x y : Z) : bool :=
  match P0 !! Z.to_nat (jof x y), M0 !! Z.to_nat (iof x y) with
  | Some p, Some m => bool_decide (p = m) || bool_decide (p = t)
  | _, _ => true
  end.

Definition inP (x y : Z) : Prop := image.PtIn x y prect = true.

(** The buffers once the pixels selected by [proc] are processed:
    unchanged pixels are blanked in the frame, changed ones are copied
    to the mirror, everything else is as it was. *)
Record data_inv (proc : Z -> Z -> Prop) (crop : image.Rectangle)
    (P M xs : list Z) : Prop := {
  d_lenP : length P = length P0;
  d_lenM : length M = length M0;
  d_Pin : forall x y, inP x y -> proc x y ->
          P !! Z.to_nat (jof x y) =
          if sameXY x y then Some t else P0 !! Z.to_nat (jof x y);
  d_Pout : forall k : nat,
          (forall x y, inP x y -> proc x y -> jof x y <> Z.of_nat k) ->
          P !! k = P0 !! k;
  d_Min : forall x y, inP x y -> proc x y ->
          M !! Z.to_nat (iof x y) =
          if sameXY x y then M0 !! Z.to_nat (iof x y) else P0 !! Z.to_nat (jof x y);
  d_Mout : forall k : nat,
          (forall x y, inP x y -> proc x y -> iof x y <> Z.of_nat k) ->
          M !! k = M0 !! k;
  d_xs : exists c, xs = replicate (S c) t;
  d_empty : (forall x y, inP x y -> proc x y -> sameXY x y = true) ->
            crop = image.ZR
}.

(** Every processed pixel that changed lies in the crop. *)
Definition covers (proc : Z -> Z -> Prop) (crop : image.Rectangle) : Prop :=
  forall x y, inP x y -> proc x y -> sameXY x y = false ->
  image.PtIn x y crop = true.

(** The pixels of rows before [y], and of row [y] before column [x0]. *)
Definition proc_line (y x0 : Z) (x' y' : Z) : Prop :=
  y' < y \/ (y' = y /\ x' < x0).

(** The state at the head of the iteration for column [x > minX] of row
    [y], where the current run is [x0, x). *)
Record line_inv (y x : Z) (s : line_state) : Prop := {
  li_x0 : minX <= ls_x0 s < x;
  li_x : x <= maxX + 1;
  li_fin : x = maxX + 1 -> ls_x0 s = maxX;
  li_i : ls_i s = iof x y;
  li_j : ls_j s = jof x y;
  li_i0 : ls_i0 s = iof (ls_x0 s) y;
  li_j0 : ls_j0 s = jof (ls_x0 s) y;
  li_run : forall x', ls_x0 s <= x' < x -> x' < maxX -> sameXY x' y = ls_same s;
  li_data : data_inv (proc_line y (ls_x0 s)) (ls_crop s) (ls_P s) (ls_M s) (ls_xs s);
  li_cover : covers (proc_line y (ls_x0 s)) (ls_crop s)
}.

(** The state between two rows: all rows before [y] are processed. *)
Definition rows_inv (y : Z) (s : rows_state) : Prop :=
  data_inv (fun _ y' => y' < y) (rs_crop s) (rs_P s) (rs_M s) (rs_xs s) /\
  covers (fun _ y' => y' < y) (rs_crop s).

End frame_over_mirror_invariant.

(** ** Frames, streams and states the properties are stated on *)

(** The mirror the first call installs for a frame whose pixels are [P0]. *)
Definition first_mirror (pm : image.Paletted) (P0 : list Z) : Mirror :=
  mkMirror (take (Z.to_nat (image.Dx (image.PRect pm) * image.Dy (image.PRect pm))) P0)
           (1 * image.Dx (image.PRect pm)) (image.PRect pm) (image.Palette pm).

(** The optimizer-correctness property as the specification words it, for
    frames [A] and [B] of a heap [h]: drawing [Optimize(B)] over [A] shows
    [B] at every pixel, and a transparent pixel inside the returned crop
    sits where [B] equals [A]. *)
Definition C2_as_stated (t : Z) (h : Heap) (A B : image.Paletted) : Prop :=
  forall o1 ret o2 h',
    Optimize (NewOptimizer t) A h = Ret (inl A, o1, h) ->
    Optimize o1 B h = Ret (inl ret, o2, h') ->
    forall x y, image.PtIn x y (image.PRect B) = true ->
      composite t (pixel h A x y) h' ret x y = pixel h B x y /\
      (image.PtIn x y (image.PRect ret) = true -> pixel h' ret x y = Some t ->
       pixel h B x y = pixel h A x y).

(** Two 3x1 frames at the origin: [A] is [0 0 0], [B] is [1 2 1] with [2]
    the transparent index. *)
Definition cx_heap : Heap := {[ 0%nat := [0; 0; 0]; 1%nat := [1; 2; 1] ]}.
Definition cx_A : image.Paletted :=
  image.mkPaletted (image.mkSlice (Some 0%nat) 0 3) 3 (image.Rect 0 0 3 1) [].
Definition cx_B : image.Paletted :=
  image.mkPaletted (image.mkSlice (Some 1%nat) 0 3) 3 (image.Rect 0 0 3 1) [].

(** A 2x1 frame at the origin that equals the mirror of an optimizer with
    transparent index 2. *)
Definition w_heap : Heap := {[ 0%nat := [5; 6] ]}.
Definition w_frame : image.Paletted :=
  image.mkPaletted (image.mkSlice (Some 0%nat) 0 2) 2 (image.Rect 0 0 2 1) [].
Definition w_mirror : Mirror := mkMirror [5; 6] 2 (image.Rect 0 0 2 1) [].
Definition w_optimizer : Optimizer := mkOptimizer (Some w_mirror) [2].

(** A 2x2 image [1 2 / 3 4] and its left column as a sub-image: the window
    is the whole buffer, the stride stays 2. *)
Definition col_heap : Heap := {[ 0%nat := [1; 2; 3; 4] ]}.
Definition col_frame : image.Paletted :=
  image.mkPaletted (image.mkSlice (Some 0%nat) 0 4) 2 (image.Rect 0 0 1 2) [].

(** Two 2x1 frames with the rectangle (10,10)-(12,11), off the origin:
    [A] is [1 1], [B] is [1 3]; and the optimizer with transparent index 9
    after its first call, on [A]. *)
Definition off_heap : Heap := {[ 0%nat := [1; 1]; 1%nat := [1; 3] ]}.
Definition off_A : image.Paletted :=
  image.mkPaletted (image.mkSlice (Some 0%nat) 0 2) 2 (image.Rect 10 10 12 11) [].
Definition off_B : image.Paletted :=
  image.mkPaletted (image.mkSlice (Some 1%nat) 0 2) 2 (image.Rect 10 10 12 11) [].
Definition off_mirror : Mirror := mkMirror [1; 1] 2 (image.Rect 10 10 12 11) [].
Definition off_optimizer : Optimizer := mkOptimizer (Some off_mirror) [9].

(** A chunk that the framing can carry: between 1 and 255 bytes. *)
Definition chunk_ok (c : list Z) : Prop := 1 <= len c <= 255.

(** What a [ReadBlock] that gives the block [v'] leaves behind: the source
    at [rest], the header kept, the pending delay and transparency flag
    clear, the disposal method [p'] pending, and the queues empty. *)
Definition reads_block `{ImageCodec} (d : decoder) (v' : block) (rest : list Z)
    (p' : Z) : Prop :=
  exists d', ReadBlock d = Ret (inl v', d') /\ d_r d' = rest /\
             d_hdr d' = d_hdr d /\ scratch_idle d' /\ d_disposalMethod d' = p' /\
             queues_empty d'.

(** ** The rest of the API: [Encode], [DecodeFirst], [DecodeConfig] *)

(** [Paletted.Bounds().Max] of the image of a frame, which [Encode] reads
    when it is given no configuration; the image block interface does not
    give it. *)
Class ImageBounds `{ImageCodec} : Type := {
  bounds_Max : Img -> image.Point
}.

(** The one-row images of the stand-in codec: [len] pixels wide, 1 high. *)
#[global] Instance row_bounds : ImageBounds (H := row_codec) := {
  bounds_Max := fun m => image.Pt (len m) 1
}.

(** An [int64], the size of Go's [int] and of [time.Duration], with its
    wrap-around. *)
Definition int64_of (n : Z) : Z := (n + 2 ^ 63) mod 2 ^ 64 - 2 ^ 63.

(** [time.Duration(delay) * 10 * time.Millisecond]. *)
Definition duration_of_delay (delay : Z) : Z :=
  int64_of (int64_of (delay * 10) * time_Millisecond).

(** [g.Config == (image.Config{})]: no color model, width and height 0. *)
Definition Config_is_zero (cfg : Config) : bool :=
  match cfg_ColorModel cfg with
  | NoModel => (cfg_Width cfg =? 0) && (cfg_Height cfg =? 0)
  | _ => false
  end.

(** The configuration a [GIF] holds; the zero value when none was set. *)
Definition GIF_Config `{ImageCodec} (g : GIF) : Config :=
  match g_Config g with
  | Some cfg => cfg
  | None => mkConfig NoModel 0 0
  end.

(** The loop of [Encode] over [g.Image], at index [i]: each image is
    written as a frame with its delay and, when [g.Disposal] is not nil, its
    disposal method. *)
Fixpoint Encode_frames {W} `{Writer W} `{ImageCodec} (e : encoder W)
    (images : list Img) (i : nat) (Delay : list Z) (Disposal : option (list Z))
    : outcome (encoder W * option error) :=
  match images with
  | [] => Ret (e, None)
  | pm :: rest =>
      disposal ← match Disposal with
                 | None => Ret 0
                 | Some l => of_option (l !! i)
                 end;
      delay ← of_option (Delay !! i);
      let '(e, err) := WriteFrame e (mkFrame pm (duration_of_delay delay) disposal) in
      match err with
      | Some err => Ret (e, Some err)
      | None => Encode_frames e rest (S i) Delay Disposal
      end
  end.

(** [Encode].  Go tells a nil [g.Disposal] from an empty one and lists do
    not, so the disposal methods are passed apart: [Disposal = None] is the
    nil slice, and the field [g_Disposal] is not read.  [Encode] fills in
    the width and height of a zero [g.Config] in the caller's [GIF]; the
    [GIF] after the call is returned with the encoder and the error. *)
Definition Encode {W} `{Writer W} `{ImageBounds} (e : encoder W) (g : GIF)
    (Disposal : option (list Z)) : outcome (encoder W * GIF * option error) :=
  if len (g_Image g) =? 0 then
    Ret (e, g, Some (errors_New "gif: must provide at least one image"))
  else if negb (len (g_Image g) =? len (g_Delay g)) then
    Ret (e, g, Some (errors_New "gif: mismatched image and delay lengths"))
  else if match Disposal with
          | Some l => negb (len (g_Image g) =? len l)
          | None => false
          end then
    Ret (e, g, Some (errors_New "gif: mismatched image and disposal lengths"))
  else
    cfg ← (if Config_is_zero (GIF_Config g) then
             pm ← of_option (g_Image g !! 0%nat);
             Ret (mkConfig (cfg_ColorModel (GIF_Config g))
                           (image.X (bounds_Max pm)) (image.Y (bounds_Max pm)))
           else Ret (GIF_Config g));
    let g := mkGIF (g_Image g) (g_Delay g) (g_Disposal g) (Some cfg)
                   (g_BackgroundIndex g) (g_LoopCount g) in
    let '(e, err) := WriteHeader e cfg (g_BackgroundIndex g) in
    match err with
    | Some err => Ret (e, g, Some err)
    | None =>
        let '(e, err) :=
          if (1 <? len (g_Image g)) && (0 <=? g_LoopCount g)
          then WriteApplicationNetscape e (mkApplicationNetscape (g_LoopCount g) [])
          else (e, None) in
        match err with
        | Some err => Ret (e, g, Some err)
        | None =>
            '(e, err) ← Encode_frames e (g_Image g) 0 (g_Delay g) Disposal;
            match err with
            | Some err => Ret (e, g, Some err)
            | None =>
                let '(e, err) := WriteTrailer e in
                match err with
                | Some err => Ret (e, g, Some err)
                | None => let '(e, err) := Encoder_Flush e in Ret (e, g, err)
                end
            end
        end
    end.

(** [DecodeFirst]: the header, then blocks until the first frame, whose
    image is returned; the end of the stream before any frame is an
    error. *)
Fixpoint DecodeFirst_loop `{ImageCodec} (fuel : nat) (d : decoder)
    : outcome ((Img + error) * decoder) :=
  '(r, d) ← ReadBlock d;
  match r with
  | inr err =>
      if is_EOF err then Ret (inr (errors_New "gif: missing image data"), d)
      else Ret (inr err, d)
  | inl (BFrame f) => Ret (inl (f_Image f), d)
  | inl _ =>
      match fuel with
      | O => Diverge
      | S fuel' => DecodeFirst_loop fuel' d
      end
  end.

Definition DecodeFirst `{ImageCodec} (d : decoder) : outcome ((Img + error) * decoder) :=
  match ReadHeader d with
  | (inr err, d) => Ret (inr err, d)
  | (inl _, d) => DecodeFirst_loop (length (d_r d)) d
  end.

(** [DecodeConfig]: the configuration of the header, or its error. *)
Definition DecodeConfig `{ImageCodec} (d : decoder) : (Config + error) * decoder :=
  match ReadHeader d with
  | (inr err, d) => (inr err, d)
  | (inl hdr, d) =>
      (inl (match hdr with
            | Some h => hdr_Config h
            | None => mkConfig NoModel 0 0
            end), d)
  end.

(** ** Streams of blocks *)

(** The bytes of a sequence of blocks, one after the other. *)
Definition stream_bytes `{ImageCodec} (cfg : Config) (blocks : list block) : list Z :=
  concat (map (block_bytes cfg) blocks).

(** The frames of a sequence of blocks, in order. *)
Definition frames_in `{ImageCodec} (blocks : list block) : list Frame :=
  omap (fun b => match b with BFrame f => Some f | _ => None end) blocks.

(** The loop count of the last NETSCAPE2.0 block of a sequence, [-1] when
    there is none. *)
Definition last_loop_count `{ImageCodec} (blocks : list block) : Z :=
  foldl (fun acc b => match b with
                      | BApplicationNetscape an => an_LoopCount an
                      | _ => acc
                      end) (-1) blocks.

(** The frames [Encode] writes for the images, delays and disposal methods
    of a [GIF]. *)
Definition frames_of `{ImageCodec} (images : list Img) (Delay : list Z)
    (Disposal : option (list Z)) : list Frame :=
  zip_with (fun pm dd => mkFrame pm (duration_of_delay (fst dd)) (snd dd)) images
    (zip Delay (match Disposal with
                | None => replicate (length images) 0
                | Some l => l
                end)).

(** The configuration [Encode] writes: the one of the [GIF], with the
    width and height of the first image when it is the zero value. *)
Definition Encode_Config `{ImageBounds} (g : GIF) : Config :=
  if Config_is_zero (GIF_Config g) then
    match g_Image g with
    | pm :: _ => mkConfig (cfg_ColorModel (GIF_Config g))
                          (image.X (bounds_Max pm)) (image.Y (bounds_Max pm))
    | [] => GIF_Config g
    end
  else GIF_Config g.

(** The blocks [Encode] writes between the header and the trailer: the
    NETSCAPE2.0 block when the animation has more than one image and a loop
    count that is not negative, then one frame for each image. *)
Definition Encode_blocks `{ImageCodec} (g : GIF) (Disposal : option (list Z)) : list block :=
  (if (1 <? len (g_Image g)) && (0 <=? g_LoopCount g)
   then [BApplicationNetscape (mkApplicationNetscape (g_LoopCount g) [])]
   else []) ++
  map BFrame (frames_of (g_Image g) (g_Delay g) Disposal).

(** The image block decoder never hands back more bytes than it was
    given. *)
Definition codec_no_growth `{ImageCodec} : Prop :=
  forall hdr ti r m rest,
    decode_image hdr ti r = inl (m, rest) -> (length rest <= length r)%nat.

(** The source after a read is never longer than before. *)
Definition no_longer `{ImageCodec} (d d' : decoder) : Prop :=
  (length (d_r d') <= length (d_r d))%nat.

(** * Properties *)

(** Reduce a bind whose first computation has returned. *)
Ltac go_ret := cbn [mbind outcome_bind].

(** ** Byte slices *)

Lemma len_nonneg {A} (l : list A) : 0 <= len l.
Proof. unfold len. lia. Qed.

Lemma index_lookup (l : list Z) (k : nat) (v : Z) :
  l !! k = Some v -> index l (Z.of_nat k) = Ret v.
Proof.
  intros H. unfold index, len.
  pose proof (lookup_lt_Some _ _ _ H).
  rewrite Nat2Z.id, H.
  destruct (0 <=? Z.of_nat k) eqn:E1; [|lia].
  destruct (Z.of_nat k <? Z.of_nat (length l)) eqn:E2; [done|lia].
Qed.

Lemma index_Z (l : list Z) (i : Z) (v : Z) :
  0 <= i -> l !! Z.to_nat i = Some v -> index l i = Ret v.
Proof.
  intros Hi H. rewrite <- (Z2Nat.id i) by done. by apply index_lookup.
Qed.

Lemma index_inv (l : list Z) (i v : Z) :
  index l i = Ret v -> 0 <= i < len l /\ l !! Z.to_nat i = Some v.
Proof.
  unfold index. destruct (0 <=? i) eqn:E1; [|done].
  destruct (i <? len l) eqn:E2; [|done]. simpl.
  destruct (l !! Z.to_nat i) eqn:E; [|done]. simpl.
  intros [= ->]. split; [lia|done].
Qed.

Lemma copy_range_spec (dst : list Z) (lo hi : Z) (src : list Z) :
  0 <= lo <= hi -> hi <= len dst -> hi - lo <= len src ->
  exists dst', copy_range dst lo hi src = Ret dst' /\
    length dst' = length dst /\
    forall k : nat, dst' !! k =
      if decide (lo <= Z.of_nat k < hi) then src !! (k - Z.to_nat lo)%nat
      else dst !! k.
Proof.
  unfold len. intros Hlo Hhi Hsrc. unfold copy_range, len.
  destruct (0 <=? lo) eqn:E1; [|lia].
  destruct (lo <=? hi) eqn:E2; [|lia].
  destruct (hi <=? Z.of_nat (length dst)) eqn:E3; [|lia]. simpl.
  eexists. split; [done|].
  replace (Nat.min (Z.to_nat (hi - lo)) (length src)) with (Z.to_nat (hi - lo)) by lia.
  split.
  - rewrite !length_app, !length_take, length_drop. lia.
  - intros k. case_decide as Hk.
    + rewrite lookup_app_r; rewrite length_take; [|lia].
      rewrite lookup_app_l; [|rewrite length_take; lia].
      rewrite lookup_take_lt by lia. f_equal. lia.
    + destruct (decide (Z.of_nat k < lo)).
      * rewrite lookup_app_l; [|rewrite length_take; lia].
        rewrite lookup_take_lt by lia. done.
      * rewrite lookup_app_r; rewrite length_take; [|lia].
        rewrite lookup_app_r; rewrite length_take; [|lia].
        rewrite lookup_drop. f_equal. lia.
Qed.

Lemma slice_range_spec (src : list Z) (lo hi : Z) :
  0 <= lo <= hi -> hi <= len src ->
  exists l, slice_range src lo hi = Ret l /\
    length l = Z.to_nat (hi - lo) /\
    forall k : nat, (k < Z.to_nat (hi - lo))%nat -> l !! k = src !! (Z.to_nat lo + k)%nat.
Proof.
  unfold len. intros Hlo Hhi. unfold slice_range, len.
  destruct (0 <=? lo) eqn:E1; [|lia].
  destruct (lo <=? hi) eqn:E2; [|lia].
  destruct (hi <=? Z.of_nat (length src)) eqn:E3; [|lia]. simpl.
  eexists. split; [done|]. split.
  - rewrite length_take, length_drop. lia.
  - intros k Hk. rewrite lookup_take_lt by done. by rewrite lookup_drop.
Qed.

(** ** The scratch vector [xs] *)

Lemma grow_replicate (t : Z) (fuel : nat) : forall (c : nat) (n : Z),
  n <= Z.of_nat (S c) + Z.of_nat fuel ->
  exists c', grow fuel (replicate (S c) t) n = Ret (replicate (S c') t) /\
             n <= Z.of_nat (S c') /\ (c <= c')%nat.
Proof.
  induction fuel as [|fuel IH]; intros c n Hn; cbn [grow].
  - unfold len. rewrite length_replicate.
    destruct (Z.of_nat (S c) <? n) eqn:E; [exfalso; lia|]. exists c. split; [done|lia].
  - unfold len. rewrite length_replicate.
    destruct (Z.of_nat (S c) <? n) eqn:E.
    + rewrite <- replicate_add.
      replace (S c + S c)%nat with (S (c + S c)) by lia.
      destruct (IH (c + S c)%nat n) as (c' & -> & ? & ?); [lia|].
      exists c'. split; [done|lia].
    + exists c. split; [done|lia].
Qed.

Lemma same_pixel_val (P M : list Z) (t : Z) (c : nat) (j i : nat) (p m : Z) :
  P !! j = Some p -> M !! i = Some m ->
  same_pixel P M (replicate (S c) t) (Z.of_nat j) (Z.of_nat i)
  = Ret (bool_decide (p = m) || bool_decide (p = t)).
Proof.
  intros HP HM. unfold same_pixel.
  rewrite (index_lookup _ _ _ HP). simpl.
  rewrite (index_lookup _ _ _ HM). simpl.
  case_bool_decide; [done|]. simpl. done.
Qed.

(** ** Rectangles *)

Lemma PtIn_nonempty (x y : Z) (r : image.Rectangle) :
  image.PtIn x y r = true -> image.Empty r = false.
Proof. unfold image.PtIn, image.Empty. lia. Qed.

Lemma PtIn_add_crop (x y : Z) (crop r : image.Rectangle) :
  image.PtIn x y crop = true \/ image.PtIn x y r = true ->
  image.PtIn x y (add_crop crop r) = true.
Proof.
  intros H. unfold add_crop, image.Union.
  destruct (image.Empty crop) eqn:Ec.
  - destruct H as [H|H]; [|done]. apply PtIn_nonempty in H. congruence.
  - destruct (image.Empty r) eqn:Er.
    + destruct H as [H|H]; [done|]. apply PtIn_nonempty in H. congruence.
    + unfold image.PtIn, image.Empty in *. simpl. lia.
Qed.

Lemma add_crop_nonempty (crop r : image.Rectangle) :
  image.Empty r = false -> image.Empty (add_crop crop r) = false.
Proof.
  intros Hr. unfold add_crop, image.Union.
  destruct (image.Empty crop) eqn:Ec; [done|]. rewrite Hr.
  unfold image.Empty in *. simpl. lia.
Qed.

Lemma PtIn_Rect (x y x0 y0 x1 y1 : Z) :
  x0 <= x1 -> y0 <= y1 ->
  image.PtIn x y (image.Rect x0 y0 x1 y1) =
  (x0 <=? x) && (x <? x1) && (y0 <=? y) && (y <? y1).
Proof.
  intros Hx Hy. unfold image.Rect.
  destruct (x1 <? x0) eqn:E1; [lia|]. destruct (y1 <? y0) eqn:E2; [lia|]. done.
Qed.

(** ** The fast path [optimizeByPix] *)

Section fast_path.
Variables (P0 M0 : list Z) (t : Z) (stride : Z).
Hypothesis Hstride : 0 < stride.
Hypothesis HlenM : length M0 = length P0.

Local Abbreviation sameL := (sameL P0 M0 t).
Local Abbreviation pix_inv := (pix_inv P0 M0 t stride).
Local Abbreviation pi_lenP := (pi_lenP P0 M0 t stride).


Lemma sameL_pixel (s : pix_state) (i : nat) :
  pix_inv (Z.of_nat i) s \/ (i = 0%nat /\ ps_P s = P0 /\ ps_M s = M0 /\
                             exists c, ps_xs s = replicate (S c) t) ->
  (i < length P0)%nat ->
  same_pixel (ps_P s) (ps_M s) (ps_xs s) (Z.of_nat i) (Z.of_nat i) = Ret (sameL i).
Proof.
  intros Hinv Hi.
  destruct (lookup_lt_is_Some_2 P0 i Hi) as [p Hp].
  destruct (lookup_lt_is_Some_2 M0 i) as [m Hm]; [lia|].
  assert (ps_P s !! i = Some p /\ ps_M s !! i = Some m /\
          exists c, ps_xs s = replicate (S c) t) as (HP & HM & [c Hxs]).
  { destruct Hinv as [Hinv|(-> & -> & -> & Hxs)]; [|done].
    destruct Hinv. split_and!; [| |done].
    - rewrite pi_P0. case_decide; [lia|done].
    - rewrite pi_M0. case_decide; [lia|done]. }
  rewrite Hxs, (same_pixel_val _ _ _ _ _ _ _ _ HP HM).
  unfold sameL. by rewrite Hp, Hm.
Qed.
Lemma run_in_rect (i0 i k : Z) :
  0 <= i0 <= k -> k < i ->
  image.PtIn (k `mod` stride) (k `div` stride)
    (if i0 `div` stride <? Z.quot i stride
     then image.Rect 0 (i0 `div` stride) stride (Z.quot i stride + 1)
     else image.Rect (i0 `mod` stride) (i0 `div` stride) (Z.rem i stride)
                     (Z.quot i stride + 1)) = true.
Proof.
  intros H0 Hk.
  rewrite Z.quot_div_nonneg, Z.rem_mod_nonneg by lia.
  assert (i0 `div` stride <= k `div` stride) by (apply Z.div_le_mono; lia).
  assert (k `div` stride <= i `div` stride) by (apply Z.div_le_mono; lia).
  pose proof (Z.mod_pos_bound k stride Hstride).
  pose proof (Z.mod_pos_bound i stride Hstride).
  pose proof (Z.mod_pos_bound i0 stride Hstride).
  pose proof (Z.div_mod k stride ltac:(lia)).
  pose proof (Z.div_mod i stride ltac:(lia)).
  pose proof (Z.div_mod i0 stride ltac:(lia)).
  destruct (i0 `div` stride <? i `div` stride) eqn:E.
  - rewrite PtIn_Rect by lia. lia.
  - assert (i0 `div` stride = i `div` stride) as Heq by lia.
    assert (k `div` stride = i `div` stride) as Heq' by lia.
    rewrite PtIn_Rect by (rewrite ?Heq in *; nia).
    rewrite Heq, Heq' in *. nia.
Qed.

Lemma pix_close_inv (i : nat) (s : pix_state) :
  (1 <= i <= length P0)%nat ->
  pix_inv (Z.of_nat i) s ->
  ((i < length P0)%nat -> sameL i = negb (ps_same s)) ->
  exists s', pix_close stride (Z.of_nat i) s = Ret s' /\ pix_inv (Z.of_nat i + 1) s'.
Proof.
  intros Hi Hinv Hnext.
  destruct s as [crop same i0 x0 y0 P M xs]. destruct Hinv; simpl in *.
  destruct pi_xs0 as [c ->]. subst x0 y0.
  unfold pix_close. destruct (stride =? 0) eqn:E0; [lia|]. clear E0.
  change (t :: replicate c t) with (replicate (S c) t).
  destruct same.
  - (* a run of unchanged pixels *)
    destruct (grow_replicate t (Z.to_nat (Z.of_nat i - i0)) c (Z.of_nat i - i0))
      as (c' & -> & Hc' & _); [lia|]. go_ret.
    destruct (slice_range_spec (replicate (S c') t) 0 (Z.of_nat i - i0))
      as (src & -> & Hlsrc & Hsrc);
      [lia|unfold len; rewrite length_replicate; lia|]. go_ret.
    destruct (copy_range_spec P i0 (Z.of_nat i) src)
      as (P' & -> & HlP' & HP'); [lia|unfold len; lia|unfold len; lia|]. go_ret.
    eexists. split; [done|].
    constructor; simpl.
    + lia.
    + unfold len. lia.
    + unfold len. lia.
    + apply Z.rem_mod_nonneg; lia.
    + apply Z.quot_div_nonneg; lia.
    + lia.
    + done.
    + intros k. rewrite HP', pi_P0.
      destruct (decide (i0 <= Z.of_nat k < Z.of_nat i)) as [Hk|Hk].
      * rewrite Hsrc by lia.
        rewrite lookup_replicate_2 by lia.
        rewrite decide_True by lia.
        rewrite (pi_run0 k) by lia. done.
      * destruct (decide (Z.of_nat k < i0)).
        -- rewrite decide_True by lia. done.
        -- rewrite decide_False by lia. done.
    + intros k. rewrite pi_M0.
      destruct (decide (Z.of_nat k < i0 /\ sameL k = false)) as [Hk|Hk].
      * rewrite decide_True by (split; [lia|tauto]). done.
      * rewrite decide_False; [done|].
        intros [Hk1 Hk2]. apply Hk. split; [|done].
        destruct (decide (Z.of_nat k < i0)); [done|].
        rewrite (pi_run0 k) in Hk2 by lia. done.
    + intros k Hk Hkl. assert (k = i) as -> by lia. by apply Hnext.
    + eauto.
    + intros k Hk Hs. apply pi_cover0; [|done].
      destruct (decide (Z.of_nat k < i0)); [done|].
      rewrite (pi_run0 k) in Hs by lia. done.
    + intros Hall. apply pi_empty0. intros k Hk. apply Hall. lia.
  - (* a run of changed pixels *)
    destruct (slice_range_spec P i0 (Z.of_nat i))
      as (src & -> & Hlsrc & Hsrc); [lia|unfold len; lia|]. go_ret.
    destruct (copy_range_spec M i0 (Z.of_nat i) src)
      as (M' & -> & HlM' & HM'); [lia|unfold len; lia|unfold len; lia|]. go_ret.
    eexists. split; [done|].
    constructor; simpl.
    + lia.
    + unfold len. lia.
    + unfold len. lia.
    + apply Z.rem_mod_nonneg; lia.
    + apply Z.quot_div_nonneg; lia.
    + done.
    + lia.
    + intros k. rewrite pi_P0.
      destruct (decide (Z.of_nat k < i0)).
      * rewrite decide_True by lia. done.
      * destruct (decide (Z.of_nat k < Z.of_nat i)); [|done].
        rewrite (pi_run0 k) by lia. done.
    + intros k. rewrite HM', pi_M0.
      destruct (decide (i0 <= Z.of_nat k < Z.of_nat i)) as [Hk|Hk].
      * rewrite Hsrc by lia.
        replace (Z.to_nat i0 + (k - Z.to_nat i0))%nat with k by lia.
        rewrite pi_P0. rewrite decide_False by lia.
        rewrite decide_True; [done|].
        split; [lia|]. apply pi_run0; lia.
      * destruct (decide (Z.of_nat k < i0 /\ sameL k = false)) as [Hk'|Hk'].
        -- rewrite decide_True by (split; [lia|tauto]). done.
        -- rewrite decide_False; [done|]. intros [? ?]. apply Hk'. split; [lia|done].
    + intros k Hk Hkl. assert (k = i) as -> by lia. by apply Hnext.
    + eauto.
    + intros k Hk Hs. apply PtIn_add_crop.
      destruct (decide (Z.of_nat k < i0)).
      * left. by apply pi_cover0.
      * right. apply run_in_rect; lia.
    + intros Hall. exfalso.
      specialize (Hall (Z.to_nat i0) ltac:(lia)).
      rewrite (pi_run0 (Z.to_nat i0)) in Hall by lia. done.
Qed.

Lemma pix_step_inv (i : nat) (s : pix_state) :
  (1 <= i <= length P0)%nat ->
  pix_inv (Z.of_nat i) s ->
  exists s', pix_step stride (Z.of_nat i) s = Ret s' /\ pix_inv (Z.of_nat i + 1) s'.
Proof.
  intros Hi Hinv. unfold pix_step.
  destruct (Z.of_nat i =? 0) eqn:E0; [lia|]. clear E0.
  unfold len at 1. rewrite (pi_lenP _ _ Hinv).
  destruct (Z.of_nat i =? Z.of_nat (length P0)) eqn:Elast.
  - go_ret. apply pix_close_inv; [done|done|lia].
  - rewrite (sameL_pixel s i) by (auto || lia). go_ret.
    destruct (eqb (sameL i) (ps_same s)) eqn:Eturn; cbn [negb].
    + apply eqb_prop in Eturn. exists s. split; [done|].
      destruct Hinv. constructor; try done; try (unfold len; lia).
      intros k Hk Hkl. destruct (decide (k = i)) as [->|]; [done|].
      apply pi_run0; lia.
    + apply pix_close_inv; [done|done|]. intros _.
      apply eqb_false_iff in Eturn. by destruct (sameL i), (ps_same s).
Qed.

Lemma pix_loop_inv (fuel : nat) : forall (i : nat) (s : pix_state),
  (1 <= i)%nat -> (i + fuel = length P0 + 1)%nat ->
  pix_inv (Z.of_nat i) s ->
  exists s', pix_loop fuel stride (Z.of_nat i) s = Ret s' /\ pix_inv (len P0 + 1) s'.
Proof.
  induction fuel as [|fuel IH]; intros i s Hi Hfuel Hinv; cbn [pix_loop].
  - exists s. split; [done|]. replace (len P0 + 1) with (Z.of_nat i); [done|].
    unfold len. lia.
  - destruct (pix_step_inv i s) as (s1 & -> & Hinv1); [lia|done|]. go_ret.
    replace (Z.of_nat i + 1) with (Z.of_nat (S i)) in * by lia.
    apply IH; [lia|lia|done].
Qed.

(** The fast path on a non-empty buffer: every pixel that equals the
    mirror or is transparent is blanked, every other pixel is copied to
    the mirror and lies in the crop. *)
Lemma optimizeByPix_inv (c : nat) :
  (0 < length P0)%nat ->
  exists s', optimizeByPix stride P0 M0 (replicate (S c) t) = Ret s' /\
             pix_inv (len P0 + 1) s'.
Proof.
  intros Hlen. unfold optimizeByPix. cbn [pix_loop].
  unfold pix_step at 1. change (0 =? 0) with true.
  pose proof (sameL_pixel (mkPixState image.ZR false 0 0 0 P0 M0 (replicate (S c) t)) 0)
    as H0.
  change (Z.of_nat 0) with 0 in H0. rewrite H0 by (eauto 10 || lia). clear H0.
  go_ret. cbn [ps_crop ps_i0 ps_x0 ps_y0 ps_P ps_M ps_xs].
  apply (pix_loop_inv (length P0) 1); [lia|lia|].
  constructor; cbn [ps_crop ps_same ps_i0 ps_x0 ps_y0 ps_P ps_M ps_xs].
  - lia.
  - unfold len. lia.
  - unfold len. lia.
  - by rewrite Z.mod_0_l by lia.
  - by rewrite Z.div_0_l by lia.
  - done.
  - done.
  - intros k. rewrite decide_False by lia. done.
  - intros k. rewrite decide_False by lia. done.
  - intros k Hk _. by assert (k = 0%nat) as -> by lia.
  - eauto.
  - intros k Hk. lia.
  - done.
Qed.
End fast_path.

(** ** The general path [optimizeByLine] *)

Lemma same_pixel_Z (P M : list Z) (t : Z) (c : nat) (j i p m : Z) :
  0 <= j -> 0 <= i ->
  P !! Z.to_nat j = Some p -> M !! Z.to_nat i = Some m ->
  same_pixel P M (replicate (S c) t) j i
  = Ret (bool_decide (p = m) || bool_decide (p = t)).
Proof.
  intros Hj Hi HP HM.
  rewrite <- (Z2Nat.id j), <- (Z2Nat.id i) by done.
  by apply same_pixel_val.
Qed.

Section frame_over_mirror.
(** A frame with pixels [P0], stride [pstride] and rectangle [prect],
    over a mirror with pixels [M0], stride [mstride] and rectangle
    [mrect]; [t] is the transparent index. *)
Variables (P0 M0 : list Z) (t : Z).
Variables (pstride : Z) (prect : image.Rectangle).
Variables (mstride : Z) (mrect : image.Rectangle).

Local Abbreviation minX := (image.X (image.Min prect)).
Local Abbreviation minY := (image.Y (image.Min prect)).
Local Abbreviation maxX := (image.X (image.Max prect)).
Local Abbreviation maxY := (image.Y (image.Max prect)).

Local Abbreviation jof := (jof pstride prect).
Local Abbreviation iof := (iof mstride mrect).
Local Abbreviation geometry := (geometry P0 M0 pstride prect mstride mrect).
Local Abbreviation g_w := (g_w P0 M0 pstride prect mstride mrect).
Local Abbreviation g_h := (g_h P0 M0 pstride prect mstride mrect).
Local Abbreviation g_stride := (g_stride P0 M0 pstride prect mstride mrect).
Local Abbreviation g_mstride := (g_mstride P0 M0 pstride prect mstride mrect).
Local Abbreviation sameXY := (sameXY P0 M0 t pstride prect mstride mrect).
Local Abbreviation inP := (inP prect).
Local Abbreviation data_inv := (data_inv P0 M0 t pstride prect mstride mrect).
Local Abbreviation d_lenP := (d_lenP P0 M0 t pstride prect mstride mrect).
Local Abbreviation d_lenM := (d_lenM P0 M0 t pstride prect mstride mrect).
Local Abbreviation d_Pout := (d_Pout P0 M0 t pstride prect mstride mrect).
Local Abbreviation d_Mout := (d_Mout P0 M0 t pstride prect mstride mrect).
Local Abbreviation d_xs := (d_xs P0 M0 t pstride prect mstride mrect).
Local Abbreviation covers := (covers P0 M0 t pstride prect mstride mrect).
Local Abbreviation line_inv := (line_inv P0 M0 t pstride prect mstride mrect).
Local Abbreviation li_x0 := (li_x0 P0 M0 t pstride prect mstride mrect).
Local Abbreviation li_i := (li_i P0 M0 t pstride prect mstride mrect).
Local Abbreviation li_j := (li_j P0 M0 t pstride prect mstride mrect).
Local Abbreviation li_data := (li_data P0 M0 t pstride prect mstride mrect).
Local Abbreviation rows_inv := (rows_inv P0 M0 t pstride prect mstride mrect).

Hypothesis Hgeo : geometry.

Lemma inP_bounds (x y : Z) :
  inP x y <-> minX <= x < maxX /\ minY <= y < maxY.
Proof. unfold inP, image.PtIn. lia. Qed.

Lemma jof_bounds (x y : Z) : inP x y -> 0 <= jof x y < len P0.
Proof.
  intros Hxy%inP_bounds. destruct Hgeo. unfold jof, image.PixOffset. nia.
Qed.

Lemma iof_bounds (x y : Z) : inP x y -> 0 <= iof x y < len M0.
Proof.
  intros Hxy%inP_bounds. destruct Hgeo as [? ? ? ? ? ? Hms HlM].
  unfold iof, image.PixOffset.
  rewrite HlM, Hms. unfold image.Dx, image.Dy in *. nia.
Qed.

Lemma jof_inj (x y x' y' : Z) :
  inP x y -> inP x' y' -> jof x y = jof x' y' -> x = x' /\ y = y'.
Proof.
  intros H1%inP_bounds H2%inP_bounds. destruct Hgeo.
  unfold jof, image.PixOffset. intros Heq.
  assert (y = y') by nia. subst. split; [nia|done].
Qed.

Lemma iof_inj (x y x' y' : Z) :
  inP x y -> inP x' y' -> iof x y = iof x' y' -> x = x' /\ y = y'.
Proof.
  intros H1%inP_bounds H2%inP_bounds. destruct Hgeo as [? ? ? ? ? ? Hms ?].
  unfold iof, image.PixOffset. rewrite Hms. unfold image.Dx. intros Heq.
  assert (y = y') by nia. subst. split; [nia|done].
Qed.

Lemma jof_shift (x x' y : Z) : jof x' y = jof x y + (x' - x).
Proof. unfold jof, image.PixOffset. lia. Qed.

Lemma iof_shift (x x' y : Z) : iof x' y = iof x y + (x' - x).
Proof. unfold iof, image.PixOffset. lia. Qed.

Lemma data_inv_ext (proc proc' : Z -> Z -> Prop) crop P M xs :
  (forall x y, inP x y -> proc x y <-> proc' x y) ->
  data_inv proc crop P M xs -> data_inv proc' crop P M xs.
Proof.
  intros Hext [? ? HPin HPout HMin HMout ? Hempty].
  constructor; try done.
  - intros x y Hin Hp. apply HPin; [done|]. by apply Hext.
  - intros k Hk. apply HPout. intros x y Hin Hp. apply Hk; [done|]. by apply Hext.
  - intros x y Hin Hp. apply HMin; [done|]. by apply Hext.
  - intros k Hk. apply HMout. intros x y Hin Hp. apply Hk; [done|]. by apply Hext.
  - intros Hall. apply Hempty. intros x y Hin Hp. apply Hall; [done|]. by apply Hext.
Qed.

Lemma covers_ext (proc proc' : Z -> Z -> Prop) crop :
  (forall x y, inP x y -> proc x y <-> proc' x y) ->
  covers proc crop -> covers proc' crop.
Proof.
  intros Hext Hc x y Hin Hp. apply Hc; [done|]. by apply Hext.
Qed.

(** A pixel not yet processed still has its original value, in the frame
    and in the mirror. *)
Lemma data_P_fresh proc crop P M xs (x y : Z) :
  data_inv proc crop P M xs -> inP x y -> ~ proc x y ->
  P !! Z.to_nat (jof x y) = P0 !! Z.to_nat (jof x y).
Proof.
  intros Hd Hin Hnp. apply (d_Pout _ _ _ _ _ Hd).
  intros x' y' Hin' Hp' Heq.
  pose proof (jof_bounds x y Hin).
  rewrite Z2Nat.id in Heq by lia.
  apply jof_inj in Heq as [-> ->]; done.
Qed.

Lemma data_M_fresh proc crop P M xs (x y : Z) :
  data_inv proc crop P M xs -> inP x y -> ~ proc x y ->
  M !! Z.to_nat (iof x y) = M0 !! Z.to_nat (iof x y).
Proof.
  intros Hd Hin Hnp. apply (d_Mout _ _ _ _ _ Hd).
  intros x' y' Hin' Hp' Heq.
  pose proof (iof_bounds x y Hin).
  rewrite Z2Nat.id in Heq by lia.
  apply iof_inj in Heq as [-> ->]; done.
Qed.

Lemma same_pixel_fresh proc crop P M xs (x y : Z) :
  data_inv proc crop P M xs -> inP x y -> ~ proc x y ->
  same_pixel P M xs (jof x y) (iof x y) = Ret (sameXY x y).
Proof.
  intros Hd Hin Hnp.
  pose proof (jof_bounds x y Hin) as Hj. pose proof (iof_bounds x y Hin) as Hi.
  destruct (lookup_lt_is_Some_2 P0 (Z.to_nat (jof x y))) as [p Hp];
    [unfold len in Hj; lia|].
  destruct (lookup_lt_is_Some_2 M0 (Z.to_nat (iof x y))) as [m Hm];
    [unfold len in Hi; lia|].
  destruct (d_xs _ _ _ _ _ Hd) as [c ->].
  rewrite (same_pixel_Z P M t c _ _ p m); [|lia|lia| |].
  - unfold sameXY. by rewrite Hp, Hm.
  - by rewrite (data_P_fresh _ _ _ _ _ _ _ Hd).
  - by rewrite (data_M_fresh _ _ _ _ _ _ _ Hd).
Qed.

(** Closing a run of unchanged pixels [x0, x) of row [y]. *)
Lemma data_close_same proc crop P M xs xs' (y x0 x : Z) (P' : list Z) :
  data_inv proc crop P M xs ->
  minY <= y < maxY -> minX <= x0 -> x0 < x -> x <= maxX ->
  (forall x', x0 <= x' < x -> ~ proc x' y) ->
  (forall x', x0 <= x' < x -> sameXY x' y = true) ->
  length P' = length P ->
  (forall k : nat, P' !! k =
     if decide (jof x0 y <= Z.of_nat k < jof x y) then Some t else P !! k) ->
  (exists c, xs' = replicate (S c) t) ->
  data_inv (fun x' y' => proc x' y' \/ (y' = y /\ x0 <= x' < x)) crop P' M xs'.
Proof.
  intros Hd Hy Hx0 Hx Hxm Hfresh Hsame HlP' HP' Hxs'.
  pose proof Hd as [HlP HlM HPin HPout HMin HMout _ Hempty].
  assert (Hrun : forall x', x0 <= x' < x -> inP x' y).
  { intros x' Hx'. apply inP_bounds. lia. }
  constructor; try done; try lia.
  - intros x' y' Hin [Hp|[-> Hr]].
    + rewrite HP'. rewrite decide_False; [by apply HPin|].
      pose proof (jof_bounds x' y' Hin). rewrite Z2Nat.id by lia.
      intros Hk.
      assert (jof x' y' = jof (x0 + (jof x' y' - jof x0 y)) y) as Heq.
      { rewrite (jof_shift x0 _ y). lia. }
      rewrite (jof_shift x0 x y) in Hk.
      apply jof_inj in Heq as [Hxe ->]; [|done|apply Hrun; lia].
      apply (Hfresh x'); [lia|done].
    + rewrite HP', (Hsame _ Hr). rewrite decide_True; [done|].
      pose proof (jof_bounds x' y Hin). rewrite Z2Nat.id by lia.
      rewrite (jof_shift x0 x' y), (jof_shift x0 x y). lia.
  - intros k Hk. rewrite HP'. rewrite decide_False.
    + apply HPout. intros x' y' Hin Hp. apply Hk; auto.
    + intros Hr. rewrite (jof_shift x0 x y) in Hr.
      apply (Hk (x0 + (Z.of_nat k - jof x0 y)) y).
      * apply Hrun. lia.
      * right. lia.
      * rewrite (jof_shift x0 _ y). lia.
  - intros x' y' Hin [Hp|[-> Hr]].
    + by apply HMin.
    + rewrite (Hsame _ Hr). eapply data_M_fresh; eauto.
  - intros k Hk. apply HMout. intros x' y' Hin Hp. apply Hk; auto.
  - intros Hall. apply Hempty. intros x' y' Hin Hp. apply Hall; auto.
Qed.

(** Closing a run of changed pixels [x0, x) of row [y]. *)
Lemma data_close_diff proc crop P M xs (y x0 x : Z) (M' : list Z)
    (r : image.Rectangle) :
  data_inv proc crop P M xs ->
  minY <= y < maxY -> minX <= x0 -> x0 < x -> x <= maxX ->
  (forall x', x0 <= x' < x -> ~ proc x' y) ->
  (forall x', x0 <= x' < x -> sameXY x' y = false) ->
  length M' = length M ->
  (forall k : nat, M' !! k =
     if decide (iof x0 y <= Z.of_nat k < iof x y)
     then P !! (Z.to_nat (jof x0 y) + (k - Z.to_nat (iof x0 y)))%nat
     else M !! k) ->
  data_inv (fun x' y' => proc x' y' \/ (y' = y /\ x0 <= x' < x))
           (add_crop crop r) P M' xs.
Proof.
  intros Hd Hy Hx0 Hx Hxm Hfresh Hdiff HlM' HM'.
  pose proof Hd as [HlP HlM HPin HPout HMin HMout Hxs Hempty].
  assert (Hrun : forall x', x0 <= x' < x -> inP x' y).
  { intros x' Hx'. apply inP_bounds. lia. }
  constructor; try done; try lia.
  - intros x' y' Hin [Hp|[-> Hr]].
    + by apply HPin.
    + rewrite (Hdiff _ Hr). eapply data_P_fresh; eauto.
  - intros k Hk. apply HPout. intros x' y' Hin Hp. apply Hk; auto.
  - intros x' y' Hin [Hp|[-> Hr]].
    + rewrite HM'. rewrite decide_False; [by apply HMin|].
      pose proof (iof_bounds x' y' Hin). rewrite Z2Nat.id by lia.
      intros Hk.
      assert (iof x' y' = iof (x0 + (iof x' y' - iof x0 y)) y) as Heq.
      { rewrite (iof_shift x0 _ y). lia. }
      rewrite (iof_shift x0 x y) in Hk.
      apply iof_inj in Heq as [Hxe ->]; [|done|apply Hrun; lia].
      apply (Hfresh x'); [lia|done].
    + rewrite HM', (Hdiff _ Hr).
      pose proof (iof_bounds x' y Hin). pose proof (iof_bounds x0 y (Hrun x0 ltac:(lia))).
      pose proof (jof_bounds x' y Hin). pose proof (jof_bounds x0 y (Hrun x0 ltac:(lia))).
      rewrite decide_True.
      2:{ rewrite Z2Nat.id by lia. rewrite (iof_shift x0 x' y), (iof_shift x0 x y). lia. }
      replace (Z.to_nat (jof x0 y) + (Z.to_nat (iof x' y) - Z.to_nat (iof x0 y)))%nat
        with (Z.to_nat (jof x' y)).
      2:{ rewrite (iof_shift x0 x' y), (jof_shift x0 x' y). lia. }
      eapply data_P_fresh; eauto.
  - intros k Hk. rewrite HM'. rewrite decide_False.
    + apply HMout. intros x' y' Hin Hp. apply Hk; auto.
    + intros Hr. rewrite (iof_shift x0 x y) in Hr.
      apply (Hk (x0 + (Z.of_nat k - iof x0 y)) y).
      * apply Hrun. lia.
      * right. lia.
      * rewrite (iof_shift x0 _ y). lia.
  - intros Hall. exfalso.
    specialize (Hall x0 y (Hrun x0 ltac:(lia)) ltac:(right; lia)).
    rewrite Hdiff in Hall by lia. done.
Qed.

Lemma covers_close_same proc crop (y x0 x : Z) :
  covers proc crop ->
  (forall x', x0 <= x' < x -> sameXY x' y = true) ->
  covers (fun x' y' => proc x' y' \/ (y' = y /\ x0 <= x' < x)) crop.
Proof.
  intros Hc Hsame x' y' Hin [Hp|[-> Hr]] Hs; [by apply Hc|].
  rewrite Hsame in Hs by done. done.
Qed.

Lemma covers_close_diff proc crop (y x0 x : Z) :
  x0 < x ->
  covers proc crop ->
  covers (fun x' y' => proc x' y' \/ (y' = y /\ x0 <= x' < x))
         (add_crop crop (image.Rect x0 y x (y + 1))).
Proof.
  intros Hx Hc x' y' Hin [Hp|[-> Hr]] Hs; apply PtIn_add_crop.
  - left. by apply Hc.
  - right. rewrite PtIn_Rect by lia. lia.
Qed.


Lemma proc_line_close (y x0 x : Z) (x' y' : Z) :
  x0 <= x ->
  (proc_line y x0 x' y' \/ (y' = y /\ x0 <= x' < x)) <-> proc_line y x x' y'.
Proof. unfold proc_line. lia. Qed.

Lemma line_close_inv (y x : Z) (s : line_state) :
  minY <= y < maxY -> minX < x <= maxX ->
  line_inv y x s ->
  (x < maxX -> sameXY x y = negb (ls_same s)) ->
  exists s1, line_close y x s = Ret s1 /\ line_inv y (x + 1) (line_next s1).
Proof.
  intros Hy Hx Hinv Hnext.
  destruct s as [crop same i0 j0 x0 i j P M xs].
  destruct Hinv as [Hx0 _ _ Hi Hj Hi0 Hj0 Hrun Hdata Hcover]; simpl in *.
  subst i j i0 j0.
  assert (Hpix : forall x', x0 <= x' < x -> inP x' y).
  { intros x' Hx'. apply inP_bounds. lia. }
  assert (Hfresh : forall x', x0 <= x' < x -> ~ proc_line y x0 x' y).
  { unfold proc_line. lia. }
  pose proof (jof_bounds x0 y (Hpix x0 ltac:(lia))) as Hj0.
  pose proof (iof_bounds x0 y (Hpix x0 ltac:(lia))) as Hi0.
  pose proof (jof_bounds (x - 1) y (Hpix (x - 1) ltac:(lia))) as Hj1.
  pose proof (iof_bounds (x - 1) y (Hpix (x - 1) ltac:(lia))) as Hi1.
  pose proof (jof_shift x0 x y) as Hjx. pose proof (iof_shift x0 x y) as Hix.
  pose proof (jof_shift (x - 1) x y) as Hjx1. pose proof (iof_shift (x - 1) x y) as Hix1.
  pose proof (d_lenP _ _ _ _ _ Hdata) as HlP.
  pose proof (d_lenM _ _ _ _ _ Hdata) as HlM.
  unfold line_close. destruct same.
  - destruct (d_xs _ _ _ _ _ Hdata) as [c ->].
    destruct (grow_replicate t (Z.to_nat (jof x y - jof x0 y)) c (jof x y - jof x0 y))
      as (c' & -> & Hc' & _); [lia|]. go_ret.
    destruct (slice_range_spec (replicate (S c') t) 0 (jof x y - jof x0 y))
      as (src & -> & Hlsrc & Hsrc);
      [lia|unfold len; rewrite length_replicate; lia|]. go_ret.
    destruct (copy_range_spec P (jof x0 y) (jof x y) src)
      as (P' & -> & HlP' & HP'); [lia|unfold len in *; lia|unfold len; lia|]. go_ret.
    eexists. split; [done|].
    constructor; cbn [line_next ls_crop ls_same ls_i0 ls_j0 ls_x0 ls_i ls_j ls_P ls_M ls_xs negb].
    + lia.
    + lia.
    + lia.
    + rewrite (iof_shift x (x + 1) y). lia.
    + rewrite (jof_shift x (x + 1) y). lia.
    + done.
    + done.
    + intros x' Hx' Hxm. assert (x' = x) as -> by lia. by apply Hnext.
    + apply (data_inv_ext (fun x' y' => proc_line y x0 x' y' \/ (y' = y /\ x0 <= x' < x)));
        [intros; apply proc_line_close; lia|].
      eapply data_close_same; eauto; try lia.
      * intros x' Hx'. apply Hrun; lia.
      * intros k. rewrite HP'. case_decide; [|done].
        rewrite Hsrc by lia. rewrite lookup_replicate_2 by lia. done.
    + apply (covers_ext (fun x' y' => proc_line y x0 x' y' \/ (y' = y /\ x0 <= x' < x)));
        [intros; apply proc_line_close; lia|].
      apply covers_close_same; [done|].
      intros x' Hx'. apply Hrun; lia.
  - destruct (slice_range_spec P (jof x0 y) (jof x y))
      as (src & -> & Hlsrc & Hsrc); [lia|unfold len in *; lia|]. go_ret.
    destruct (copy_range_spec M (iof x0 y) (iof x y) src)
      as (M' & -> & HlM' & HM'); [lia|unfold len in *; lia|unfold len; lia|]. go_ret.
    eexists. split; [done|].
    constructor; cbn [line_next ls_crop ls_same ls_i0 ls_j0 ls_x0 ls_i ls_j ls_P ls_M ls_xs negb].
    + lia.
    + lia.
    + lia.
    + rewrite (iof_shift x (x + 1) y). lia.
    + rewrite (jof_shift x (x + 1) y). lia.
    + done.
    + done.
    + intros x' Hx' Hxm. assert (x' = x) as -> by lia. by apply Hnext.
    + apply (data_inv_ext (fun x' y' => proc_line y x0 x' y' \/ (y' = y /\ x0 <= x' < x)));
        [intros; apply proc_line_close; lia|].
      eapply data_close_diff; eauto; try lia.
      * intros x' Hx'. apply Hrun; lia.
      * intros k. rewrite HM'. case_decide; [|done].
        apply Hsrc. lia.
    + apply (covers_ext (fun x' y' => proc_line y x0 x' y' \/ (y' = y /\ x0 <= x' < x)));
        [intros; apply proc_line_close; lia|].
      apply covers_close_diff; [lia|done].
Qed.

Lemma line_step_inv (y x : Z) (s : line_state) :
  minY <= y < maxY -> minX < x <= maxX ->
  line_inv y x s ->
  exists s', line_step maxX y x s = Ret s' /\ line_inv y (x + 1) s'.
Proof.
  intros Hy Hx Hinv. unfold line_step.
  pose proof (li_x0 _ _ _ Hinv) as Hx0.
  destruct (x =? ls_x0 s) eqn:E0; [lia|]. clear E0.
  destruct (x =? maxX) eqn:Elast.
  - go_ret. destruct (line_close_inv y x s) as (s1 & -> & Hinv1); [done|done|done|lia|].
    go_ret. eauto.
  - rewrite (li_i _ _ _ Hinv), (li_j _ _ _ Hinv).
    rewrite (same_pixel_fresh _ _ _ _ _ x y (li_data _ _ _ Hinv));
      [|apply inP_bounds; lia|unfold proc_line; lia].
    go_ret.
    destruct (eqb (sameXY x y) (ls_same s)) eqn:Eturn; cbn [negb].
    + apply eqb_prop in Eturn. go_ret. eexists. split; [done|].
      destruct s as [crop same i0 j0 x0 i j P M xs].
      destruct Hinv as [? ? ? Hi Hj ? ? Hrun ? ?]; simpl in *.
      constructor; simpl; try done; try lia.
      * rewrite (iof_shift x (x + 1) y). lia.
      * rewrite (jof_shift x (x + 1) y). lia.
      * intros x' Hx' Hxm. destruct (decide (x' = x)) as [->|]; [done|].
        apply Hrun; lia.
    + destruct (line_close_inv y x s) as (s1 & -> & Hinv1); [done|done|done| |].
      * intros _. apply eqb_false_iff in Eturn.
        by destruct (sameXY x y), (ls_same s).
      * go_ret. eauto.
Qed.

Lemma line_loop_inv (y : Z) (fuel : nat) : forall (x : Z) (s : line_state),
  minY <= y < maxY -> minX < x -> x + Z.of_nat fuel = maxX + 1 ->
  line_inv y x s ->
  exists s', line_loop fuel maxX y x s = Ret s' /\ line_inv y (maxX + 1) s'.
Proof.
  induction fuel as [|fuel IH]; intros x s Hy Hx Hfuel Hinv; cbn [line_loop].
  - exists s. split; [done|]. by replace (maxX + 1) with x by lia.
  - destruct (line_step_inv y x s) as (s1 & -> & Hinv1); [done|lia|done|]. go_ret.
    apply IH; [done|lia|lia|done].
Qed.


Lemma row_step_inv (y : Z) (s : rows_state) :
  minY <= y < maxY -> rows_inv y s ->
  exists s', row_step pstride prect mstride mrect y s = Ret s' /\ rows_inv (y + 1) s'.
Proof.
  intros Hy [Hdata Hcover]. unfold row_step.
  pose proof (g_w Hgeo) as Hw.
  assert (Hstart : forall x' y', inP x' y' -> y' < y <-> proc_line y minX x' y').
  { intros x' y' Hin%inP_bounds. unfold proc_line. lia. }
  replace (Z.to_nat (maxX - minX + 1)) with (S (Z.to_nat (maxX - minX))) by lia.
  cbn [line_loop]. unfold line_step at 1.
  cbn [ls_x0 ls_P ls_M ls_xs ls_i ls_j ls_crop].
  rewrite Z.eqb_refl.
  fold (iof minX y). fold (jof minX y).
  rewrite (same_pixel_fresh (fun _ y' => y' < y) (rs_crop s) _ _ _ minX y);
    [|done|apply inP_bounds; lia|lia].
  go_ret.
  edestruct (line_loop_inv y (Z.to_nat (maxX - minX)) (minX + 1)) as (s' & -> & Hinv');
    [done|lia|lia| |].
  { constructor; cbn [line_next ls_crop ls_same ls_i0 ls_j0 ls_x0 ls_i ls_j ls_P ls_M ls_xs].
    - lia.
    - lia.
    - lia.
    - rewrite (iof_shift minX (minX + 1) y). lia.
    - rewrite (jof_shift minX (minX + 1) y). lia.
    - done.
    - done.
    - intros x' Hx' _. by assert (x' = minX) as -> by lia.
    - by apply (data_inv_ext (fun _ y' => y' < y)).
    - by apply (covers_ext (fun _ y' => y' < y)). }
  go_ret. eexists. split; [done|].
  destruct Hinv' as [_ _ Hfin _ _ _ _ _ Hd Hc]. specialize (Hfin eq_refl).
  rewrite Hfin in Hd, Hc.
  assert (Hend : forall x' y', inP x' y' -> proc_line y maxX x' y' <-> y' < y + 1).
  { intros x' y' Hin%inP_bounds. unfold proc_line. lia. }
  split; cbn [rs_crop rs_P rs_M rs_xs].
  - by apply (data_inv_ext (proc_line y maxX)).
  - by apply (covers_ext (proc_line y maxX)).
Qed.

Lemma rows_loop_inv (fuel : nat) : forall (y : Z) (s : rows_state),
  minY <= y -> y + Z.of_nat fuel = maxY ->
  rows_inv y s ->
  exists s', rows_loop fuel pstride prect mstride mrect y s = Ret s' /\
             rows_inv maxY s'.
Proof.
  induction fuel as [|fuel IH]; intros y s Hy Hfuel Hinv; cbn [rows_loop].
  - exists s. split; [done|]. by replace maxY with y by lia.
  - destruct (row_step_inv y s) as (s1 & -> & Hinv1); [lia|done|]. go_ret.
    apply IH; [lia|lia|done].
Qed.

(** The general path: every pixel of the frame is processed, and every
    changed pixel lies in the crop. *)
Lemma optimizeByLine_inv (c : nat) :
  exists s', optimizeByLine pstride prect mstride mrect P0 M0 (replicate (S c) t) = Ret s' /\
    data_inv (fun _ _ => True) (rs_crop s') (rs_P s') (rs_M s') (rs_xs s') /\
    covers (fun _ _ => True) (rs_crop s').
Proof.
  unfold optimizeByLine.
  pose proof (g_h Hgeo) as Hh.
  destruct (rows_loop_inv (Z.to_nat (image.Dy prect)) minY
              (mkRowsState image.ZR P0 M0 (replicate (S c) t)))
    as (s' & -> & Hd & Hc); [lia|unfold image.Dy; lia| |].
  { split; cbn [rs_crop rs_P rs_M rs_xs].
    - constructor; try done.
      + intros x y Hin%inP_bounds Hp. lia.
      + intros x y Hin%inP_bounds Hp. lia.
      + eauto.
    - intros x y Hin%inP_bounds Hp. lia. }
  exists s'. split; [done|].
  assert (Hall : forall x' y', inP x' y' -> y' < maxY <-> True).
  { intros x' y' Hin%inP_bounds. lia. }
  split.
  - by apply (data_inv_ext (fun _ y' => y' < maxY)).
  - by apply (covers_ext (fun _ y' => y' < maxY)).
Qed.

(** *** The fast path in the same terms

    [Optimize] takes the fast path when the frame has the mirror's
    rectangle and as many bytes of pixels; for a well-formed frame the two
    buffers then have the same layout. *)
Section same_layout.
Hypothesis Hrect : prect = mrect.
Hypothesis Hlen : len P0 = len M0.

Lemma layout_cases : pstride = maxX - minX \/ maxY - minY = 1.
Proof.
  destruct Hgeo. rewrite <- Hrect in *. unfold image.Dx, image.Dy in *. nia.
Qed.

Lemma iof_jof (x y : Z) : inP x y -> iof x y = jof x y.
Proof.
  intros Hin%inP_bounds. unfold iof, jof, image.PixOffset.
  rewrite (g_mstride Hgeo), <- Hrect. unfold image.Dx.
  destruct layout_cases as [->|?]; [done|].
  replace (y - minY) with 0 by lia. lia.
Qed.

Lemma pixel_of_index (k : nat) :
  Z.of_nat k < len P0 -> exists x y, inP x y /\ jof x y = Z.of_nat k.
Proof.
  intros Hk. pose proof Hgeo as [? ? ? ? ? ? ? HlM].
  rewrite <- Hlen, <- Hrect in HlM. unfold image.Dx, image.Dy in HlM.
  destruct layout_cases as [HS|Hh].
  - exists (minX + Z.of_nat k `mod` pstride), (minY + Z.of_nat k `div` pstride).
    pose proof (Z.mod_pos_bound (Z.of_nat k) pstride ltac:(lia)).
    pose proof (Z.div_mod (Z.of_nat k) pstride ltac:(lia)).
    assert (0 <= Z.of_nat k `div` pstride) by (apply Z.div_pos; lia).
    split.
    + apply inP_bounds. split; [lia|]. split; [lia|].
      assert (Z.of_nat k `div` pstride < maxY - minY); [|lia].
      apply Z.div_lt_upper_bound; [lia|]. rewrite HS. lia.
    + unfold jof, image.PixOffset. lia.
  - exists (minX + Z.of_nat k), minY. split.
    + apply inP_bounds. nia.
    + unfold jof, image.PixOffset. lia.
Qed.

Lemma sameL_sameXY (x y : Z) :
  inP x y -> sameL P0 M0 t (Z.to_nat (jof x y)) = sameXY x y.
Proof.
  intros Hin. unfold sameL, sameXY. by rewrite (iof_jof x y Hin).
Qed.

Lemma optimizeByPix_data (c : nat) :
  exists s', optimizeByPix pstride P0 M0 (replicate (S c) t) = Ret s' /\
    data_inv (fun _ _ => True) (ps_crop s') (ps_P s') (ps_M s') (ps_xs s') /\
    (minX = 0 -> minY = 0 -> covers (fun _ _ => True) (ps_crop s')).
Proof.
  pose proof (g_w Hgeo) as Hw. pose proof (g_h Hgeo) as Hh.
  assert (Hlen' : length M0 = length P0) by (unfold len in Hlen; lia).
  assert (0 < len P0) as Hpos.
  { pose proof (jof_bounds minX minY ltac:(apply inP_bounds; lia)). lia. }
  destruct (optimizeByPix_inv P0 M0 t pstride) with (c := c) as (s' & Hrun & Hinv);
    [pose proof (g_stride Hgeo); lia|done|unfold len in Hpos; lia|].
  exists s'. split; [done|].
  destruct Hinv as [_ _ Hfin _ _ HlP HlM HP HM _ Hxs Hcov Hemp].
  specialize (Hfin eq_refl). rewrite Hfin in *. clear Hfin.
  split; [constructor|]; try done.
  - lia.
  - intros x y Hin _. pose proof (jof_bounds x y Hin).
    rewrite HP, decide_True by lia. by rewrite sameL_sameXY.
  - intros k Hk. rewrite HP. case_decide as Hlt; [|done].
    destruct (pixel_of_index k Hlt) as (x & y & Hin & Heq).
    by destruct (Hk x y Hin I).
  - intros x y Hin _. pose proof (jof_bounds x y Hin).
    rewrite (iof_jof x y Hin), HM, (sameL_sameXY x y Hin).
    destruct (sameXY x y).
    + rewrite decide_False by (intros [_ ?]; done). done.
    + rewrite decide_True by (split; [lia|done]). done.
  - intros k Hk. rewrite HM. case_decide as Hlt; [|done].
    destruct Hlt as [Hlt _].
    destruct (pixel_of_index k Hlt) as (x & y & Hin & Heq).
    destruct (Hk x y Hin I). by rewrite (iof_jof x y Hin).
  - intros Hall. apply Hemp. intros k Hk.
    destruct (pixel_of_index k Hk) as (x & y & Hin & Heq).
    rewrite <- (Nat2Z.id k), <- Heq, (sameL_sameXY x y Hin). by apply Hall.
  - intros HX HY x y Hin _ Hs.
    pose proof (jof_bounds x y Hin) as Hj.
    specialize (Hcov (Z.to_nat (jof x y)) ltac:(lia)).
    rewrite (sameL_sameXY x y Hin), Z2Nat.id in Hcov by lia.
    specialize (Hcov Hs).
    apply inP_bounds in Hin. pose proof (g_stride Hgeo).
    assert (jof x y `div` pstride = y) as Hd.
    { unfold jof, image.PixOffset. rewrite HX, HY.
      symmetry. apply (Z.div_unique _ _ y x); lia. }
    assert (jof x y `mod` pstride = x) as Hm.
    { unfold jof, image.PixOffset. rewrite HX, HY.
      symmetry. apply (Z.mod_unique _ _ y x); lia. }
    by rewrite Hd, Hm in Hcov.
Qed.
End same_layout.
End frame_over_mirror.

(** ** Well-formed frames *)

Lemma load_wf (h : Heap) (pm : image.Paletted) :
  wf_paletted h pm ->
  exists b buf P0, image.base (image.Pix pm) = Some b /\ h !! b = Some buf /\
    (image.off (image.Pix pm) + image.slen (image.Pix pm) <= length buf)%nat /\
    load h (image.Pix pm) = Ret P0 /\
    P0 = take (image.slen (image.Pix pm)) (drop (image.off (image.Pix pm)) buf) /\
    length P0 = image.slen (image.Pix pm).
Proof.
  intros [(b & buf & Hb & Hbuf & Hfit) _ _ _ _].
  exists b, buf, (take (image.slen (image.Pix pm)) (drop (image.off (image.Pix pm)) buf)).
  split_and!; try done.
  - unfold load. rewrite Hb, Hbuf. by rewrite decide_True.
  - rewrite length_take, length_drop. lia.
Qed.

Lemma wf_geometry (t : Z) (o : Optimizer) (m : Mirror) (h : Heap)
    (pm : image.Paletted) (P0 : list Z) :
  wf_optimizer t o m -> wf_paletted h pm ->
  image.In (image.PRect pm) (mRect m) = true ->
  load h (image.Pix pm) = Ret P0 ->
  geometry P0 (mPix m) (image.Stride pm) (image.PRect pm) (mStride m) (mRect m).
Proof.
  intros [_ Hms HlM _] Hwf Hin Hload.
  destruct (load_wf h pm Hwf) as (b & buf & P & _ & _ & _ & Hload' & _ & HlP).
  rewrite Hload in Hload'. injection Hload' as <-.
  destruct Hwf as [_ Hw Hh Hs Hl].
  assert (image.Empty (image.PRect pm) = false) as He by (unfold image.Empty; lia).
  unfold image.In in Hin. rewrite He in Hin.
  unfold len, image.Dx, image.Dy in *.
  constructor; unfold len, image.Dx, image.Dy; lia.
Qed.

Lemma pixel_loc_wf (h : Heap) (pm : image.Paletted) (x y : Z) :
  wf_paletted h pm -> image.PtIn x y (image.PRect pm) = true ->
  exists b, image.base (image.Pix pm) = Some b /\
    0 <= image.PixOffset (image.Stride pm) (image.PRect pm) x y
      < Z.of_nat (image.slen (image.Pix pm)) /\
    pixel_loc pm x y =
      Some (b, (image.off (image.Pix pm) +
                Z.to_nat (image.PixOffset (image.Stride pm) (image.PRect pm) x y))%nat).
Proof.
  intros [(b & buf & Hb & _) Hw Hh Hs Hl] Hin.
  exists b. split; [done|].
  assert (0 <= image.PixOffset (image.Stride pm) (image.PRect pm) x y
          < Z.of_nat (image.slen (image.Pix pm))) as Hk.
  { unfold image.PtIn, image.PixOffset, image.Dx, image.Dy in *. nia. }
  split; [done|]. unfold pixel_loc. rewrite Hb.
  destruct (0 <=? _) eqn:E1; [|lia].
  destruct (_ <? _) eqn:E2; [done|lia].
Qed.

Lemma Intersect_PtIn (x y : Z) (r s : image.Rectangle) :
  image.PtIn x y (image.Intersect r s) = image.PtIn x y r && image.PtIn x y s.
Proof.
  unfold image.Intersect.
  destruct (image.Empty _) eqn:E; unfold image.PtIn, image.Empty in *; simpl in *; lia.
Qed.

Lemma Intersect_absorb (r s : image.Rectangle) :
  image.Empty (image.Intersect r s) = false ->
  image.Intersect s (image.Intersect r s) = image.Intersect r s.
Proof.
  destruct r as [[a b] [c d]], s as [[a' b'] [c' d']].
  unfold image.Intersect. cbn [image.X image.Y image.Min image.Max].
  destruct (image.Empty (image.mkRectangle _ _)) eqn:E; [done|]. intros _.
  cbn [image.X image.Y image.Min image.Max].
  unfold image.Empty in *. cbn [image.X image.Y image.Min image.Max] in *.
  replace (c' `min` (c `min` c')) with (c `min` c') by lia.
  replace (d' `min` (d `min` d')) with (d `min` d') by lia.
  replace (a' `max` (a `max` a')) with (a `max` a') by lia.
  replace (b' `max` (b `max` b')) with (b `max` b') by lia.
  by rewrite E.
Qed.

Lemma Intersect_empty (r s : image.Rectangle) :
  image.Empty (image.Intersect r s) = true -> image.Intersect r s = image.ZR.
Proof.
  unfold image.Intersect.
  destruct (image.Empty (image.mkRectangle _ _)) eqn:E; [done|]. congruence.
Qed.

(** [SubImage] of a well-formed image does not panic; the pixels of the
    result are pixels of the image, stored where the image stores them. *)
Lemma SubImage_wf (h : Heap) (pm : image.Paletted) (r : image.Rectangle) :
  wf_paletted h pm ->
  exists sub, image.SubImage pm r = Ret sub /\
    image.PRect sub = image.Intersect r (image.PRect pm) /\
    image.Palette sub = image.Palette pm /\
    (image.Empty (image.PRect sub) = false ->
       image.base (image.Pix sub) = image.base (image.Pix pm) /\
       image.Stride sub = image.Stride pm) /\
    forall x y, image.PtIn x y (image.PRect sub) = true ->
      pixel_loc sub x y = pixel_loc pm x y.
Proof.
  intros Hwf. unfold image.SubImage.
  destruct (image.Empty (image.Intersect r (image.PRect pm))) eqn:Ee.
  - eexists. split; [done|]. cbn [image.PRect image.Palette].
    rewrite (Intersect_empty _ _ Ee).
    split_and!; try done.
    intros x y Hin. unfold image.PtIn, image.ZR in Hin. simpl in Hin. lia.
  - set (r' := image.Intersect r (image.PRect pm)) in *.
    assert (image.PtIn (image.X (image.Min r')) (image.Y (image.Min r')) (image.PRect pm)
            = true) as Hmin.
    { assert (image.PtIn (image.X (image.Min r')) (image.Y (image.Min r')) r' = true) as H.
      { unfold image.PtIn, image.Empty in *. lia. }
      unfold r' in H at 3. rewrite Intersect_PtIn in H. lia. }
    destruct (pixel_loc_wf h pm _ _ Hwf Hmin) as (b & Hb & Hk & _).
    unfold image.reslice.
    set (i := image.PixOffset (image.Stride pm) (image.PRect pm)
                (image.X (image.Min r')) (image.Y (image.Min r'))) in *.
    assert ((0 <=? i) && (i <=? Z.of_nat (image.slen (image.Pix pm))) = true) as ->
      by lia.
    go_ret.
    eexists. split; [done|]. cbn [image.PRect image.Palette image.Pix image.Stride image.base].
    unfold r'. rewrite Intersect_absorb by done. fold r'.
    split_and!; try done.
    intros x y Hin.
    assert (image.PtIn x y (image.PRect pm) = true) as Hin'.
    { unfold r' in Hin. rewrite Intersect_PtIn in Hin. lia. }
    destruct (pixel_loc_wf h pm _ _ Hwf Hin') as (b' & Hb' & Hk' & ->).
    unfold pixel_loc. cbn [image.PRect image.Pix image.Stride image.base image.off image.slen].
    rewrite Hb'.
    assert (image.PixOffset (image.Stride pm) (image.PRect pm) x y =
            i + image.PixOffset (image.Stride pm) r' x y) as Hsum.
    { unfold i, image.PixOffset. lia. }
    set (k := image.PixOffset (image.Stride pm) r' x y) in *.
    assert (0 <= k).
    { destruct Hwf. unfold k, image.PixOffset, image.PtIn, image.Dx in *. nia. }
    assert ((0 <=? k) && (k <? Z.of_nat (image.slen (image.Pix pm) - Z.to_nat i)) = true)
      as -> by lia.
    do 2 f_equal. lia.
Qed.

(** ** [Optimize] after the first call *)

Lemma Optimize_next (t : Z) (o : Optimizer) (m : Mirror) (h : Heap)
    (pm : image.Paletted) (P0 : list Z) :
  wf_optimizer t o m -> wf_paletted h pm ->
  image.In (image.PRect pm) (mRect m) = true ->
  load h (image.Pix pm) = Ret P0 ->
  exists crop ret P' M' xs',
    Optimize o pm h =
      Ret (inl ret,
           mkOptimizer (Some (mkMirror M' (mStride m) (mRect m) (mPalette m))) xs',
           store h (image.Pix pm) P') /\
    data_inv P0 (mPix m) t (image.Stride pm) (image.PRect pm) (mStride m) (mRect m)
             (fun _ _ => True) crop P' M' xs' /\
    (fast_path_taken m pm = false \/ image.Min (image.PRect pm) = image.Pt 0 0 ->
     covers P0 (mPix m) t (image.Stride pm) (image.PRect pm) (mStride m) (mRect m)
            (fun _ _ => True) crop) /\
    (if image.Eq (image.PRect pm) (final_crop pm crop) then ret = pm
     else image.SubImage pm (final_crop pm crop) = Ret ret).
Proof.
  intros Hwo Hwf Hin Hload.
  pose proof (wf_geometry t o m h pm P0 Hwo Hwf Hin Hload) as Hgeo.
  destruct (load_wf h pm Hwf) as (b & buf & P & _ & _ & _ & Hload' & _ & HlP).
  rewrite Hload in Hload'. injection Hload' as <-.
  destruct (wo_xs _ _ _ Hwo) as [c Hxs].
  unfold Optimize. rewrite (wo_pm _ _ _ Hwo), Hin. cbn [negb]. rewrite Hload. go_ret.
  assert (len P0 = Z.of_nat (image.slen (image.Pix pm))) as HlenP by (unfold len; lia).
  rewrite Hxs.
  assert (Hfinish : forall crop, exists ret,
    cropped pm crop = Ret ret /\
    (if image.Eq (image.PRect pm) (final_crop pm crop) then ret = pm
     else image.SubImage pm (final_crop pm crop) = Ret ret)).
  { intros crop. unfold cropped.
    destruct (image.Eq (image.PRect pm) (final_crop pm crop)) eqn:Eeq; cbn [negb].
    - by exists pm.
    - destruct (SubImage_wf h pm (final_crop pm crop) Hwf) as (sub & Hsub & _).
      by exists sub. }
  destruct (fast_path_taken m pm) eqn:Efast.
  - assert (image.PRect pm = mRect m) as Hrect.
    { unfold fast_path_taken, image.Eq in Efast.
      destruct (bool_decide_reflect (image.PRect pm = mRect m)); [done|].
      assert (image.Empty (image.PRect pm) = false)
        by (destruct Hwf; unfold image.Empty; lia).
      simpl in Efast. rewrite H in Efast. done. }
    assert (len P0 = len (mPix m)) as Hlen.
    { unfold fast_path_taken in Efast. lia. }
    destruct (optimizeByPix_data P0 (mPix m) t (image.Stride pm) (image.PRect pm)
                (mStride m) (mRect m) Hgeo Hrect Hlen c) as (s' & -> & Hd & Hc).
    go_ret.
    destruct (Hfinish (ps_crop s')) as (ret & -> & Hret). go_ret.
    exists (ps_crop s'), ret, (ps_P s'), (ps_M s'), (ps_xs s').
    split_and!; try done.
    intros [?|Hmin]; [done|]. apply Hc; by rewrite Hmin.
  - destruct (optimizeByLine_inv P0 (mPix m) t (image.Stride pm) (image.PRect pm)
                (mStride m) (mRect m) Hgeo c) as (s' & -> & Hd & Hc).
    go_ret.
    destruct (Hfinish (rs_crop s')) as (ret & -> & Hret). go_ret.
    exists (rs_crop s'), ret, (rs_P s'), (rs_M s'), (rs_xs s').
    split_and!; done.
Qed.

(** ** Pixels in the heap *)

Lemma pixel_load (h : Heap) (pm : image.Paletted) (P0 : list Z) (x y : Z) :
  wf_paletted h pm -> load h (image.Pix pm) = Ret P0 ->
  image.PtIn x y (image.PRect pm) = true ->
  pixel h pm x y = P0 !! Z.to_nat (jof (image.Stride pm) (image.PRect pm) x y).
Proof.
  intros Hwf Hload Hin.
  destruct (load_wf h pm Hwf) as (b & buf & P & Hb & Hbuf & Hfit & Hload' & HP & HlP).
  rewrite Hload in Hload'. injection Hload' as <-.
  destruct (pixel_loc_wf h pm x y Hwf Hin) as (b' & Hb' & Hk & Hloc).
  unfold pixel, heap_byte. rewrite Hloc. rewrite Hb in Hb'. injection Hb' as <-.
  rewrite Hbuf, HP. unfold jof.
  rewrite lookup_take_lt by lia. by rewrite lookup_drop.
Qed.

Lemma pixel_store (h : Heap) (pm : image.Paletted) (P' : list Z) (x y : Z) :
  wf_paletted h pm -> length P' = image.slen (image.Pix pm) ->
  image.PtIn x y (image.PRect pm) = true ->
  pixel (store h (image.Pix pm) P') pm x y
  = P' !! Z.to_nat (jof (image.Stride pm) (image.PRect pm) x y).
Proof.
  intros Hwf HlP' Hin.
  destruct (load_wf h pm Hwf) as (b & buf & P & Hb & Hbuf & Hfit & _).
  destruct (pixel_loc_wf h pm x y Hwf Hin) as (b' & Hb' & Hk & Hloc).
  unfold pixel, heap_byte, store. rewrite Hloc. rewrite Hb in Hb' |- *. injection Hb' as <-.
  rewrite lookup_alter_eq, Hbuf. cbn [fmap option_fmap option_map]. unfold jof.
  rewrite lookup_app_r; rewrite length_take; [|lia].
  rewrite lookup_app_l by lia. f_equal. lia.
Qed.

(** [store] changes nothing but the bytes of the window. *)
Lemma store_other (h : Heap) (pm : image.Paletted) (P0 P' : list Z) (b a : nat) :
  wf_paletted h pm -> load h (image.Pix pm) = Ret P0 ->
  length P' = image.slen (image.Pix pm) ->
  (forall k : nat, image.base (image.Pix pm) = Some b ->
     a = (image.off (image.Pix pm) + k)%nat -> P' !! k = P0 !! k) ->
  heap_byte (store h (image.Pix pm) P') b a = heap_byte h b a.
Proof.
  intros Hwf Hload HlP' Hsame.
  destruct (load_wf h pm Hwf) as (b0 & buf & P & Hb & Hbuf & Hfit & Hload' & HP & HlP).
  rewrite Hload in Hload'. injection Hload' as <-.
  unfold heap_byte, store. rewrite Hb.
  destruct (decide (b0 = b)) as [->|Hne]; [|by rewrite lookup_alter_ne].
  rewrite lookup_alter_eq, Hbuf. cbn [fmap option_fmap option_map].
  destruct (decide (a < image.off (image.Pix pm))%nat).
  { rewrite lookup_app_l by (rewrite length_take; lia).
    by rewrite lookup_take_lt. }
  rewrite lookup_app_r; rewrite length_take; [|lia].
  replace (image.off (image.Pix pm) `min` length buf)%nat with (image.off (image.Pix pm))
    by lia.
  destruct (decide (a < image.off (image.Pix pm) + image.slen (image.Pix pm))%nat).
  - rewrite lookup_app_l by lia.
    rewrite (Hsame (a - image.off (image.Pix pm))%nat) by (done || lia).
    rewrite HP, lookup_take_lt by lia. rewrite lookup_drop. f_equal. lia.
  - rewrite lookup_app_r by lia. rewrite lookup_drop. f_equal. lia.
Qed.

Lemma store_dom (h : Heap) (s : image.Slice) (P' : list Z) :
  dom (store h s P') = dom h.
Proof.
  unfold store. destruct (image.base s); [|done].
  apply set_eq. intros k. rewrite !elem_of_dom.
  destruct (decide (n = k)) as [->|].
  - rewrite lookup_alter_eq. by rewrite fmap_is_Some.
  - by rewrite lookup_alter_ne.
Qed.

(** The frame-level and the heap-level view of "needs no change" agree. *)
Lemma sameXY_unchanged (t : Z) (h : Heap) (m : Mirror) (pm : image.Paletted)
    (P0 : list Z) (x y : Z) :
  wf_paletted h pm -> load h (image.Pix pm) = Ret P0 ->
  image.PtIn x y (image.PRect pm) = true ->
  sameXY P0 (mPix m) t (image.Stride pm) (image.PRect pm) (mStride m) (mRect m) x y
  = unchanged t h m pm x y.
Proof.
  intros Hwf Hload Hin. unfold sameXY, unchanged, mirror_pixel.
  by rewrite (pixel_load h pm P0 x y Hwf Hload Hin).
Qed.

(** ** The first call of [Optimize] *)

Lemma Optimize_first (t : Z) (h : Heap) (pm : image.Paletted) (P0 : list Z) :
  wf_paletted h pm -> load h (image.Pix pm) = Ret P0 ->
  Optimize (NewOptimizer t) pm h
    = Ret (inl pm, mkOptimizer (Some (first_mirror pm P0)) [t], h) /\
  wf_optimizer t (mkOptimizer (Some (first_mirror pm P0)) [t]) (first_mirror pm P0).
Proof.
  intros Hwf Hload.
  destruct (load_wf h pm Hwf) as (b & buf & P & _ & _ & _ & Hload' & _ & HlP).
  rewrite Hload in Hload'. injection Hload' as <-.
  destruct Hwf as [_ Hw Hh Hs Hl]. unfold image.Dx, image.Dy in *.
  set (w := image.X (image.Max (image.PRect pm)) - image.X (image.Min (image.PRect pm))) in *.
  set (hh := image.Y (image.Max (image.PRect pm)) - image.Y (image.Min (image.PRect pm))) in *.
  assert (w * hh <= Z.of_nat (length P0)) as Hfit by nia.
  assert (0 <= w * hh) by nia.
  split.
  - unfold Optimize, NewOptimizer, NewPaletted. cbn [o_pm o_xs].
    unfold image.Dx, image.Dy. fold w hh.
    assert ((w <? 0) || (hh <? 0) = false) as -> by lia. go_ret.
    rewrite Hload. go_ret. cbn [mPix mStride mRect mPalette].
    unfold copy_range, len. rewrite length_replicate.
    assert ((0 <=? 0) && (0 <=? Z.of_nat (Z.to_nat (w * hh))) &&
            (Z.of_nat (Z.to_nat (w * hh)) <=? Z.of_nat (Z.to_nat (w * hh))) = true) as ->
      by lia.
    go_ret. unfold first_mirror, image.Dx, image.Dy. fold w hh.
    do 5 f_equal.
    replace (Z.to_nat (Z.of_nat (Z.to_nat (w * hh)) - 0) `min` length P0)%nat
      with (Z.to_nat (w * hh)) by lia.
    rewrite drop_ge by (rewrite length_replicate; lia).
    cbn [take Z.to_nat]. by rewrite app_nil_r.
  - constructor; cbn [o_pm o_xs first_mirror mStride mRect mPix]; try done.
    + unfold image.Dx. lia.
    + unfold len, image.Dx, image.Dy. fold w hh. rewrite length_take. lia.
    + by exists 0%nat.
Qed.

(** For a frame stored contiguously the mirror holds the frame's pixels. *)
Lemma first_mirror_pixel (h : Heap) (pm : image.Paletted) (P0 : list Z) (x y : Z) :
  wf_paletted h pm -> load h (image.Pix pm) = Ret P0 ->
  image.Stride pm = image.Dx (image.PRect pm) ->
  image.PtIn x y (image.PRect pm) = true ->
  mirror_pixel (first_mirror pm P0) x y = pixel h pm x y.
Proof.
  intros Hwf Hload Hs Hin.
  rewrite (pixel_load h pm P0 x y Hwf Hload Hin).
  unfold mirror_pixel, first_mirror, jof. cbn [mPix mStride mRect].
  rewrite Hs, Z.mul_1_l. apply lookup_take_lt.
  unfold image.PtIn, image.PixOffset, image.Dx, image.Dy in *. nia.
Qed.

(** ** The claims about the optimizer *)

(** C9.  On a call to [Optimize] after the first, when every pixel of the
    input frame equals the corresponding pixel of the mirror, the returned
    image is the 1x1 sub-image at the frame's origin: the frame's own pixel
    window, stride and palette with the rectangle
    [(minX, minY)-(minX+1, minY+1)]. *)
Theorem C9_unchanged_frame_gives_origin_pixel
    (t : Z) (o : Optimizer) (m : Mirror) (h : Heap) (pm : image.Paletted) :
  wf_optimizer t o m -> wf_paletted h pm ->
  image.In (image.PRect pm) (mRect m) = true ->
  (forall x y, image.PtIn x y (image.PRect pm) = true ->
     pixel h pm x y = mirror_pixel m x y) ->
  exists o' h',
    Optimize o pm h =
      Ret (inl (image.mkPaletted (image.Pix pm) (image.Stride pm)
                  (image.Rect (image.X (image.Min (image.PRect pm)))
                              (image.Y (image.Min (image.PRect pm)))
                              (image.X (image.Min (image.PRect pm)) + 1)
                              (image.Y (image.Min (image.PRect pm)) + 1))
                  (image.Palette pm)),
           o', h').
Proof.
  intros Hwo Hwf Hin Hsame.
  destruct (load_wf h pm Hwf) as (b & buf & P0 & Hb & Hbuf & Hfit & Hload & _ & HlP).
  destruct (Optimize_next t o m h pm P0 Hwo Hwf Hin Hload)
    as (crop & ret & P' & M' & xs' & Hopt & Hd & _ & Hret).
  assert (crop = image.ZR) as ->.
  { apply (d_empty _ _ _ _ _ _ _ _ _ _ _ _ Hd). intros x y Hxy _.
    rewrite (sameXY_unchanged t h m pm P0 x y Hwf Hload Hxy).
    unfold unchanged. rewrite <- (Hsame x y Hxy).
    destruct (pixel h pm x y); [|done]. by rewrite bool_decide_eq_true_2. }
  rewrite Hopt. do 2 eexists. do 3 f_equal.
  unfold final_crop in Hret. change (image.Empty image.ZR) with true in Hret.
  cbn match in Hret.
  pose proof (wf_w _ _ Hwf) as Hw. pose proof (wf_h _ _ Hwf) as Hh.
  set (minX := image.X (image.Min (image.PRect pm))) in *.
  set (minY := image.Y (image.Min (image.PRect pm))) in *.
  set (one := image.Rect minX minY (minX + 1) (minY + 1)) in *.
  assert (one = image.mkRectangle (image.Pt minX minY) (image.Pt (minX + 1) (minY + 1)))
    as Hone.
  { unfold one, image.Rect.
    destruct (minX + 1 <? minX) eqn:E1; [lia|].
    destruct (minY + 1 <? minY) eqn:E2; [lia|]. done. }
  destruct (image.Eq (image.PRect pm) one) eqn:Eeq.
  - subst ret. unfold image.Eq in Eeq.
    destruct (bool_decide_reflect (image.PRect pm = one)) as [Hr|_].
    + rewrite <- Hr. by destruct pm.
    + simpl in Eeq. unfold image.Empty in Eeq. fold minX minY in Eeq. exfalso. lia.
  - unfold image.SubImage in Hret.
    assert (image.Intersect one (image.PRect pm) = one) as Hint.
    { unfold image.Intersect. rewrite Hone.
      cbn [image.X image.Y image.Min image.Max]. fold minX minY.
      replace (minX `max` minX) with minX by lia.
      replace (minY `max` minY) with minY by lia.
      replace ((minX + 1) `min` image.X (image.Max (image.PRect pm))) with (minX + 1) by lia.
      replace ((minY + 1) `min` image.Y (image.Max (image.PRect pm))) with (minY + 1) by lia.
      unfold image.Empty. cbn [image.X image.Y image.Min image.Max].
      destruct (_ || _) eqn:E; [exfalso; lia|done]. }
    rewrite Hint in Hret.
    assert (image.Empty one = false) as Hne.
    { rewrite Hone. unfold image.Empty. cbn. lia. }
    rewrite Hne in Hret.
    assert (image.Intersect (image.PRect pm) one = one) as Hint'.
    { rewrite <- Hint at 1. rewrite Intersect_absorb by (rewrite Hint; done). done. }
    rewrite Hint' in Hret.
    assert (image.PixOffset (image.Stride pm) (image.PRect pm)
              (image.X (image.Min one)) (image.Y (image.Min one)) = 0) as Hoff.
    { rewrite Hone. unfold image.PixOffset. cbn [image.X image.Y image.Min]. lia. }
    rewrite Hoff in Hret. unfold image.reslice in Hret.
    change (0 <=? 0) with true in Hret.
    assert ((0 <=? Z.of_nat (image.slen (image.Pix pm))) = true) as Hle by lia.
    rewrite Hle in Hret. cbn [andb] in Hret. go_ret. cbn [mbind outcome_bind] in Hret.
    injection Hret as <-.
    destruct (image.Pix pm) as [bs os ls]. cbn [image.base image.off image.slen].
    change (Z.to_nat 0) with 0%nat. by rewrite Nat.add_0_r, Nat.sub_0_r.
Qed.

(** X18.  A call to [Optimize] after the first works in place.  The
    caller's buffer is the one that changes: every pixel of the frame that
    equals the mirror or is already transparent now holds the transparent
    index, every other byte of the heap is as before, and no buffer is
    allocated.  The returned image is the argument itself or the result of
    [SubImage] on it, and every pixel the returned image has is a pixel of
    the argument, stored exactly where the argument stores it. *)
Theorem Optimize_mutates_in_place
    (t : Z) (o : Optimizer) (m : Mirror) (h : Heap) (pm : image.Paletted) :
  wf_optimizer t o m -> wf_paletted h pm ->
  image.In (image.PRect pm) (mRect m) = true ->
  exists ret o' h',
    Optimize o pm h = Ret (inl ret, o', h') /\
    (forall x y, image.PtIn x y (image.PRect pm) = true ->
       pixel h' pm x y =
       if unchanged t h m pm x y then Some t else pixel h pm x y) /\
    (forall b a,
       (forall x y, image.PtIn x y (image.PRect pm) = true ->
          pixel_loc pm x y <> Some (b, a)) ->
       heap_byte h' b a = heap_byte h b a) /\
    dom h' = dom h /\
    (ret = pm \/ exists crop, image.SubImage pm crop = Ret ret) /\
    (forall x y, image.PtIn x y (image.PRect ret) = true ->
       image.PtIn x y (image.PRect pm) = true /\
       pixel_loc ret x y = pixel_loc pm x y).
Proof.
  intros Hwo Hwf Hin.
  destruct (load_wf h pm Hwf) as (b0 & buf & P0 & Hb & Hbuf & Hfit & Hload & _ & HlP).
  destruct (Optimize_next t o m h pm P0 Hwo Hwf Hin Hload)
    as (crop & ret & P' & M' & xs' & Hopt & Hd & _ & Hret).
  pose proof (d_lenP _ _ _ _ _ _ _ _ _ _ _ _ Hd) as HlP'.
  exists ret. do 2 eexists. split; [exact Hopt|]. split_and!.
  - intros x y Hxy.
    rewrite pixel_store by (done || lia).
    rewrite (d_Pin _ _ _ _ _ _ _ _ _ _ _ _ Hd x y Hxy I).
    rewrite (sameXY_unchanged t h m pm P0 x y Hwf Hload Hxy).
    by rewrite (pixel_load h pm P0 x y Hwf Hload Hxy).
  - intros b a Hfree. apply (store_other h pm P0); [done|done|lia|].
    intros k Hbase Ha. apply (d_Pout _ _ _ _ _ _ _ _ _ _ _ _ Hd).
    intros x y Hxy _ Hj. apply (Hfree x y Hxy).
    destruct (pixel_loc_wf h pm x y Hwf Hxy) as (b' & Hb' & Hk & ->).
    unfold jof in Hj. rewrite Hj, Nat2Z.id. congruence.
  - apply store_dom.
  - destruct (image.Eq _ _); eauto.
  - destruct (image.Eq _ _).
    + subst ret. done.
    + destruct (SubImage_wf h pm (final_crop pm crop) Hwf)
        as (sub & Hsub & Hrect & _ & _ & Hloc).
      rewrite Hsub in Hret. injection Hret as <-.
      intros x y Hxy. split; [|by apply Hloc].
      rewrite Hrect, Intersect_PtIn in Hxy. lia.
Qed.

(** C2, counterexample.  With [B]'s middle pixel already transparent the
    optimizer returns [B] whole, its middle pixel still transparent, so the
    composite shows [A]'s [0] there, not [B]'s [2], inside the crop and at
    a position where [B] differs from [A]. *)
Lemma C2_counterexample : ~ C2_as_stated 2 cx_heap cx_A cx_B.
Proof.
  intros H.
  edestruct (H _ _ _ _ ltac:(vm_compute; reflexivity) ltac:(vm_compute; reflexivity)
               1 0 eq_refl) as [H1 _].
  vm_compute in H1. discriminate H1.
Qed.

(** C2, amended.  For frames [A] and [B] with the same non-empty rectangle
    anchored at the origin, [A] stored contiguously: after [Optimize(A)] has
    set up the mirror, drawing [Optimize(B)] over [A] shows [B]'s pixel
    wherever that pixel is not the transparent index, and [A]'s pixel where
    it is; and a transparent pixel inside the returned crop sits where [B]
    equals [A] or where [B] was transparent already. *)
Theorem C2_composite_renders_frame
    (t : Z) (h : Heap) (A B : image.Paletted) :
  wf_paletted h A -> wf_paletted h B ->
  image.PRect A = image.PRect B ->
  image.Min (image.PRect A) = image.Pt 0 0 ->
  image.Stride A = image.Dx (image.PRect A) ->
  exists o1 ret o2 h',
    Optimize (NewOptimizer t) A h = Ret (inl A, o1, h) /\
    Optimize o1 B h = Ret (inl ret, o2, h') /\
    forall x y, image.PtIn x y (image.PRect B) = true ->
      (pixel h B x y <> Some t ->
       composite t (pixel h A x y) h' ret x y = pixel h B x y) /\
      (pixel h B x y = Some t ->
       composite t (pixel h A x y) h' ret x y = pixel h A x y) /\
      (image.PtIn x y (image.PRect ret) = true -> pixel h' ret x y = Some t ->
       pixel h B x y = pixel h A x y \/ pixel h B x y = Some t).
Proof.
  intros HwA HwB Hrect Hmin Hcont.
  destruct (load_wf h A HwA) as (bA & bufA & PA & _ & _ & _ & HloadA & _ & _).
  destruct (load_wf h B HwB) as (bB & bufB & PB & _ & _ & _ & HloadB & _ & HlPB).
  destruct (Optimize_first t h A PA HwA HloadA) as [Hfirst Hwo].
  set (m := first_mirror A PA) in *. set (o1 := mkOptimizer (Some m) [t]) in *.
  assert (image.In (image.PRect B) (mRect m) = true) as Hin.
  { cbn [m first_mirror mRect]. rewrite Hrect. unfold image.In.
    destruct (image.Empty _); lia. }
  destruct (Optimize_next t o1 m h B PB Hwo HwB Hin HloadB)
    as (crop & ret & P' & M' & xs' & Hopt & Hd & Hcov & Hret).
  specialize (Hcov ltac:(right; by rewrite <- Hrect)).
  pose proof (d_lenP _ _ _ _ _ _ _ _ _ _ _ _ Hd) as HlP'.
  exists o1, ret. do 2 eexists. split; [exact Hfirst|]. split; [exact Hopt|].
  intros x y Hxy.
  assert (HxyA : image.PtIn x y (image.PRect A) = true) by (by rewrite Hrect).
  pose proof (first_mirror_pixel h A PA x y HwA HloadA Hcont HxyA) as Hmir. fold m in Hmir.
  (* the pixel of B after the call *)
  assert (pixel (store h (image.Pix B) P') B x y =
          if unchanged t h m B x y then Some t else pixel h B x y) as Hnew.
  { rewrite pixel_store by (done || lia).
    rewrite (d_Pin _ _ _ _ _ _ _ _ _ _ _ _ Hd x y Hxy I).
    rewrite (sameXY_unchanged t h m B PB x y HwB HloadB Hxy).
    by rewrite (pixel_load h B PB x y HwB HloadB Hxy). }
  (* inside the returned image a pixel is B's pixel; outside, nothing changed *)
  assert (Hret' : (image.PtIn x y (image.PRect ret) = true /\
                   pixel (store h (image.Pix B) P') ret x y
                   = pixel (store h (image.Pix B) P') B x y) \/
                  (image.PtIn x y (image.PRect ret) = false /\
                   unchanged t h m B x y = true)).
  { destruct (image.Eq _ _).
    - subst ret. left. done.
    - destruct (SubImage_wf h B (final_crop B crop) HwB)
        as (sub & Hsub & Hr & _ & _ & Hloc).
      rewrite Hsub in Hret. injection Hret as <-.
      destruct (image.PtIn x y (image.PRect sub)) eqn:Hsubin.
      + left. split; [done|]. unfold pixel. by rewrite (Hloc x y Hsubin).
      + right. split; [done|].
        destruct (unchanged t h m B x y) eqn:Hu; [done|]. exfalso.
        rewrite <- (sameXY_unchanged t h m B PB x y HwB HloadB Hxy) in Hu.
        pose proof (Hcov x y Hxy I Hu) as Hc.
        rewrite Hr, Intersect_PtIn, Hxy in Hsubin.
        unfold final_crop in Hsubin. rewrite (PtIn_nonempty _ _ _ Hc), Hc in Hsubin.
        done. }
  assert (Hu : unchanged t h m B x y = true ->
               pixel h B x y = pixel h A x y \/ pixel h B x y = Some t).
  { unfold unchanged. rewrite Hmir.
    destruct (pixel_loc_wf h B x y HwB Hxy) as (b' & _ & _ & HlocB).
    rewrite (pixel_load h B PB x y HwB HloadB Hxy).
    rewrite (pixel_load h A PA x y HwA HloadA HxyA).
    destruct (PB !! _) as [p|] eqn:Ep, (PA !! _) as [q|] eqn:Eq; try done.
    - intros [->%bool_decide_eq_true| ->%bool_decide_eq_true]%orb_true_iff; auto.
    - exfalso. apply lookup_ge_None in Eq.
      pose proof (jof_bounds PA (mPix m) (image.Stride A) (image.PRect A)
                    (mStride m) (mRect m)) as Hb.
      destruct (load_wf h A HwA) as (? & ? & PA' & _ & _ & _ & HloadA' & _ & HlPA).
      rewrite HloadA in HloadA'. injection HloadA' as <-.
      destruct (pixel_loc_wf h A x y HwA HxyA) as (? & _ & Hk & _).
      unfold jof in Eq. lia.
    - exfalso. apply lookup_ge_None in Ep.
      destruct (pixel_loc_wf h B x y HwB Hxy) as (? & _ & Hk & _).
      unfold jof in Ep. lia.
    - exfalso. apply lookup_ge_None in Ep.
      destruct (pixel_loc_wf h B x y HwB Hxy) as (? & _ & Hk & _).
      unfold jof in Ep. lia. }
  assert (HB : is_Some (pixel h B x y)).
  { rewrite (pixel_load h B PB x y HwB HloadB Hxy).
    apply lookup_lt_is_Some.
    destruct (pixel_loc_wf h B x y HwB Hxy) as (? & _ & Hk & _).
    unfold jof. lia. }
  destruct HB as [p Hp].
  unfold composite.
  destruct Hret' as [[Hinr Hpix]|[Hout Hsame]].
  - rewrite Hinr, Hpix, Hnew.
    destruct (unchanged t h m B x y) eqn:Eu.
    + rewrite bool_decide_eq_true_2 by done.
      destruct (Hu eq_refl) as [HBA|HBt]; split_and!; auto; try congruence.
    + rewrite Hp. unfold unchanged in Eu. rewrite Hp in Eu.
      destruct (mirror_pixel m x y); [|done].
      apply orb_false_iff in Eu as [_ Hpt%bool_decide_eq_false].
      rewrite bool_decide_eq_false_2 by done.
      split_and!; try done; congruence.
  - rewrite Hout. destruct (Hu Hsame) as [HBA|HBt]; split_and!; auto; congruence.
Qed.

Lemma w_optimizer_wf : wf_optimizer 2 w_optimizer w_mirror.
Proof.
  constructor; [reflexivity|reflexivity|reflexivity|]. by exists 0%nat.
Defined.

Lemma w_frame_wf : wf_paletted w_heap w_frame.
Proof.
  constructor.
  - exists 0%nat, [5; 6]. split; [reflexivity|]. split; [reflexivity|]. simpl. lia.
  - simpl. lia.
  - simpl. lia.
  - unfold image.Dx. simpl. lia.
  - unfold image.Dx, image.Dy. simpl. lia.
Defined.

Lemma cx_A_wf : wf_paletted cx_heap cx_A.
Proof.
  constructor.
  - exists 0%nat, [0; 0; 0]. split; [reflexivity|]. split; [reflexivity|]. simpl. lia.
  - simpl. lia.
  - simpl. lia.
  - unfold image.Dx. simpl. lia.
  - unfold image.Dx, image.Dy. simpl. lia.
Defined.

Lemma cx_B_wf : wf_paletted cx_heap cx_B.
Proof.
  constructor.
  - exists 1%nat, [1; 2; 1]. split; [reflexivity|]. split; [reflexivity|]. simpl. lia.
  - simpl. lia.
  - simpl. lia.
  - unfold image.Dx. simpl. lia.
  - unfold image.Dx, image.Dy. simpl. lia.
Defined.

Lemma C9_witness :
  exists o' h',
    Optimize w_optimizer w_frame w_heap =
      Ret (inl (image.mkPaletted (image.mkSlice (Some 0%nat) 0 2) 2
                  (image.Rect 0 0 1 1) []), o', h').
Proof.
  apply (C9_unchanged_frame_gives_origin_pixel 2 w_optimizer w_mirror w_heap w_frame).
  - exact w_optimizer_wf.
  - exact w_frame_wf.
  - reflexivity.
  - intros x y Hin. unfold image.PtIn in Hin. simpl in Hin.
    assert (y = 0) as -> by lia.
    assert (x = 0 \/ x = 1) as [-> | ->] by lia; reflexivity.
Defined.

Lemma Optimize_mutates_in_place_witness :
  exists ret o' h',
    Optimize w_optimizer w_frame w_heap = Ret (inl ret, o', h') /\
    (forall x y, image.PtIn x y (image.PRect w_frame) = true ->
       pixel h' w_frame x y =
       if unchanged 2 w_heap w_mirror w_frame x y then Some 2
       else pixel w_heap w_frame x y) /\
    (forall b a,
       (forall x y, image.PtIn x y (image.PRect w_frame) = true ->
          pixel_loc w_frame x y <> Some (b, a)) ->
       heap_byte h' b a = heap_byte w_heap b a) /\
    dom h' = dom w_heap /\
    (ret = w_frame \/ exists crop, image.SubImage w_frame crop = Ret ret) /\
    (forall x y, image.PtIn x y (image.PRect ret) = true ->
       image.PtIn x y (image.PRect w_frame) = true /\
       pixel_loc ret x y = pixel_loc w_frame x y).
Proof.
  apply (Optimize_mutates_in_place 2 w_optimizer w_mirror w_heap w_frame).
  - exact w_optimizer_wf.
  - exact w_frame_wf.
  - reflexivity.
Defined.

Lemma C2_witness :
  exists o1 ret o2 h',
    Optimize (NewOptimizer 2) cx_A cx_heap = Ret (inl cx_A, o1, cx_heap) /\
    Optimize o1 cx_B cx_heap = Ret (inl ret, o2, h') /\
    forall x y, image.PtIn x y (image.PRect cx_B) = true ->
      (pixel cx_heap cx_B x y <> Some 2 ->
       composite 2 (pixel cx_heap cx_A x y) h' ret x y = pixel cx_heap cx_B x y) /\
      (pixel cx_heap cx_B x y = Some 2 ->
       composite 2 (pixel cx_heap cx_A x y) h' ret x y = pixel cx_heap cx_A x y) /\
      (image.PtIn x y (image.PRect ret) = true -> pixel h' ret x y = Some 2 ->
       pixel cx_heap cx_B x y = pixel cx_heap cx_A x y \/
       pixel cx_heap cx_B x y = Some 2).
Proof.
  apply (C2_composite_renders_frame 2 cx_heap cx_A cx_B).
  - exact cx_A_wf.
  - exact cx_B_wf.
  - reflexivity.
  - reflexivity.
  - reflexivity.
Defined.

(** C8, at a sub-image.  The first call returns the frame and leaves the
    heap alone, but the mirror it installs is the first two bytes of the
    window, [1 2]: at [(0, 1)] the frame shows [3] and the mirror holds
    [2], a pixel of the parent's other column. *)
Theorem C8_first_call_on_sub_image :
  exists m,
    Optimize (NewOptimizer 9) col_frame col_heap
      = Ret (inl col_frame, mkOptimizer (Some m) [9], col_heap) /\
    image.SubImage (image.mkPaletted (image.mkSlice (Some 0%nat) 0 4) 2
                      (image.Rect 0 0 2 2) [])
                   (image.Rect 0 0 1 2) = Ret col_frame /\
    pixel col_heap col_frame 0 1 = Some 3 /\
    mirror_pixel m 0 1 = Some 2.
Proof.
  eexists. split; [vm_compute; reflexivity|]. split; [reflexivity|].
  split; reflexivity.
Qed.

(** C10, on the fast path off the origin.  After the first call on [A],
    the call on [B] takes the fast path and works in place: the caller's
    buffer of [B] now holds [9 3].  But the crop that [optimizeByPix]
    builds, (0,0)-(2,2), is in coordinates of the buffer, not of the image;
    it misses the frame's rectangle (10,10)-(12,11), and what comes back is
    the empty image of [SubImage], with a nil [Pix]: it is not the argument,
    it shares no buffer with it, and the changed pixel [3] at (11,10) is not
    in it.  On the line path the same frames give the sub-image at
    (11,10)-(12,11) in the argument's buffer. *)
Theorem C10_fast_path_off_origin_returns_no_pixels :
  Optimize (NewOptimizer 9) off_A off_heap = Ret (inl off_A, off_optimizer, off_heap) /\
  fast_path_taken off_mirror off_B = true /\
  (exists o' h',
     Optimize off_optimizer off_B off_heap
       = Ret (inl (image.mkPaletted image.nilSlice 0 image.ZR []), o', h') /\
     h' !! 1%nat = Some [9; 3]) /\
  optimizeByPix 2 [1; 3] [1; 1] [9]
    = Ret (mkPixState (image.Rect 0 0 2 2) true 2 0 1 [9; 3] [1; 3] [9]) /\
  (exists s,
     optimizeByLine 2 (image.Rect 10 10 12 11) 2 (image.Rect 10 10 12 11)
       [1; 3] [1; 1] [9] = Ret s /\
     rs_crop s = image.Rect 11 10 12 11 /\
     image.SubImage off_B (rs_crop s)
       = Ret (image.mkPaletted (image.mkSlice (Some 1%nat) 1 1) 2
                (image.Rect 11 10 12 11) [])).
Proof.
  split_and!.
  - vm_compute. reflexivity.
  - reflexivity.
  - do 2 eexists. split; [vm_compute; reflexivity|]. vm_compute. reflexivity.
  - vm_compute. reflexivity.
  - eexists. split; [vm_compute; reflexivity|]. split; vm_compute; reflexivity.
Qed.

(** ** The encoder on a buffer *)

Lemma e_write_buffer (w : list Z) (g : option (Config * Z)) (p : list Z) :
  e_write (on_buffer w g) p = on_buffer (w ++ p) g.
Proof. reflexivity. Qed.

Lemma e_writeByte_buffer (w : list Z) (g : option (Config * Z)) (b : Z) :
  e_writeByte (on_buffer w g) b = on_buffer (w ++ [b]) g.
Proof. reflexivity. Qed.

Lemma e_WriteString_buffer (w : list Z) (g : option (Config * Z)) (p : list Z) :
  e_WriteString (on_buffer w g) p = on_buffer (w ++ p) g.
Proof. reflexivity. Qed.

Lemma frame_chunks_cons (c : list Z) (chunks : list (list Z)) :
  frame_chunks (c :: chunks) = uint8_of (len c) :: c ++ frame_chunks chunks.
Proof. unfold frame_chunks. simpl. by rewrite <- app_assoc. Qed.

Lemma writeStrings_buffer (strings : list (list Z)) : forall w g,
  writeStrings (on_buffer w g) strings = (on_buffer (w ++ frame_chunks strings) g, None).
Proof.
  induction strings as [|s rest IH]; intros w g.
  - reflexivity.
  - cbn [writeStrings]. rewrite e_writeByte_buffer. cbn [e_err on_buffer].
    rewrite e_WriteString_buffer. cbn [e_err on_buffer].
    rewrite IH, frame_chunks_cons. do 2 f_equal.
    rewrite <- !app_assoc. done.
Qed.

Lemma writeSubBlocks_buffer (subBlocks : list (list Z)) : forall w g,
  writeSubBlocks (on_buffer w g) subBlocks
  = (on_buffer (w ++ frame_chunks subBlocks) g, None).
Proof.
  induction subBlocks as [|s rest IH]; intros w g.
  - reflexivity.
  - cbn [writeSubBlocks]. rewrite e_writeByte_buffer. cbn [e_err on_buffer].
    rewrite e_write_buffer. cbn [e_err on_buffer].
    rewrite IH, frame_chunks_cons. do 2 f_equal.
    rewrite <- !app_assoc. done.
Qed.

(** What [WritePlainText] puts on a buffer once the strings pass the
    validation. *)
Lemma WritePlainText_buffer (w : list Z) (g : option (Config * Z)) (pt : PlainText) :
  validateStrings (pt_Strings pt) = None ->
  WritePlainText (on_buffer w g) pt =
  (on_buffer (w ++ (if (pt_DelayTime pt >? 0) || negb (pt_DisposalMethod pt =? 0)
                    then plain_text_gce pt else []) ++
              plain_text_head pt ++ frame_chunks (pt_Strings pt)) g, None).
Proof.
  intros Hv. unfold WritePlainText. rewrite Hv.
  destruct ((pt_DelayTime pt >? 0) || negb (pt_DisposalMethod pt =? 0)).
  - rewrite !e_write_buffer. cbn [e_err on_buffer].
    rewrite writeStrings_buffer. by rewrite <- !app_assoc.
  - rewrite !e_write_buffer. cbn [e_err on_buffer].
    rewrite writeStrings_buffer. by rewrite <- !app_assoc.
Qed.

(** C7.  On a buffer, with no error latched, for a plain text that passes
    the validation and has a delay that is not negative: [WritePlainText]
    succeeds, and what it appends is the eight bytes of a graphic control
    extension exactly when the delay or the disposal method is non-zero,
    nothing otherwise, followed at once by the plain text extension. *)
Theorem C7_plain_text_graphic_control
    (w : list Z) (g : option (Config * Z)) (pt : PlainText) :
  validateStrings (pt_Strings pt) = None ->
  0 <= pt_DelayTime pt ->
  exists gce,
    WritePlainText (on_buffer w g) pt =
      (on_buffer (w ++ gce ++ plain_text_head pt ++ frame_chunks (pt_Strings pt)) g,
       None) /\
    (pt_DelayTime pt <> 0 \/ pt_DisposalMethod pt <> 0 ->
       gce = plain_text_gce pt /\
       take 3 gce = [sExtension; eGraphicControl; 0x04] /\ length gce = 8%nat) /\
    (pt_DelayTime pt = 0 /\ pt_DisposalMethod pt = 0 -> gce = []) /\
    take 3 (plain_text_head pt) = [sExtension; eText; 0x0c].
Proof.
  intros Hv Hd.
  exists (if (pt_DelayTime pt >? 0) || negb (pt_DisposalMethod pt =? 0)
          then plain_text_gce pt else []).
  split; [by apply WritePlainText_buffer|].
  split_and!.
  - intros Hnz.
    assert ((pt_DelayTime pt >? 0) || negb (pt_DisposalMethod pt =? 0) = true) as -> by lia.
    done.
  - intros [Hz1 Hz2].
    assert ((pt_DelayTime pt >? 0) || negb (pt_DisposalMethod pt =? 0) = false) as -> by lia.
    done.
  - reflexivity.
Qed.

Lemma C7_witness :
  exists gce,
    WritePlainText (on_buffer [] None)
      (mkPlainText 1 2 3 4 5 6 7 8 [bytes_of "hello"] (90 * time_Millisecond) 2) =
      (on_buffer ([] ++ gce ++
         plain_text_head (mkPlainText 1 2 3 4 5 6 7 8 [bytes_of "hello"]
                            (90 * time_Millisecond) 2) ++
         frame_chunks [bytes_of "hello"]) None, None) /\
    gce = [0x21; 0xF9; 0x04; 0x08; 0x09; 0x00; 0x00; 0x00].
Proof.
  destruct (C7_plain_text_graphic_control [] None
              (mkPlainText 1 2 3 4 5 6 7 8 [bytes_of "hello"] (90 * time_Millisecond) 2))
    as (gce & Hw & Hnz & _ & _).
  - reflexivity.
  - vm_compute. discriminate.
  - exists gce. split; [exact Hw|].
    destruct Hnz as (-> & _ & _); [left; vm_compute; discriminate|]. reflexivity.
Defined.

(** C3, at a string with the byte [0xFF].  [validateString] compares the
    index of each character with [unicode.MaxASCII], not its value: the
    comment and the plain text holding the one-byte string [0xFF] are
    accepted, and their bytes reach the sink. *)
Theorem C3_non_ascii_string_is_written :
  validateString [0xFF] = None /\
  WriteComment (on_buffer [] None) (mkComment [[0xFF]])
    = (on_buffer [0x21; 0xFE; 0x01; 0xFF; 0x00] None, None) /\
  WritePlainText (on_buffer [] None) (mkPlainText 0 0 0 0 0 0 0 0 [[0xFF]] 0 0)
    = (on_buffer [0x21; 0x01; 0x0c; 0; 0; 0; 0; 0; 0; 0; 0; 0; 0; 0; 0;
                  0x01; 0xFF; 0x00] None, None).
Proof. split_and!; reflexivity. Qed.

(** ** The byte source *)

Section decoder_reads.
Context `{ImageCodec}.

Lemma d_r_set_r (d : decoder) (r : list Z) : d_r (set_r d r) = r.
Proof. reflexivity. Qed.

Lemma set_r_set_r (d : decoder) (r r' : list Z) : set_r (set_r d r) r' = set_r d r'.
Proof. reflexivity. Qed.

Lemma set_r_id (d : decoder) : set_r d (d_r d) = d.
Proof. by destruct d. Qed.

Lemma readByte_cons (d : decoder) (b : Z) (rest : list Z) :
  d_r d = b :: rest -> readByte d = (inl b, set_r d rest).
Proof. intros Hr. unfold readByte. by rewrite Hr. Qed.

Lemma readByte_nil (d : decoder) :
  d_r d = [] -> readByte d = (inr io_ErrUnexpectedEOF, d).
Proof. intros Hr. unfold readByte. by rewrite Hr. Qed.

Lemma readByte_shrinks (d d' : decoder) (b : Z) :
  readByte d = (inl b, d') -> d_r d = b :: d_r d' /\ d' = set_r d (d_r d').
Proof.
  unfold readByte. destruct (d_r d) as [|b0 rest] eqn:Hr; [done|].
  intros [= <- <-]. by rewrite d_r_set_r.
Qed.

Lemma readFull_app (d : decoder) (chunk rest : list Z) :
  d_r d = chunk ++ rest ->
  readFull d (length chunk) = (inl chunk, set_r d rest).
Proof.
  intros Hr. unfold readFull. rewrite Hr.
  rewrite decide_True by (rewrite length_app; lia).
  by rewrite take_app_length, drop_app_length.
Qed.

Lemma readFull_shrinks (d d' : decoder) (n : nat) (chunk : list Z) :
  readFull d n = (inl chunk, d') ->
  d_r d = chunk ++ d_r d' /\ length chunk = n /\ d' = set_r d (d_r d').
Proof.
  unfold readFull. case_decide as Hn; [|done].
  intros [= <- <-]. rewrite d_r_set_r, take_drop, length_take. split_and!; [done|lia|done].
Qed.

Lemma readBlock_chunk (d : decoder) (c rest : list Z) :
  chunk_ok c -> d_r d = uint8_of (len c) :: c ++ rest ->
  readBlock d = (inl c, set_r d rest).
Proof.
  intros Hc Hr. unfold readBlock. rewrite (readByte_cons d _ _ Hr).
  unfold chunk_ok, uint8_of in *.
  rewrite Z.mod_small by lia.
  destruct (len c =? 0) eqn:E; [lia|].
  unfold len. rewrite Nat2Z.id.
  rewrite (readFull_app (set_r d (c ++ rest)) c rest) by done.
  done.
Qed.

Lemma readBlock_end (d : decoder) (rest : list Z) :
  d_r d = 0 :: rest -> readBlock d = (inl [], set_r d rest).
Proof. intros Hr. unfold readBlock. by rewrite (readByte_cons d _ _ Hr). Qed.

Lemma readBlock_shrinks (d d' : decoder) (chunk : list Z) :
  readBlock d = (inl chunk, d') ->
  (length (d_r d') < length (d_r d))%nat /\ d' = set_r d (d_r d').
Proof.
  unfold readBlock. destruct (readByte d) as [[n|err] d1] eqn:Hb; [|done].
  apply readByte_shrinks in Hb as [Hr Hd1].
  destruct (n =? 0).
  - intros [= <- <-]. rewrite Hr. simpl. split; [lia|done].
  - intros Hf. apply readFull_shrinks in Hf as (Hr1 & _ & Hd').
    rewrite Hr, Hr1. simpl. rewrite length_app. split; [lia|].
    rewrite Hd', Hd1. reflexivity.
Qed.

Lemma readStrings_loop_unfold (fuel : nat) (d : decoder) (strings : list (list Z)) :
  readStrings_loop fuel d strings =
  match readBlock d with
  | (inr err, d) => Ret (inr err, d)
  | (inl chunk, d) =>
      if len chunk =? 0 then Ret (inl strings, d)
      else match fuel with
           | O => Diverge
           | S fuel' => readStrings_loop fuel' d (strings ++ [chunk])
           end
  end.
Proof. by destruct fuel. Qed.

Lemma readSubBlocks_loop_eq (fuel : nat) : forall (d : decoder) (sb : list (list Z)),
  readSubBlocks_loop fuel d sb = readStrings_loop fuel d sb.
Proof.
  induction fuel as [|fuel IH]; intros d sb; [done|].
  cbn [readSubBlocks_loop readStrings_loop].
  destruct (readBlock d) as [[chunk|err] d']; [|done].
  destruct (len chunk =? 0); [done|]. apply IH.
Qed.

(** The chunk reader gives back the chunks that were framed, and stops
    right after the terminator. *)
Lemma readStrings_loop_chunks (chunks : list (list Z)) :
  forall (fuel : nat) (d : decoder) (acc : list (list Z)) (rest : list Z),
  Forall chunk_ok chunks ->
  d_r d = frame_chunks chunks ++ rest ->
  (length chunks <= fuel)%nat ->
  readStrings_loop fuel d acc = Ret (inl (acc ++ chunks), set_r d rest).
Proof.
  induction chunks as [|c chunks IH]; intros fuel d acc rest Hok Hr Hfuel.
  - rewrite readStrings_loop_unfold, (readBlock_end d rest) by done.
    cbn. by rewrite app_nil_r.
  - apply Forall_cons in Hok as [Hc Hok].
    rewrite frame_chunks_cons in Hr. cbn [app] in Hr. rewrite <- app_assoc in Hr.
    rewrite readStrings_loop_unfold, (readBlock_chunk d c _ Hc Hr).
    unfold chunk_ok in Hc. destruct (len c =? 0) eqn:E; [lia|].
    destruct fuel as [|fuel]; [simpl in Hfuel; lia|].
    rewrite (IH fuel _ (acc ++ [c]) rest Hok); [|by rewrite d_r_set_r|simpl in Hfuel; lia].
    by rewrite set_r_set_r, <- app_assoc.
Qed.

Lemma frame_chunks_length (chunks : list (list Z)) :
  (length chunks < length (frame_chunks chunks))%nat.
Proof.
  induction chunks as [|c chunks IH]; [simpl; lia|].
  rewrite frame_chunks_cons. simpl. rewrite length_app. lia.
Qed.

Lemma readStrings_chunks (d : decoder) (chunks : list (list Z)) (rest : list Z) :
  Forall chunk_ok chunks ->
  d_r d = frame_chunks chunks ++ rest ->
  readStrings d = Ret (inl chunks, set_r d rest).
Proof.
  intros Hok Hr. unfold readStrings.
  rewrite (readStrings_loop_chunks chunks _ d [] rest Hok Hr); [done|].
  rewrite Hr, length_app. pose proof (frame_chunks_length chunks). lia.
Qed.

Lemma readSubBlocks_chunks (d : decoder) (chunks : list (list Z)) (rest : list Z) :
  Forall chunk_ok chunks ->
  d_r d = frame_chunks chunks ++ rest ->
  readSubBlocks d = Ret (inl chunks, set_r d rest).
Proof.
  intros Hok Hr. unfold readSubBlocks. rewrite readSubBlocks_loop_eq.
  by apply readStrings_chunks.
Qed.

(** The chunk reader always returns: the bytes left bound its iterations.
    It changes nothing in the decoder but the source. *)
Lemma readStrings_loop_total (fuel : nat) :
  forall (d : decoder) (acc : list (list Z)),
  (length (d_r d) <= fuel)%nat ->
  exists r d', readStrings_loop fuel d acc = Ret (r, d') /\ d' = set_r d (d_r d').
Proof.
  induction fuel as [|fuel IH]; intros d acc Hfuel.
  - rewrite readStrings_loop_unfold.
    assert (d_r d = []) as Hr by (destruct (d_r d); [done|simpl in Hfuel; lia]).
    unfold readBlock. rewrite (readByte_nil d Hr). do 2 eexists. split; [done|].
    by rewrite set_r_id.
  - rewrite readStrings_loop_unfold.
    destruct (readBlock d) as [[chunk|err] d1] eqn:Hb.
    + apply readBlock_shrinks in Hb as [Hlt Hd1].
      destruct (len chunk =? 0); [by eauto|].
      destruct (IH d1 (acc ++ [chunk])) as (r & d' & -> & Hd'); [lia|].
      do 2 eexists. split; [done|]. rewrite Hd', Hd1. reflexivity.
    + do 2 eexists. split; [done|].
      unfold readBlock in Hb. destruct (readByte d) as [[n|e] d2] eqn:Hrb.
      * apply readByte_shrinks in Hrb as [_ Hd2].
        destruct (n =? 0); [done|].
        unfold readFull in Hb. case_decide; [done|]. injection Hb as _ <-.
        rewrite Hd2. reflexivity.
      * injection Hb as _ <-. unfold readByte in Hrb.
        destruct (d_r d); [|done]. injection Hrb as _ <-. by rewrite set_r_id.
Qed.

Lemma readStrings_total (d : decoder) :
  exists r d', readStrings d = Ret (r, d') /\ d' = set_r d (d_r d').
Proof. by apply readStrings_loop_total. Qed.

End decoder_reads.

(** ** The block iterator *)

Section block_iterator.
Context `{ImageCodec}.

Lemma ReadBlock_loop_unfold (fuel : nat) (d : decoder) :
  ReadBlock_loop fuel d =
  match readByte d with
  | (inr err, d) => Ret (inr (fmt_Errorf_v "gif: reading block: %v" err), d)
  | (inl c, d) =>
      if c =? sExtension then
        '(r, d) ← readExtension_ d;
        match r with
        | ExtBlock b => Ret (inl b, d)
        | ExtErr err => Ret (inr err, d)
        | ExtNone =>
            match fuel with
            | O => Diverge
            | S fuel' => ReadBlock_loop fuel' d
            end
        end
      else if c =? sImageDescriptor then read_frame d
      else if c =? sTrailer then Ret (inr io_EOF, d)
      else Ret (inr (fmt_Errorf_d "gif: unknown block type: 0x%.2x" c), d)
  end.
Proof. by destruct fuel. Qed.

(** A graphic control extension after its label: the size byte 4, the
    packed byte, the delay, the transparent index and the terminator 0. *)
Lemma readGraphicControl_ok (d : decoder) (flags d0 d1 ti : Z) (rest : list Z) :
  d_r d = 4 :: flags :: d0 :: d1 :: ti :: 0 :: rest ->
  readGraphicControl d = (None, after_graphic_control d flags d0 d1 ti rest).
Proof.
  intros Hr. unfold readGraphicControl.
  pose proof (readFull_app d [4; flags; d0; d1; ti; 0] rest Hr) as Hf.
  cbn [length] in Hf. rewrite Hf.
  reflexivity.
Qed.

Lemma readGraphicControl_inv (d d' : decoder) :
  readGraphicControl d = (None, d') ->
  exists flags d0 d1 ti rest,
    d_r d = 4 :: flags :: d0 :: d1 :: ti :: 0 :: rest /\
    d' = after_graphic_control d flags d0 d1 ti rest.
Proof.
  unfold readGraphicControl.
  destruct (readFull d 6) as [[tmp|err] d1] eqn:Hf; [|done].
  apply readFull_shrinks in Hf as (Hr & Hlen & Hd1).
  destruct tmp as [|size [|flags [|d0 [|d1' [|ti [|term [|]]]]]]]; try done.
  destruct (size =? 4) eqn:E; [|done]. cbn [negb]. cbv zeta.
  destruct (term =? 0) eqn:E0; [|done]. cbn [negb].
  intros [= <-]. assert (size = 4) as -> by lia. assert (term = 0) as -> by lia.
  exists flags, d0, d1', ti, (d_r d1). split; [done|].
  rewrite Hd1. reflexivity.
Qed.

(** A graphic control extension with another terminator is an error. *)
Lemma readGraphicControl_terminator (d : decoder) (flags d0 d1 ti term : Z)
    (rest : list Z) :
  d_r d = 4 :: flags :: d0 :: d1 :: ti :: term :: rest -> term <> 0 ->
  readGraphicControl d =
    (Some (fmt_Errorf_d "gif: invalid graphic control extension block terminator: %d"
             term),
     after_graphic_control d flags d0 d1 ti rest).
Proof.
  intros Hr Hterm. unfold readGraphicControl.
  pose proof (readFull_app d [4; flags; d0; d1; ti; term] rest Hr) as Hf.
  cbn [length] in Hf. rewrite Hf. cbn match. change (negb (4 =? 4)) with false.
  cbv zeta. cbn match.
  assert ((term =? 0) = false) as -> by lia. reflexivity.
Qed.

(** [readExtension_] returns neither block nor error only for a graphic
    control extension, and then only the pending scratch and the source
    have changed. *)
Lemma readExtension_none (d d' : decoder) :
  readExtension_ d = Ret (ExtNone, d') ->
  exists flags d0 d1 ti rest,
    d_r d = eGraphicControl :: 4 :: flags :: d0 :: d1 :: ti :: 0 :: rest /\
    d' = after_graphic_control d flags d0 d1 ti rest.
Proof.
  unfold readExtension_.
  destruct (readByte d) as [[label|err] d1] eqn:Hb; [|done].
  apply readByte_shrinks in Hb as [Hr Hd1].
  destruct (label =? eText) eqn:E1.
  { destruct (readPlainText d1) as [[[?|?] ?]| |]; done. }
  destruct (label =? eGraphicControl) eqn:E2.
  { destruct (readGraphicControl d1) as [[err|] d2] eqn:Hg; [done|].
    intros [= <-]. apply readGraphicControl_inv in Hg
      as (flags & d0 & d1' & ti & rest & Hr1 & Hd2).
    exists flags, d0, d1', ti, rest. split.
    - rewrite Hr, Hr1. f_equal. lia.
    - rewrite Hd2, Hd1. reflexivity. }
  destruct (label =? eComment) eqn:E3.
  { destruct (readComment d1) as [[[?|?] ?]| |]; done. }
  destruct (label =? eApplication) eqn:E4.
  { destruct (readApplication d1) as [[[?|?] ?]| |]; done. }
  destruct (readUnknownExtension d1 label) as [[[?|?] ?]| |]; done.
Qed.

(** The fuel of the loop does not matter once it covers the bytes left. *)
Lemma ReadBlock_loop_fuel (fuel1 : nat) : forall (fuel2 : nat) (d : decoder),
  (length (d_r d) <= fuel1)%nat -> (length (d_r d) <= fuel2)%nat ->
  ReadBlock_loop fuel1 d = ReadBlock_loop fuel2 d.
Proof.
  induction fuel1 as [|fuel1 IH]; intros fuel2 d H1 H2.
  - assert (d_r d = []) as Hr by (destruct (d_r d); [done|simpl in H1; lia]).
    rewrite !ReadBlock_loop_unfold, (readByte_nil d Hr). done.
  - rewrite !(ReadBlock_loop_unfold _ d).
    destruct (readByte d) as [[c|err] d1] eqn:Hb; [|done].
    apply readByte_shrinks in Hb as [Hr _].
    destruct (c =? sExtension); [|done].
    destruct (readExtension_ d1) as [[[b|err|] d2]| |] eqn:He; try done.
    apply readExtension_none in He as (? & ? & ? & ? & rest & Hr1 & ->).
    cbn [mbind outcome_bind].
    rewrite Hr, Hr1 in H1, H2. simpl in H1, H2.
    destruct fuel2 as [|fuel2]; [lia|].
    apply IH; cbn [after_graphic_control d_r]; lia.
Qed.

(** [ReadBlock] past a graphic control extension is [ReadBlock] on the
    decoder with the pending scratch updated. *)
Lemma ReadBlock_graphic_control (d : decoder) (flags d0 d1 ti : Z)
    (rest : list Z) :
  d_r d = sExtension :: eGraphicControl :: 4 :: flags :: d0 :: d1 :: ti :: 0 :: rest ->
  ReadBlock d = ReadBlock (after_graphic_control d flags d0 d1 ti rest).
Proof.
  intros Hr. unfold ReadBlock at 1. rewrite ReadBlock_loop_unfold.
  rewrite (readByte_cons d _ _ Hr). change (sExtension =? sExtension) with true.
  cbn match. unfold readExtension_.
  rewrite (readByte_cons (set_r d _) eGraphicControl
             (4 :: flags :: d0 :: d1 :: ti :: 0 :: rest)) by done.
  change (eGraphicControl =? eText) with false.
  change (eGraphicControl =? eGraphicControl) with true. cbn match.
  rewrite set_r_set_r.
  rewrite (readGraphicControl_ok _ flags d0 d1 ti rest) by done.
  cbn [mbind outcome_bind]. rewrite Hr. cbn [length].
  apply ReadBlock_loop_fuel; cbn [after_graphic_control d_r]; lia.
Qed.

(** [readPlainText] returns an error or a plain text that carries the
    pending delay and disposal, and then the scratch is clear. *)
Lemma readPlainText_carries (d : decoder) :
  exists r d', readPlainText d = Ret (r, d') /\
    match r with
    | inl pt =>
        pt_DelayTime pt = uint16_of (d_delayTime d) /\
        pt_DisposalMethod pt = d_disposalMethod d /\
        scratch_clear d' /\ queues_empty d = queues_empty d'
    | inr _ => True
    end.
Proof.
  unfold readPlainText.
  destruct (readFull d 13) as [[tmp|err] d1] eqn:Hf; [|do 2 eexists; split; [reflexivity|exact I]].
  apply readFull_shrinks in Hf as (Hr & Hlen & Hd1).
  do 13 (destruct tmp as [|? tmp]; [done|]). destruct tmp; [|done].
  destruct (negb (_ =? 12)); [do 2 eexists; split; [reflexivity|exact I]|].
  cbn [readUint16 mbind outcome_bind].
  destruct (readStrings_total d1) as (r & d2 & -> & Hd2). cbn [mbind outcome_bind].
  destruct r as [strings|err]; [|do 2 eexists; split; [reflexivity|exact I]].
  do 2 eexists. split; [done|]. cbn [pt_DelayTime pt_DisposalMethod].
  rewrite Hd1. split_and!; try done.
  rewrite Hd2, Hd1. reflexivity.
Qed.

(** [read_frame] returns an error or a frame that carries the pending
    delay, disposal and transparent index, and then the pending delay and
    transparency flag are clear, the disposal method is still pending, and
    the queues are empty again. *)
Lemma read_frame_carries (d : decoder) :
  queues_empty d ->
  exists r d', read_frame d = Ret (r, d') /\
    match r with
    | inl (BFrame f) =>
        f_DelayTime f = uint16_of (d_delayTime d) /\
        f_DisposalMethod f = d_disposalMethod d /\
        decode_image (d_hdr d) (pending_transparent d) (d_r d) = inl (f_Image f, d_r d') /\
        scratch_idle d' /\ d_disposalMethod d' = d_disposalMethod d /\
        queues_empty d'
    | inl _ => False
    | inr _ => True
    end.
Proof.
  intros (Hi & Hd & Hp). unfold read_frame, readImageDescriptor.
  fold (pending_transparent d).
  destruct (decode_image _ _ _) as [[m rest]|err] eqn:Hdec; [|do 2 eexists; split; [reflexivity|exact I]].
  cbn [d_image d_delay d_disposal]. rewrite Hi, Hd, Hp.
  cbn [app lookup list_lookup of_option mbind outcome_bind].
  do 2 eexists. split; [done|]. cbn [f_DelayTime f_DisposalMethod f_Image d_r].
  split_and!; done.
Qed.

End block_iterator.

(** ** The claims about the block iterator *)

Section iterator_claims.
Context `{ImageCodec}.

Lemma readStrings_same_scratch (d d' : decoder) r :
  readStrings d = Ret (r, d') -> same_scratch d d' /\ d_loopCount d' = d_loopCount d.
Proof.
  intros Hr. destruct (readStrings_total d) as (r0 & d0 & Hr0 & Hd0).
  rewrite Hr in Hr0. injection Hr0 as <- <-. by rewrite Hd0.
Qed.

Lemma readSubBlocks_same_scratch (d d' : decoder) r :
  readSubBlocks d = Ret (r, d') -> same_scratch d d'.
Proof.
  unfold readSubBlocks. rewrite readSubBlocks_loop_eq.
  intros Hr. by apply readStrings_same_scratch in Hr as [? _].
Qed.

Lemma same_scratch_trans (d1 d2 d3 : decoder) :
  same_scratch d1 d2 -> same_scratch d2 d3 -> same_scratch d1 d3.
Proof. unfold same_scratch. intros (?&?&?&?) (?&?&?&?). split_and!; congruence. Qed.

Lemma readByte_same_scratch (d d' : decoder) r :
  readByte d = (r, d') -> same_scratch d d'.
Proof.
  unfold readByte. destruct (d_r d); intros [= <- <-]; done.
Qed.

Lemma readFull_same_scratch (d d' : decoder) n r :
  readFull d n = (r, d') -> same_scratch d d'.
Proof.
  unfold readFull. case_decide; intros [= <- <-]; done.
Qed.

Lemma readBlock_same_scratch (d d' : decoder) r :
  readBlock d = (r, d') -> same_scratch d d'.
Proof.
  unfold readBlock. destruct (readByte d) as [[n|err] d1] eqn:Hb.
  - apply readByte_same_scratch in Hb. destruct (n =? 0).
    + by intros [= <- <-].
    + intros Hf%readFull_same_scratch. by eapply same_scratch_trans.
  - apply readByte_same_scratch in Hb. by intros [= <- <-].
Qed.

Lemma readApplication_same_scratch (d d' : decoder) r :
  readApplication d = Ret (r, d') -> same_scratch d d'.
Proof.
  unfold readApplication.
  destruct (readByte d) as [[b|err] d1] eqn:Hb;
    apply readByte_same_scratch in Hb; [|by intros [= <- <-]].
  destruct (readFull d1 (Z.to_nat b)) as [[id|err] d2] eqn:Hf;
    apply readFull_same_scratch in Hf;
    [|intros [= <- <-]; by eapply same_scratch_trans].
  assert (same_scratch d d2) as H2 by (by eapply same_scratch_trans).
  case_bool_decide.
  - destruct (readBlock d2) as [[tmp|err] d3] eqn:Hblk;
      apply readBlock_same_scratch in Hblk;
      [|intros [= <- <-]; by eapply same_scratch_trans].
    assert (same_scratch d d3) as H3 by (by eapply same_scratch_trans).
    destruct ((len tmp =? 3) && bool_decide (tmp !! 0%nat = Some 1)).
    + destruct (readUint16 (drop 1 tmp)) as [n| |]; [|done|done].
      cbn [mbind outcome_bind].
      destruct (readSubBlocks (set_loopCount d3 n)) as [[r4 d4]| |] eqn:Hsb; [|done|done].
      apply readSubBlocks_same_scratch in Hsb. cbn [mbind outcome_bind].
      assert (same_scratch d d4) by (eapply same_scratch_trans; [exact H3|exact Hsb]).
      destruct r4; by intros [= <- <-].
    + cbn [mbind outcome_bind].
      destruct (readSubBlocks d3) as [[r4 d4]| |] eqn:Hsb; [|done|done].
      apply readSubBlocks_same_scratch in Hsb. cbn [mbind outcome_bind].
      assert (same_scratch d d4) by (by eapply same_scratch_trans).
      destruct r4; by intros [= <- <-].
  - destruct (readSubBlocks d2) as [[r4 d4]| |] eqn:Hsb; [|done|done].
    apply readSubBlocks_same_scratch in Hsb. cbn [mbind outcome_bind].
    assert (same_scratch d d4) by (by eapply same_scratch_trans).
    destruct r4; by intros [= <- <-].
Qed.

(** X17.  A graphic control extension is not returned as a block.  For a
    decoder whose queues are empty, as they are between calls:
    - when the stream is at a graphic control extension with the terminator
      0, [ReadBlock] goes on to the next block with only the pending delay,
      disposal and transparent index updated; with another terminator it
      returns an error;
    - at a plain text extension it returns an error or a plain text that
      carries the pending delay and disposal, and the scratch is clear
      afterwards;
    - at an image descriptor it returns an error or a frame that carries
      the pending delay and disposal, decoded with the pending transparent
      index; afterwards the pending delay and transparency flag are clear
      and the disposal method is still pending;
    - at any other extension the pending scratch is left as it is. *)
Theorem graphic_control_is_merged (d : decoder) (rest : list Z) :
  queues_empty d ->
  (forall flags d0 d1 ti,
     d_r d = sExtension :: eGraphicControl :: 4 :: flags :: d0 :: d1 :: ti :: 0 :: rest ->
     ReadBlock d = ReadBlock (after_graphic_control d flags d0 d1 ti rest) /\
     queues_empty (after_graphic_control d flags d0 d1 ti rest)) /\
  (forall flags d0 d1 ti term,
     d_r d = sExtension :: eGraphicControl :: 4 :: flags :: d0 :: d1 :: ti :: term :: rest ->
     term <> 0 ->
     ReadBlock d =
       Ret (inr (fmt_Errorf_d
                   "gif: invalid graphic control extension block terminator: %d" term),
            after_graphic_control d flags d0 d1 ti rest)) /\
  (d_r d = sExtension :: eText :: rest ->
     exists r d', ReadBlock d = Ret (r, d') /\
       match r with
       | inl (BPlainText pt) =>
           pt_DelayTime pt = uint16_of (d_delayTime d) /\
           pt_DisposalMethod pt = d_disposalMethod d /\
           scratch_clear d' /\ queues_empty d'
       | inl _ => False
       | inr _ => True
       end) /\
  (d_r d = sImageDescriptor :: rest ->
     exists r d', ReadBlock d = Ret (r, d') /\
       match r with
       | inl (BFrame f) =>
           f_DelayTime f = uint16_of (d_delayTime d) /\
           f_DisposalMethod f = d_disposalMethod d /\
           decode_image (d_hdr d) (pending_transparent d) rest = inl (f_Image f, d_r d') /\
           scratch_idle d' /\ d_disposalMethod d' = d_disposalMethod d /\
           queues_empty d'
       | inl _ => False
       | inr _ => True
       end) /\
  (forall label r d',
     d_r d = sExtension :: label :: rest ->
     label <> eText -> label <> eGraphicControl ->
     ReadBlock d = Ret (r, d') -> same_scratch d d').
Proof.
  intros Hq. split_and!.
  - intros flags d0 d1 ti Hr.
    split; [by apply (ReadBlock_graphic_control d flags d0 d1 ti rest)|done].
  - intros flags d0 d1 ti term Hr Hterm.
    unfold ReadBlock. rewrite ReadBlock_loop_unfold.
    rewrite (readByte_cons d _ _ Hr). change (sExtension =? sExtension) with true.
    cbn match. unfold readExtension_.
    rewrite (readByte_cons (set_r d _) eGraphicControl
               (4 :: flags :: d0 :: d1 :: ti :: term :: rest)) by done.
    change (eGraphicControl =? eText) with false.
    change (eGraphicControl =? eGraphicControl) with true. cbn match.
    rewrite set_r_set_r.
    rewrite (readGraphicControl_terminator _ flags d0 d1 ti term rest) by done.
    reflexivity.
  - intros Hr. unfold ReadBlock. rewrite ReadBlock_loop_unfold.
    rewrite (readByte_cons d _ _ Hr). change (sExtension =? sExtension) with true.
    cbn match. unfold readExtension_.
    rewrite (readByte_cons (set_r d _) eText rest) by done.
    change (eText =? eText) with true. cbn match. rewrite set_r_set_r.
    destruct (readPlainText_carries (set_r d rest)) as (r & d' & -> & Hres).
    cbn [mbind outcome_bind].
    destruct r as [pt|err].
    + do 2 eexists. split; [reflexivity|]. cbn match.
      destruct Hres as (? & ? & ? & Hqe). split_and!; try done.
      by rewrite <- Hqe.
    + do 2 eexists. split; [reflexivity|done].
  - intros Hr. unfold ReadBlock. rewrite ReadBlock_loop_unfold.
    rewrite (readByte_cons d _ _ Hr).
    change (sImageDescriptor =? sExtension) with false.
    change (sImageDescriptor =? sImageDescriptor) with true. cbn match.
    destruct (read_frame_carries (set_r d rest)) as (r & d' & -> & Hres); [done|].
    do 2 eexists. split; [reflexivity|]. done.
  - intros label r d' Hr Ht Hg. unfold ReadBlock. rewrite ReadBlock_loop_unfold.
    rewrite (readByte_cons d _ _ Hr). change (sExtension =? sExtension) with true.
    cbn match. unfold readExtension_.
    rewrite (readByte_cons (set_r d _) label rest) by done. rewrite set_r_set_r.
    destruct (label =? eText) eqn:E1; [lia|].
    destruct (label =? eGraphicControl) eqn:E2; [lia|].
    assert (same_scratch d (set_r d rest)) as H0 by done.
    destruct (label =? eComment).
    { unfold readComment.
      destruct (readStrings (set_r d rest)) as [[r1 d1]| |] eqn:Hs; [|done|done].
      apply readStrings_same_scratch in Hs as [Hs _]. cbn [mbind outcome_bind].
      destruct r1; cbn [mbind outcome_bind]; intros [= <- <-];
        by eapply same_scratch_trans. }
    destruct (label =? eApplication).
    { destruct (readApplication (set_r d rest)) as [[r1 d1]| |] eqn:Ha; [|done|done].
      apply readApplication_same_scratch in Ha. cbn [mbind outcome_bind].
      destruct r1; intros [= <- <-]; by eapply same_scratch_trans. }
    unfold readUnknownExtension.
    destruct (readSubBlocks (set_r d rest)) as [[r1 d1]| |] eqn:Hs; [|done|done].
    apply readSubBlocks_same_scratch in Hs. cbn [mbind outcome_bind].
    destruct r1; cbn [mbind outcome_bind]; intros [= <- <-];
      by eapply same_scratch_trans.
Qed.

(** C6, amended.  On reading the trailer [ReadBlock] reports the end of
    the stream, having read that one byte and changed nothing else.  The
    decoder keeps no terminal state: the next call reads on from the byte
    after the trailer, and on an exhausted source it reports the read
    error, not the end of the stream. *)
Theorem C6_trailer_keeps_no_terminal_state (d : decoder) (rest : list Z) :
  ReadBlock (set_r d (sTrailer :: rest)) = Ret (inr io_EOF, set_r d rest) /\
  ReadBlock (set_r d []) =
    Ret (inr (fmt_Errorf_v "gif: reading block: %v" io_ErrUnexpectedEOF), set_r d []).
Proof.
  split.
  - unfold ReadBlock. rewrite ReadBlock_loop_unfold.
    rewrite (readByte_cons _ sTrailer rest) by done. by rewrite set_r_set_r.
  - reflexivity.
Qed.

(** C4, at an application extension without the loop sub-block.  A decoder
    from [NewDecoder] starts with the loop count 0, and [ReadBlock] reports
    that 0; after a block that did set the loop count, a later one without
    the loop sub-block reports the earlier value. *)
Theorem C4_loop_count_is_not_minus_one :
  d_loopCount (NewDecoder []) = 0 /\
  ReadBlock (NewDecoder ([0x21; 0xFF; 0x0B] ++ bytes_of "NETSCAPE2.0" ++
                         [0x02; 0x01; 0x00; 0x00]))
    = Ret (inl (BApplicationNetscape (mkApplicationNetscape 0 [])), NewDecoder []) /\
  ReadBlock (set_loopCount
               (NewDecoder ([0x21; 0xFF; 0x0B] ++ bytes_of "NETSCAPE2.0" ++
                            [0x02; 0x01; 0x00; 0x00])) 5)
    = Ret (inl (BApplicationNetscape (mkApplicationNetscape 5 [])),
           set_loopCount (NewDecoder []) 5) /\
  ReadBlock (NewDecoder ([0x21; 0xFF; 0x0B] ++ bytes_of "NETSCAPE2.0" ++
                         [0x03; 0x01; 0x0D; 0x00; 0x00]))
    = Ret (inl (BApplicationNetscape (mkApplicationNetscape 13 [])),
           set_loopCount (NewDecoder []) 13).
Proof. split_and!; reflexivity. Qed.

End iterator_claims.

(** C6, counterexample.  After the trailer of the one-byte stream [0x3B]
    has been read, the next [ReadBlock] reports a read error instead of the
    end of the stream. *)
Lemma C6_counterexample : ~ C6_as_stated (NewDecoder (H := row_codec) [0x3B]).
Proof.
  intros Hc. specialize (Hc (NewDecoder (H := row_codec) []) eq_refl).
  discriminate Hc.
Qed.

Lemma graphic_control_is_merged_witness :
  ReadBlock (NewDecoder (H := row_codec)
               [0x21; 0xF9; 0x04; 0x08; 0x09; 0x00; 0x00; 0x00; 0x2C; 0x01; 0x07; 0x3B])
  = ReadBlock (after_graphic_control
                 (NewDecoder (H := row_codec)
                    [0x21; 0xF9; 0x04; 0x08; 0x09; 0x00; 0x00; 0x00; 0x2C; 0x01; 0x07; 0x3B])
                 0x08 0x09 0x00 0x00 [0x2C; 0x01; 0x07; 0x3B]) /\
  ReadBlock (NewDecoder (H := row_codec)
               [0x21; 0xF9; 0x04; 0x08; 0x09; 0x00; 0x00; 0x01; 0x2C; 0x01; 0x07; 0x3B])
  = Ret (inr (fmt_Errorf_d
                "gif: invalid graphic control extension block terminator: %d" 1),
         after_graphic_control
           (NewDecoder (H := row_codec)
              [0x21; 0xF9; 0x04; 0x08; 0x09; 0x00; 0x00; 0x01; 0x2C; 0x01; 0x07; 0x3B])
           0x08 0x09 0x00 0x00 [0x2C; 0x01; 0x07; 0x3B]).
Proof.
  split.
  - destruct (graphic_control_is_merged (H := row_codec)
                (NewDecoder [0x21; 0xF9; 0x04; 0x08; 0x09; 0x00; 0x00; 0x00;
                             0x2C; 0x01; 0x07; 0x3B])
                [0x2C; 0x01; 0x07; 0x3B]) as (Hgce & _).
    + split_and!; reflexivity.
    + destruct (Hgce 0x08 0x09 0x00 0x00 eq_refl) as [Heq _]. exact Heq.
  - destruct (graphic_control_is_merged (H := row_codec)
                (NewDecoder [0x21; 0xF9; 0x04; 0x08; 0x09; 0x00; 0x00; 0x01;
                             0x2C; 0x01; 0x07; 0x3B])
                [0x2C; 0x01; 0x07; 0x3B]) as (_ & Hterm & _).
    + split_and!; reflexivity.
    + apply (Hterm 0x08 0x09 0x00 0x00 0x01 eq_refl). discriminate.
Defined.

(** C5, at a frame with a graphic control extension followed by a frame
    without one.  The first frame carries the pending delay 9 and disposal
    method 2, and afterwards the pending delay and transparency flag are
    reset but the disposal method 2 is still pending: the second frame, which
    no graphic control extension precedes, is returned with disposal method
    2.  After a plain text the disposal method is reset. *)
Theorem C5_disposal_stays_pending_after_frame :
  ReadBlock (NewDecoder (H := row_codec)
               [0x21; 0xF9; 0x04; 0x08; 0x09; 0x00; 0x00; 0x00; 0x2C; 0x01; 0x07;
                0x2C; 0x01; 0x08; 0x3B])
  = Ret (inl (BFrame (mkFrame ([0x07] : @Img row_codec) 9 2)),
         mkDecoder [0x2C; 0x01; 0x08; 0x3B] None 0 0 2 0 false [] [] []) /\
  ~ scratch_clear (H := row_codec)
      (mkDecoder [0x2C; 0x01; 0x08; 0x3B] None 0 0 2 0 false [] [] []) /\
  ReadBlock (H := row_codec)
    (mkDecoder [0x2C; 0x01; 0x08; 0x3B] None 0 0 2 0 false [] [] [])
  = Ret (inl (BFrame (mkFrame ([0x08] : @Img row_codec) 0 2)),
         mkDecoder [0x3B] None 0 0 2 0 false [] [] []) /\
  ReadBlock (NewDecoder (H := row_codec)
               [0x21; 0xF9; 0x04; 0x08; 0x09; 0x00; 0x00; 0x00;
                0x21; 0x01; 0x0C; 0; 0; 0; 0; 0; 0; 0; 0; 0; 0; 0; 0; 0x01; 0x41; 0x00;
                0x2C; 0x01; 0x08; 0x3B])
  = Ret (inl (BPlainText (mkPlainText 0 0 0 0 0 0 0 0 [[0x41]] 9 2)),
         mkDecoder [0x2C; 0x01; 0x08; 0x3B] None 0 0 0 0 false [] [] []).
Proof.
  split_and!; try reflexivity.
  intros (_ & Hd & _). discriminate Hd.
Qed.

(** ** Bytes on the wire *)

Lemma lor_shiftl_8 (a b : Z) :
  0 <= a < 256 -> 0 <= b -> Z.lor a (Z.shiftl b 8) = a + b * 256.
Proof.
  intros Ha Hb.
  assert (Z.land a (Z.shiftl b 8) = 0) as Hdisj.
  { apply Z.bits_inj'. intros n Hn. rewrite Z.land_spec, Z.bits_0.
    destruct (decide (n < 8)).
    - rewrite (Z.shiftl_spec_low b 8 n) by lia. apply andb_false_r.
    - rewrite (Z.bits_above_log2 a n); [done|lia|].
      destruct (decide (a = 0)) as [->|]; [simpl; lia|].
      assert (Z.log2 a < 8); [|lia].
      apply Z.log2_lt_pow2; lia. }
  rewrite <- Z.lxor_lor by done. rewrite <- Z.add_nocarry_lxor by done.
  rewrite Z.shiftl_mul_pow2 by lia. lia.
Qed.

Lemma uint16_bytes (u : Z) :
  is_uint16 u -> Z.lor (uint8_of u) (Z.shiftl (uint8_of (Z.shiftr u 8)) 8) = u.
Proof.
  unfold is_uint16, uint8_of. intros Hu.
  rewrite Z.shiftr_div_pow2 by lia. change (2 ^ 8) with 256.
  rewrite lor_shiftl_8.
  - rewrite (Z.mod_small (u `div` 256)).
    + pose proof (Z.div_mod u 256 ltac:(lia)). lia.
    + split; [apply Z.div_pos; lia|apply Z.div_lt_upper_bound; lia].
  - apply Z.mod_pos_bound. lia.
  - apply Z.mod_pos_bound. lia.
Qed.

Lemma readUint16_writeUint16 (u : Z) :
  is_uint16 u -> readUint16 (writeUint16 u) = Ret u.
Proof.
  intros Hu. unfold readUint16, writeUint16. f_equal.
  assert (0 <= uint8_of (Z.shiftr u 8) < 256) as Hb
    by (unfold uint8_of; apply Z.mod_pos_bound; lia).
  unfold uint16_of. rewrite Z.mod_small.
  - by apply uint16_bytes.
  - rewrite Z.shiftl_mul_pow2 by lia. change (2 ^ 8) with 256. lia.
Qed.

Lemma uint16_of_range (n : Z) : is_uint16 (uint16_of n).
Proof. unfold is_uint16, uint16_of. apply Z.mod_pos_bound. lia. Qed.

Lemma uint16_of_small (n : Z) : is_uint16 n -> uint16_of n = n.
Proof. unfold is_uint16, uint16_of. intros. by apply Z.mod_small. Qed.

Lemma uint8_of_small (n : Z) : is_byte n -> uint8_of n = n.
Proof. unfold is_byte, uint8_of. intros. by apply Z.mod_small. Qed.

(** The packed byte of a graphic control extension gives back the
    disposal method, and its low bit is the transparency flag. *)
Lemma packed_disposal (p flag : Z) :
  rt_disposal p -> flag = 0 \/ flag = 1 ->
  Z.shiftr (Z.land (Z.lor flag (uint8_of (Z.shiftl p 2))) 0x1C) 2 = p /\
  Z.land (Z.lor flag (uint8_of (Z.shiftl p 2))) 0x01 = flag.
Proof.
  unfold rt_disposal. intros Hp Hf.
  assert (p = 0 \/ p = 1 \/ p = 2 \/ p = 3 \/ p = 4 \/ p = 5 \/ p = 6 \/ p = 7) as Hc by lia.
  destruct Hf as [-> | ->];
    destruct Hc as [->|[->|[->|[->|[->|[->|[->| ->]]]]]]]; split; reflexivity.
Qed.

(** ** Validation *)

Lemma range_indices_ok_ascii (fuel : nat) : forall (c : Z) (s : list Z),
  Forall (fun b => 0 <= b <= 0x7F) s -> 0 <= c -> c + len s <= 128 ->
  range_indices_ok fuel c s = true.
Proof.
  induction fuel as [|fuel IH]; intros c s Hs Hc Hlen; [done|].
  destruct s as [|b s]; [done|]. cbn [range_indices_ok].
  apply Forall_cons in Hs as [Hb Hs]. unfold len in Hlen. cbn [length] in Hlen.
  unfold unicode_MaxASCII. destruct (c >? 127) eqn:E; [lia|].
  assert (rune_width (b :: s) = 1%nat) as ->.
  { unfold rune_width. destruct (b <? 128) eqn:Eb; [done|lia]. }
  cbn [drop]. rewrite drop_0. apply IH; [done|lia|unfold len; lia].
Qed.

Lemma validateString_ascii (s : list Z) :
  Forall (fun b => 0 <= b <= 0x7F) s -> len s <= 128 -> validateString s = None.
Proof.
  intros Hs Hlen. unfold validateString.
  destruct (len s >? 255) eqn:E; [lia|].
  by rewrite range_indices_ok_ascii by (done || lia).
Qed.

Lemma validateStrings_rt (l : list (list Z)) : rt_strings l -> validateStrings l = None.
Proof.
  intros [Hne Hall]. unfold validateStrings.
  destruct (len l =? 0) eqn:E.
  { destruct l; [done|]. unfold len in E. simpl in E. lia. }
  clear E Hne. induction Hall as [|s l [Hlen Hs] _ IH]; [done|].
  cbn [validateStrings_loop]. rewrite validateString_ascii by (done || lia). done.
Qed.

Lemma validateSubBlocks_rt (l : list (list Z)) : rt_sub_blocks l -> validateSubBlocks l = None.
Proof.
  intros Hall. induction Hall as [|sb l [Hlen _] _ IH]; [done|].
  cbn [validateSubBlocks]. destruct (len sb >? 255) eqn:E; [lia|done].
Qed.

Lemma rt_strings_chunks (l : list (list Z)) : rt_strings l -> Forall chunk_ok l.
Proof.
  intros [_ Hall]. eapply Forall_impl; [exact Hall|].
  intros s [Hlen _]. unfold chunk_ok. lia.
Qed.

Lemma rt_sub_blocks_chunks (l : list (list Z)) : rt_sub_blocks l -> Forall chunk_ok l.
Proof.
  intros Hall. eapply Forall_impl; [exact Hall|].
  intros s [Hlen _]. unfold chunk_ok. lia.
Qed.

(** ** One block, written and read back *)

Section one_block.
Context `{ImageCodec}.

Lemma Write_block_buffer (cfg : Config) (bi : Z) (hdr : Header) (w : list Z) (v : block) :
  rt_valid cfg hdr v ->
  Write_block (on_buffer w (Some (cfg, bi))) v
  = (on_buffer (w ++ block_bytes cfg v) (Some (cfg, bi)), None).
Proof.
  destruct v as [f|pt|c|an|ua|ue]; cbn [rt_valid Write_block block_bytes].
  - intros (_ & _ & Hchk & _).
    unfold WriteFrame, writeImageBlock, frame_bytes, has_graphic_control.
    cbn [e_err e_g on_buffer]. rewrite Hchk.
    destruct (_ || _); rewrite ?e_write_buffer; cbn [e_err on_buffer];
      by rewrite <- ?app_assoc.
  - intros (_ & _ & _ & _ & _ & _ & _ & _ & Hs & _).
    apply WritePlainText_buffer. by apply validateStrings_rt.
  - intros Hs. unfold WriteComment. rewrite (validateStrings_rt _ Hs).
    rewrite e_write_buffer. cbn [e_err on_buffer].
    rewrite writeStrings_buffer. by rewrite <- app_assoc.
  - intros (_ & Hsb). unfold WriteApplicationNetscape.
    rewrite (validateSubBlocks_rt _ Hsb).
    rewrite e_write_buffer. cbn [e_err on_buffer].
    rewrite e_WriteString_buffer. cbn [e_err on_buffer].
    rewrite e_write_buffer. cbn [e_err on_buffer].
    rewrite writeSubBlocks_buffer. by rewrite <- !app_assoc.
  - intros (Hlen & Hascii & _ & Hsb). unfold WriteUnknownApplication.
    rewrite (validateString_ascii _ Hascii Hlen), (validateSubBlocks_rt _ Hsb).
    rewrite e_write_buffer. cbn [e_err on_buffer].
    rewrite e_WriteString_buffer. cbn [e_err on_buffer].
    rewrite writeSubBlocks_buffer. by rewrite <- !app_assoc.
  - intros (_ & _ & _ & _ & _ & Hsb). unfold WriteUnknownExtension.
    rewrite (validateSubBlocks_rt _ Hsb).
    rewrite e_write_buffer. cbn [e_err on_buffer].
    rewrite writeSubBlocks_buffer. by rewrite <- !app_assoc.
Qed.

(** The decoder at a plain text extension, whatever is pending. *)
Lemma ReadBlock_plain_text (d : decoder) (pt : PlainText) (rest : list Z) :
  is_uint16 (pt_TextGridLeftPosition pt) -> is_uint16 (pt_TextGridTopPosition pt) ->
  is_uint16 (pt_TextGridWidth pt) -> is_uint16 (pt_TextGridHeight pt) ->
  rt_strings (pt_Strings pt) ->
  d_r d = plain_text_head pt ++ frame_chunks (pt_Strings pt) ++ rest ->
  ReadBlock d =
    Ret (inl (BPlainText
                (mkPlainText (pt_TextGridLeftPosition pt) (pt_TextGridTopPosition pt)
                   (pt_TextGridWidth pt) (pt_TextGridHeight pt)
                   (pt_CharacterCellWidth pt) (pt_CharacterCellHeight pt)
                   (pt_TextForegroundColorIndex pt) (pt_TextBackgroundColorIndex pt)
                   (pt_Strings pt) (uint16_of (d_delayTime d)) (d_disposalMethod d))),
         mkDecoder rest (d_hdr d) (d_loopCount d) 0 0 (d_transparentIndex d) false
                   (d_delay d) (d_disposal d) (d_image d)).
Proof.
  intros Hl Ht Hw Hh Hs Hr. unfold ReadBlock. rewrite ReadBlock_loop_unfold.
  unfold plain_text_head in Hr.
  rewrite (readByte_cons d sExtension _ ltac:(by rewrite Hr)).
  change (sExtension =? sExtension) with true. cbn match. unfold readExtension_.
  rewrite (readByte_cons (set_r d _) eText _ ltac:(reflexivity)).
  change (eText =? eText) with true. cbn match. rewrite set_r_set_r.
  unfold readPlainText.
  pose proof (readFull_app
    (set_r d ((([12] ++ writeUint16 (pt_TextGridLeftPosition pt) ++
        writeUint16 (pt_TextGridTopPosition pt) ++
        writeUint16 (pt_TextGridWidth pt) ++
        writeUint16 (pt_TextGridHeight pt) ++
        [pt_CharacterCellWidth pt; pt_CharacterCellHeight pt;
         pt_TextForegroundColorIndex pt; pt_TextBackgroundColorIndex pt]) ++
       frame_chunks (pt_Strings pt) ++ rest)))
    ([12] ++ writeUint16 (pt_TextGridLeftPosition pt) ++
        writeUint16 (pt_TextGridTopPosition pt) ++
        writeUint16 (pt_TextGridWidth pt) ++
        writeUint16 (pt_TextGridHeight pt) ++
        [pt_CharacterCellWidth pt; pt_CharacterCellHeight pt;
         pt_TextForegroundColorIndex pt; pt_TextBackgroundColorIndex pt])
    (frame_chunks (pt_Strings pt) ++ rest) ltac:(reflexivity)) as Hf.
  cbn [length app writeUint16] in Hf. cbn [app writeUint16]. rewrite Hf. clear Hf.
  cbn match. change (negb (12 =? 12)) with false. cbn match.
  pose proof (readUint16_writeUint16 _ Hl) as H1.
  pose proof (readUint16_writeUint16 _ Ht) as H2.
  pose proof (readUint16_writeUint16 _ Hw) as H3.
  pose proof (readUint16_writeUint16 _ Hh) as H4.
  unfold writeUint16 in H1, H2, H3, H4. rewrite H1, H2, H3, H4.
  cbn [mbind outcome_bind].
  rewrite (readStrings_chunks _ (pt_Strings pt) rest (rt_strings_chunks _ Hs))
    by reflexivity.
  reflexivity.
Qed.

(** The decoder at an image block, whatever is pending. *)
Lemma ReadBlock_image (d : decoder) (cfg : Config) (hdr : Header) (m : Img)
    (rest : list Z) :
  queues_empty d -> d_hdr d = Some hdr ->
  pending_transparent d = transparent_of m ->
  image_round_trip cfg hdr m ->
  d_r d = sImageDescriptor :: encode_image cfg m ++ rest ->
  ReadBlock d =
    Ret (inl (BFrame (mkFrame m (uint16_of (d_delayTime d)) (d_disposalMethod d))),
         mkDecoder rest (d_hdr d) (d_loopCount d) 0 (d_disposalMethod d)
                   (d_transparentIndex d) false [] [] []).
Proof.
  intros (Hi & Hq & Hp) Hhdr Hti (_ & _ & Hdec) Hr.
  unfold ReadBlock. rewrite ReadBlock_loop_unfold.
  rewrite (readByte_cons d sImageDescriptor _ Hr).
  change (sImageDescriptor =? sExtension) with false.
  change (sImageDescriptor =? sImageDescriptor) with true. cbn match.
  unfold read_frame, readImageDescriptor.
  cbn [set_r d_hdr d_hasTransparentIndex d_transparentIndex d_r].
  fold (pending_transparent d). rewrite Hti, Hhdr, Hdec.
  cbn [d_image d_delay d_disposal d_delayTime d_disposalMethod d_r d_hdr d_loopCount
       d_transparentIndex d_hasTransparentIndex].
  cbn [set_r d_image d_delay d_disposal d_delayTime d_disposalMethod d_loopCount].
  rewrite Hi, Hq, Hp. reflexivity.
Qed.

End one_block.

Section blocks_read_back.
Context `{ImageCodec}.

Lemma ReadBlock_comment (d : decoder) (c : Comment) (rest : list Z) :
  rt_strings (c_Strings c) -> scratch_idle d -> queues_empty d ->
  d_r d = [sExtension; eComment] ++ frame_chunks (c_Strings c) ++ rest ->
  reads_block d (BComment c) rest (d_disposalMethod d).
Proof.
  intros Hs Hsc Hq Hr. exists (set_r d rest). split; [|by destruct d].
  unfold ReadBlock. rewrite ReadBlock_loop_unfold.
  rewrite (readByte_cons d sExtension _ ltac:(by rewrite Hr)).
  change (sExtension =? sExtension) with true. cbn match. unfold readExtension_.
  rewrite (readByte_cons (set_r d _) eComment _ ltac:(reflexivity)).
  change (eComment =? eText) with false.
  change (eComment =? eGraphicControl) with false.
  change (eComment =? eComment) with true. cbn match. rewrite set_r_set_r.
  unfold readComment.
  rewrite (readStrings_chunks _ (c_Strings c) rest (rt_strings_chunks _ Hs))
    by reflexivity.
  cbn [mbind outcome_bind]. rewrite set_r_set_r. by destruct c.
Qed.

Lemma ReadBlock_unknown_extension (d : decoder) (ue : UnknownExtension)
    (rest : list Z) :
  ue_Label ue <> eText -> ue_Label ue <> eGraphicControl ->
  ue_Label ue <> eComment -> ue_Label ue <> eApplication ->
  rt_sub_blocks (ue_SubBlocks ue) -> scratch_idle d -> queues_empty d ->
  d_r d = [sExtension; ue_Label ue] ++ frame_chunks (ue_SubBlocks ue) ++ rest ->
  reads_block d (BUnknownExtension ue) rest (d_disposalMethod d).
Proof.
  intros H1 H2 H3 H4 Hs Hsc Hq Hr. exists (set_r d rest). split; [|by destruct d].
  unfold ReadBlock. rewrite ReadBlock_loop_unfold.
  rewrite (readByte_cons d sExtension _ ltac:(by rewrite Hr)).
  change (sExtension =? sExtension) with true. cbn match. unfold readExtension_.
  rewrite (readByte_cons (set_r d _) (ue_Label ue) _ ltac:(reflexivity)).
  assert ((ue_Label ue =? eText) = false) as -> by lia.
  assert ((ue_Label ue =? eGraphicControl) = false) as -> by lia.
  assert ((ue_Label ue =? eComment) = false) as -> by lia.
  assert ((ue_Label ue =? eApplication) = false) as -> by lia.
  rewrite set_r_set_r. unfold readUnknownExtension.
  rewrite (readSubBlocks_chunks _ (ue_SubBlocks ue) rest (rt_sub_blocks_chunks _ Hs))
    by reflexivity.
  cbn [mbind outcome_bind]. rewrite set_r_set_r. by destruct ue.
Qed.

Lemma ReadBlock_unknown_application (d : decoder) (ua : UnknownApplication)
    (rest : list Z) :
  len (ua_Identifier ua) <= 128 ->
  ua_Identifier ua <> bytes_of "NETSCAPE2.0" ->
  rt_sub_blocks (ua_SubBlocks ua) -> scratch_idle d -> queues_empty d ->
  d_r d = [sExtension; eApplication; uint8_of (len (ua_Identifier ua))] ++
          ua_Identifier ua ++ frame_chunks (ua_SubBlocks ua) ++ rest ->
  reads_block d (BUnknownApplication ua) rest (d_disposalMethod d).
Proof.
  intros Hlen Hid Hs Hsc Hq Hr. exists (set_r d rest). split; [|by destruct d].
  unfold ReadBlock. rewrite ReadBlock_loop_unfold.
  rewrite (readByte_cons d sExtension _ ltac:(by rewrite Hr)).
  change (sExtension =? sExtension) with true. cbn match. unfold readExtension_.
  rewrite (readByte_cons (set_r d _) eApplication _ ltac:(reflexivity)).
  change (eApplication =? eText) with false.
  change (eApplication =? eGraphicControl) with false.
  change (eApplication =? eComment) with false.
  change (eApplication =? eApplication) with true. cbn match. rewrite set_r_set_r.
  unfold readApplication.
  rewrite (readByte_cons (set_r d _) (uint8_of (len (ua_Identifier ua))) _
             ltac:(reflexivity)).
  rewrite set_r_set_r.
  rewrite uint8_of_small by (unfold is_byte; pose proof (len_nonneg (ua_Identifier ua)); lia).
  unfold len at 1. rewrite Nat2Z.id.
  rewrite (readFull_app _ (ua_Identifier ua) (frame_chunks (ua_SubBlocks ua) ++ rest))
    by reflexivity.
  rewrite set_r_set_r. rewrite bool_decide_false by done.
  rewrite (readSubBlocks_chunks _ (ua_SubBlocks ua) rest (rt_sub_blocks_chunks _ Hs))
    by reflexivity.
  cbn [mbind outcome_bind]. rewrite set_r_set_r. by destruct ua.
Qed.

Lemma ReadBlock_application_netscape (d : decoder) (an : ApplicationNetscape)
    (rest : list Z) :
  is_uint16 (an_LoopCount an) ->
  rt_sub_blocks (an_SubBlocks an) -> scratch_idle d -> queues_empty d ->
  d_r d = [sExtension; eApplication; 0x0b] ++ bytes_of "NETSCAPE2.0" ++
          [0x03; 0x01] ++ writeUint16 (uint16_of (an_LoopCount an)) ++
          frame_chunks (an_SubBlocks an) ++ rest ->
  reads_block d (BApplicationNetscape an) rest (d_disposalMethod d).
Proof.
  intros Hlc Hs Hsc Hq Hr.
  exists (set_r (set_loopCount d (an_LoopCount an)) rest). split; [|by destruct d].
  unfold ReadBlock. rewrite ReadBlock_loop_unfold.
  rewrite (readByte_cons d sExtension _ ltac:(by rewrite Hr)).
  change (sExtension =? sExtension) with true. cbn match. unfold readExtension_.
  rewrite (readByte_cons (set_r d _) eApplication _ ltac:(reflexivity)).
  change (eApplication =? eText) with false.
  change (eApplication =? eGraphicControl) with false.
  change (eApplication =? eComment) with false.
  change (eApplication =? eApplication) with true. cbn match. rewrite set_r_set_r.
  unfold readApplication.
  rewrite (readByte_cons (set_r d _) 0x0b _ ltac:(reflexivity)).
  rewrite set_r_set_r.
  change (Z.to_nat 11) with (length (bytes_of "NETSCAPE2.0")).
  rewrite (readFull_app _ (bytes_of "NETSCAPE2.0")
             ([0x03; 0x01] ++ writeUint16 (uint16_of (an_LoopCount an)) ++
              frame_chunks (an_SubBlocks an) ++ rest)) by reflexivity.
  rewrite set_r_set_r. rewrite bool_decide_true by done.
  rewrite (readBlock_chunk _ (0x01 :: writeUint16 (uint16_of (an_LoopCount an)))
             (frame_chunks (an_SubBlocks an) ++ rest));
    [|unfold chunk_ok, writeUint16, len; cbn [length]; lia|reflexivity].
  rewrite set_r_set_r.
  change (len (1 :: writeUint16 (uint16_of (an_LoopCount an))) =? 3) with true.
  rewrite bool_decide_true by done. cbn [andb drop]. rewrite drop_0.
  rewrite readUint16_writeUint16 by apply uint16_of_range.
  rewrite (uint16_of_small _ Hlc). cbn [mbind outcome_bind].
  rewrite (readSubBlocks_chunks _ (an_SubBlocks an) rest (rt_sub_blocks_chunks _ Hs))
    by reflexivity.
  cbn [mbind outcome_bind]. by destruct an.
Qed.

End blocks_read_back.

Section round_trips.
Context `{ImageCodec}.

Lemma delay_on_the_wire (delayTime : Z) :
  uint16_of
    (Z.lor (uint8_of (uint16_of (Z.quot delayTime (10 * time_Millisecond))))
       (Z.shiftl
          (uint8_of (Z.shiftr (uint16_of (Z.quot delayTime (10 * time_Millisecond))) 8))
          8))
  = delay_units delayTime.
Proof.
  unfold delay_units. rewrite uint16_bytes by apply uint16_of_range.
  apply uint16_of_small, uint16_of_range.
Qed.

Lemma ReadBlock_frame (cfg : Config) (hdr : Header) (f : Frame) (d : decoder)
    (rest : list Z) :
  rt_frame cfg hdr f -> d_hdr d = Some hdr -> scratch_idle d -> queues_empty d ->
  d_r d = frame_bytes cfg f ++ rest ->
  reads_block d (decoded_from (d_disposalMethod d) (BFrame f)) rest
              (pending_after (d_disposalMethod d) (BFrame f)).
Proof.
  intros (Hdelay & Hdisp & Himg) Hhdr Hsc Hq Hr.
  pose proof Hsc as (Hs1 & Hs3). pose proof Himg as (_ & Hti & _).
  unfold frame_bytes in Hr. cbv zeta in Hr. cbn [decoded_from pending_after].
  revert Hr. destruct (has_graphic_control f) eqn:Hcond; intros Hr.
  - rewrite <- app_assoc in Hr. unfold image_gce, writeUint16 in Hr.
    destruct (transparent_of (f_Image f)) as [ti|] eqn:Etr.
    + destruct (packed_disposal (f_DisposalMethod f) 1 Hdisp ltac:(by right))
        as [Hp1 Hp2].
      eexists. split.
      { rewrite (ReadBlock_graphic_control d _ _ _ _ _ Hr).
        rewrite (ReadBlock_image _ cfg hdr (f_Image f) rest); try done.
        - cbn [after_graphic_control d_delayTime d_disposalMethod].
          rewrite delay_on_the_wire, Hp1. reflexivity.
        - unfold pending_transparent.
          cbn [after_graphic_control d_hasTransparentIndex d_transparentIndex].
          rewrite Hp2, Etr. cbn. f_equal. by apply uint8_of_small, Hti. }
      cbn [d_r d_hdr]. by rewrite Hhdr.
    + destruct (packed_disposal (f_DisposalMethod f) 0 Hdisp ltac:(by left))
        as [Hp1 Hp2].
      eexists. split.
      { rewrite (ReadBlock_graphic_control d _ _ _ _ _ Hr).
        rewrite (ReadBlock_image _ cfg hdr (f_Image f) rest); try done.
        - cbn [after_graphic_control d_delayTime d_disposalMethod].
          rewrite delay_on_the_wire, Hp1. reflexivity.
        - unfold pending_transparent.
          cbn [after_graphic_control d_hasTransparentIndex d_transparentIndex].
          rewrite Hp2, Etr, Hs3. reflexivity. }
      cbn [d_r d_hdr]. by rewrite Hhdr.
  - cbn [app] in Hr. unfold has_graphic_control in Hcond.
    assert (0 <= Z.quot (f_DelayTime f) (10 * time_Millisecond)) as Hnn
      by (apply Z.quot_pos; [exact Hdelay|unfold time_Millisecond; lia]).
    assert (Z.quot (f_DelayTime f) (10 * time_Millisecond) = 0) as Hd0 by lia.
    assert (transparent_of (f_Image f) = None) as Etr.
    { destruct (transparent_of (f_Image f)); [|done].
      rewrite bool_decide_true in Hcond by done. exfalso. lia. }
    eexists. split.
    { rewrite (ReadBlock_image d cfg hdr (f_Image f) rest); try done.
      - unfold delay_units. rewrite Hs1, Hd0. reflexivity.
      - unfold pending_transparent. by rewrite Hs3, Etr. }
    cbn [d_r d_hdr]. by rewrite Hhdr.
Qed.

Lemma ReadBlock_plain_text_block (cfg : Config) (hdr : Header) (pt : PlainText)
    (d : decoder) (rest : list Z) :
  rt_valid cfg hdr (BPlainText pt) -> scratch_idle d -> queues_empty d ->
  d_r d = block_bytes cfg (BPlainText pt) ++ rest ->
  reads_block d (decoded_from (d_disposalMethod d) (BPlainText pt)) rest 0.
Proof.
  cbn [rt_valid block_bytes decoded_from]. unfold plain_text_has_graphic_control.
  intros (Hl & Ht & Hw & Hh & _ & _ & _ & _ & Hs & Hdelay & Hdisp) Hsc Hq Hr.
  pose proof Hsc as (Hs1 & Hs3). unfold rt_delay in Hdelay.
  revert Hr. destruct (_ || _) eqn:Hcond; intros Hr.
  - rewrite <- !app_assoc in Hr. unfold plain_text_gce, writeUint16 in Hr.
    destruct (packed_disposal (pt_DisposalMethod pt) 0 Hdisp ltac:(by left))
      as [Hp1 Hp2].
    change (Z.lor 0 ?x) with x in Hp1, Hp2.
    eexists. split.
    { rewrite (ReadBlock_graphic_control d _ _ _ _ _ Hr).
      rewrite (ReadBlock_plain_text _ pt rest); try done.
      cbn [after_graphic_control d_delayTime d_disposalMethod].
      rewrite delay_on_the_wire, Hp1. reflexivity. }
    cbn [d_r d_hdr after_graphic_control]. by split_and!.
  - cbn [app] in Hr. rewrite <- app_assoc in Hr.
    assert (pt_DelayTime pt = 0) as Hd0 by lia.
    eexists. split.
    { rewrite (ReadBlock_plain_text d pt rest); try done.
      unfold delay_units. rewrite Hs1, Hd0. reflexivity. }
    cbn [d_r d_hdr]. by split_and!.
Qed.

(** A block that is valid for the round trip, on the wire in front of a
    decoder between blocks, is read back as the block with its delay in
    units of 10 ms and, when it was written without a graphic control
    extension, with the disposal method that was pending; the decoder is
    between blocks again. *)
Lemma ReadBlock_block_bytes (cfg : Config) (hdr : Header) (v : block) (d : decoder)
    (rest : list Z) :
  rt_valid cfg hdr v -> d_hdr d = Some hdr -> scratch_idle d -> queues_empty d ->
  d_r d = block_bytes cfg v ++ rest ->
  reads_block d (decoded_from (d_disposalMethod d) v) rest
              (pending_after (d_disposalMethod d) v).
Proof.
  intros Hv Hhdr Hsc Hq Hr. destruct v as [f|pt|c|an|ua|ue].
  - by apply (ReadBlock_frame cfg hdr).
  - by apply (ReadBlock_plain_text_block cfg hdr).
  - cbn [block_bytes] in Hr. rewrite <- app_assoc in Hr.
    by apply ReadBlock_comment.
  - destruct Hv as (Hlc & Hsb). cbn [block_bytes] in Hr. rewrite <- !app_assoc in Hr.
    by apply ReadBlock_application_netscape.
  - destruct Hv as (Hlen & _ & Hid & Hsb). cbn [block_bytes] in Hr.
    rewrite <- !app_assoc in Hr. by apply ReadBlock_unknown_application.
  - destruct Hv as (_ & H1 & H2 & H3 & H4 & Hsb). cbn [block_bytes] in Hr.
    rewrite <- !app_assoc in Hr. by apply ReadBlock_unknown_extension.
Qed.

(** With nothing pending, a block comes back with its own disposal
    method. *)
Lemma decoded_from_0 (v : block) : decoded_from 0 v = as_decoded v.
Proof.
  destruct v as [f|pt|c|an|ua|ue]; try reflexivity.
  - cbn [decoded_from as_decoded]. unfold frame_as_decoded, has_graphic_control.
    destruct (f_DisposalMethod f =? 0) eqn:E;
      [|by rewrite orb_true_r].
    assert (f_DisposalMethod f = 0) as -> by lia. by destruct (_ || _).
  - cbn [decoded_from as_decoded]. unfold plain_text_has_graphic_control.
    destruct (pt_DisposalMethod pt =? 0) eqn:E;
      [|by rewrite orb_true_r].
    assert (pt_DisposalMethod pt = 0) as -> by lia. by destruct (_ || _).
Qed.

(** A frame written with a graphic control extension of its own, or read
    with nothing pending, comes back with its own disposal method. *)
Lemma decoded_from_own (p : Z) (f : Frame) :
  p = 0 \/ has_graphic_control f = true ->
  decoded_from p (BFrame f) = BFrame (frame_as_decoded f).
Proof.
  intros [->| Hg]; [apply (decoded_from_0 (BFrame f))|].
  cbn [decoded_from]. by rewrite Hg.
Qed.

(** What is pending after a block that was read with nothing pending. *)
Lemma pending_after_0 (v : block) :
  pending_after 0 v = match v with BFrame f => f_DisposalMethod f | _ => 0 end.
Proof.
  destruct v as [f|pt|c|an|ua|ue]; try reflexivity.
  cbn [pending_after]. unfold has_graphic_control.
  destruct (f_DisposalMethod f =? 0) eqn:E; [|by rewrite orb_true_r].
  assert (f_DisposalMethod f = 0) as -> by lia. by destruct (_ || _).
Qed.

Lemma ReadBlock_trailer (d : decoder) :
  d_r d = [sTrailer] -> ReadBlock d = Ret (inr io_EOF, set_r d []).
Proof.
  intros Hr. unfold ReadBlock. rewrite ReadBlock_loop_unfold.
  by rewrite (readByte_cons d sTrailer [] Hr).
Qed.

(** The stream that [doEncode] writes. *)
Lemma doEncode_bytes (cfg : Config) (bi : Z) (hdr : Header) (v : block) (term : Frame) :
  cfg_ColorModel cfg <> OtherModel ->
  rt_valid cfg hdr v -> rt_frame cfg hdr term ->
  doEncode cfg bi v term =
    (encode_header cfg bi ++ block_bytes cfg v ++ frame_bytes cfg term ++ [sTrailer],
     [None; None; None; None; None]).
Proof.
  intros Hcm Hv Hterm. unfold doEncode.
  assert (WriteHeader (NewEncoder []) cfg bi
          = (on_buffer (encode_header cfg bi) (Some (cfg, bi)), None)) as ->.
  { unfold WriteHeader. by destruct (cfg_ColorModel cfg). }
  rewrite (Write_block_buffer cfg bi hdr _ v Hv).
  pose proof (Write_block_buffer cfg bi hdr
                (encode_header cfg bi ++ block_bytes cfg v) (BFrame term) Hterm) as Hw.
  cbn [Write_block block_bytes] in Hw. rewrite Hw.
  unfold WriteTrailer, Encoder_Flush. rewrite e_writeByte_buffer.
  cbn. by rewrite <- !app_assoc.
Qed.

(** C1, amended.  Take a block that is valid for the round trip the code
    gives: no empty string and no empty sub-block, strings of at most 128
    ASCII bytes, a loop count that is a [uint16], an unknown extension whose
    label is none of the four the decoder knows, an unknown application not
    called NETSCAPE2.0, a delay that is not negative, a disposal method
    below 8, and, for a frame, an image that the image codec reads back;
    and when the block is a frame with a disposal method other than 0, take
    a terminator frame that is written with a graphic control extension of
    its own (a delay of at least 10 ms, a disposal method other than 0 or a
    transparent color).  Written by [doEncode] between the header and the
    terminator frame and read by [doDecode], every call succeeds, and the
    block comes back equal in every field, except that the delay of a frame
    or of a plain text comes back as the number of units of 10 ms, truncated
    to 16 bits; then come the terminator frame and the end of the stream. *)
Theorem C1_round_trip_of_valid_blocks (cfg : Config) (backgroundIndex : Z)
    (hdr : Header) (v : block) (term : Frame) :
  cfg_ColorModel cfg <> OtherModel ->
  (forall rest,
     decode_header (encode_header cfg backgroundIndex ++ rest) = inl (hdr, rest)) ->
  rt_valid cfg hdr v -> rt_frame cfg hdr term ->
  (forall f, v = BFrame f ->
     f_DisposalMethod f = 0 \/ has_graphic_control term = true) ->
  round_trip cfg backgroundIndex v term (as_decoded v) (frame_as_decoded term).
Proof.
  intros Hcm Hheader Hv Hterm Hcarry.
  exists (encode_header cfg backgroundIndex ++ block_bytes cfg v ++
          frame_bytes cfg term ++ [sTrailer]), hdr.
  split; [by apply (doEncode_bytes cfg backgroundIndex hdr)|].
  unfold doDecode, ReadHeader, readHeaderAndScreenDescriptor.
  unfold NewDecoder. cbn [d_r]. rewrite Hheader.
  cbn [fst snd d_hdr d_loopCount d_delayTime d_disposalMethod d_transparentIndex
       d_hasTransparentIndex d_delay d_disposal d_image].
  destruct (ReadBlock_block_bytes cfg hdr v
              (mkDecoder (block_bytes cfg v ++ frame_bytes cfg term ++ [sTrailer])
                 (Some hdr) 0 0 0 0 false [] [] [])
              (frame_bytes cfg term ++ [sTrailer]))
    as (d1 & E1 & Hr1 & Hh1 & Hsc1 & Hp1 & Hq1); try done.
  cbn [d_disposalMethod] in E1, Hp1. rewrite decoded_from_0 in E1.
  rewrite pending_after_0 in Hp1.
  rewrite E1. cbn [mbind outcome_bind].
  destruct (ReadBlock_block_bytes cfg hdr (BFrame term) d1 [sTrailer])
    as (d2 & E2 & Hr2 & _); try done.
  rewrite decoded_from_own in E2.
  - rewrite E2. cbn [mbind outcome_bind].
    by rewrite (ReadBlock_trailer d2 Hr2).
  - rewrite Hp1. destruct v as [f|pt|c|an|ua|ue]; try (by left).
    by apply (Hcarry f).
Qed.

End round_trips.

(** C1, counterexample.  A comment whose one string is empty is valid by
    the data model, and every call of the encoder succeeds on it; the empty
    string is written as the terminator of the strings, so the decoder gives
    a comment without strings, and its next call stops at the byte that was
    meant as the terminator. *)
Lemma C1_counterexample :
  ~ C1_as_stated (H := row_codec) (mkConfig NoModel 1 1) 0
      (BComment (mkComment [[]])) (mkFrame ([0] : @Img row_codec) 0 0).
Proof.
  intros Hc.
  assert (spec_valid (H := row_codec) (BComment (mkComment [[]]))) as Hvalid.
  { split; [done|]. constructor; [|constructor].
    split; [unfold len; simpl; lia|constructor]. }
  destruct (Hc Hvalid) as (data & hdr & Henc & Hdec).
  assert (doEncode (H := row_codec) (mkConfig NoModel 1 1) 0
            (BComment (mkComment [[]])) (mkFrame ([0] : @Img row_codec) 0 0)
          = (bytes_of "GIF89a" ++
             [0x01; 0x00; 0x01; 0x00; 0x70; 0x00; 0x00;
              0x21; 0xFE; 0x00; 0x00; 0x2C; 0x01; 0x00; 0x3B],
             [None; None; None; None; None])) as E by reflexivity.
  rewrite E in Henc. apply (f_equal fst) in Henc. cbn [fst] in Henc. subst data.
  assert (doDecode (H := row_codec)
            (bytes_of "GIF89a" ++
             [0x01; 0x00; 0x01; 0x00; 0x70; 0x00; 0x00;
              0x21; 0xFE; 0x00; 0x00; 0x2C; 0x01; 0x00; 0x3B])
          = Ret (inl (Some (mkHeader (bytes_of "GIF89a") (mkConfig NoModel 1 1) 0)),
                 [inl (BComment (mkComment []));
                  inr (fmt_Errorf_d "gif: unknown block type: 0x%.2x" 0);
                  inl (BFrame (mkFrame ([0] : @Img row_codec) 0 0))])) as E'
    by reflexivity.
  rewrite E' in Hdec. discriminate Hdec.
Qed.

Lemma C1_witness :
  round_trip (H := row_codec) (mkConfig NoModel 1 1) 0
    (BFrame (mkFrame ([7] : @Img row_codec) (90 * time_Millisecond) 2))
    (mkFrame ([0] : @Img row_codec) 0 1)
    (BFrame (mkFrame ([7] : @Img row_codec) 9 2))
    (mkFrame ([0] : @Img row_codec) 0 1).
Proof.
  refine (C1_round_trip_of_valid_blocks (H := row_codec) (mkConfig NoModel 1 1) 0
            (mkHeader (bytes_of "GIF89a") (mkConfig NoModel 1 1) 0)
            (BFrame (mkFrame ([7] : @Img row_codec) (90 * time_Millisecond) 2))
            (mkFrame ([0] : @Img row_codec) 0 1) _ _ _ _ _).
  - discriminate.
  - intros rest. reflexivity.
  - split; [unfold rt_delay, time_Millisecond; cbn [f_DelayTime]; lia|].
    split; [unfold rt_disposal; simpl; lia|].
    split; [reflexivity|]. split; [discriminate|].
    intros rest. reflexivity.
  - split; [unfold rt_delay; simpl; lia|].
    split; [unfold rt_disposal; simpl; lia|].
    split; [reflexivity|]. split; [discriminate|].
    intros rest. reflexivity.
  - intros f _. right. reflexivity.
Defined.

(** Two more blocks that are valid by the data model and do not come back:
    a loop count of -1 is written as the [uint16] 65535 and read as 65535,
    and an unknown extension with the label of the comment extension is
    read as a comment. *)
Lemma round_trip_fails_by_design :
  ~ C1_as_stated (H := row_codec) (mkConfig NoModel 1 1) 0
      (BApplicationNetscape (mkApplicationNetscape (-1) []))
      (mkFrame ([0] : @Img row_codec) 0 0) /\
  ~ C1_as_stated (H := row_codec) (mkConfig NoModel 1 1) 0
      (BUnknownExtension (mkUnknownExtension 0xFE [[0x68]]))
      (mkFrame ([0] : @Img row_codec) 0 0).
Proof.
  split; intros Hc.
  - assert (spec_valid (H := row_codec)
              (BApplicationNetscape (mkApplicationNetscape (-1) []))) as Hvalid.
    { split; [simpl; lia|constructor]. }
    destruct (Hc Hvalid) as (data & hdr & Henc & Hdec).
    apply (f_equal fst) in Henc. cbn [fst] in Henc. subst data.
    assert (doDecode (H := row_codec)
              (fst (doEncode (H := row_codec) (mkConfig NoModel 1 1) 0
                      (BApplicationNetscape (mkApplicationNetscape (-1) []))
                      (mkFrame ([0] : @Img row_codec) 0 0)))
            = Ret (inl (Some (mkHeader (bytes_of "GIF89a") (mkConfig NoModel 1 1) 0)),
                   [inl (BApplicationNetscape (mkApplicationNetscape 65535 []));
                    inl (BFrame (mkFrame ([0] : @Img row_codec) 0 0));
                    inr io_EOF])) as E by reflexivity.
    rewrite E in Hdec. discriminate Hdec.
  - assert (spec_valid (H := row_codec)
              (BUnknownExtension (mkUnknownExtension 0xFE [[0x68]]))) as Hvalid.
    { split; [unfold is_byte; simpl; lia|].
      constructor; [|constructor].
      split; [unfold len; simpl; lia|]. constructor; [|constructor].
      unfold is_byte. lia. }
    destruct (Hc Hvalid) as (data & hdr & Henc & Hdec).
    apply (f_equal fst) in Henc. cbn [fst] in Henc. subst data.
    assert (doDecode (H := row_codec)
              (fst (doEncode (H := row_codec) (mkConfig NoModel 1 1) 0
                      (BUnknownExtension (mkUnknownExtension 0xFE [[0x68]]))
                      (mkFrame ([0] : @Img row_codec) 0 0)))
            = Ret (inl (Some (mkHeader (bytes_of "GIF89a") (mkConfig NoModel 1 1) 0)),
                   [inl (BComment (mkComment [[0x68]]));
                    inl (BFrame (mkFrame ([0] : @Img row_codec) 0 0));
                    inr io_EOF])) as E by reflexivity.
    rewrite E in Hdec. discriminate Hdec.
Qed.

(** An ASCII string of 129 bytes is turned away as not ASCII: the index of
    its last byte is 128. *)
Lemma validateString_rejects_long_ascii :
  validateString (replicate 129 0x41)
  = Some (errors_New "string must only contain ASCII characters").
Proof. reflexivity. Qed.

(** * Further properties of the optimizer *)

(** [store] keeps every image of the heap well formed: it rewrites the
    bytes of a window and changes no length. *)
Lemma store_wf (h : Heap) (pm : image.Paletted) (P' : list Z) (pm2 : image.Paletted) :
  wf_paletted h pm -> length P' = image.slen (image.Pix pm) ->
  wf_paletted h pm2 -> wf_paletted (store h (image.Pix pm) P') pm2.
Proof.
  intros Hwf HlP' [(b2 & buf2 & Hb2 & Hbuf2 & Hfit2) Hw Hh Hs Hl].
  destruct (load_wf h pm Hwf) as (b & buf & P & Hb & Hbuf & Hfit & _).
  constructor; try done.
  unfold store. rewrite Hb.
  destruct (decide (b = b2)) as [->|Hne].
  - rewrite Hbuf in Hbuf2. injection Hbuf2 as <-.
    eexists b2, _. split; [done|]. split.
    + rewrite lookup_alter_eq, Hbuf. reflexivity.
    + rewrite !length_app, length_take, length_drop. lia.
  - exists b2, buf2. split; [done|]. split; [|done].
    by rewrite lookup_alter_ne.
Qed.

(** Offsets in a buffer whose stride is the width of its rectangle tell
    the points of the rectangle apart. *)
Lemma PixOffset_inj (r : image.Rectangle) (x y x' y' : Z) :
  image.PtIn x y r = true -> image.PtIn x' y' r = true ->
  image.PixOffset (image.Dx r) r x y = image.PixOffset (image.Dx r) r x' y' ->
  x = x' /\ y = y'.
Proof.
  unfold image.PtIn, image.PixOffset, image.Dx. intros H1 H2 Heq.
  assert (y = y') as -> by nia. split; [lia|done].
Qed.

Lemma PtIn_In (x y : Z) (r s : image.Rectangle) :
  image.In r s = true -> image.PtIn x y r = true -> image.PtIn x y s = true.
Proof.
  unfold image.In, image.PtIn, image.Empty.
  destruct (_ || _) eqn:E; intros H1 H2; lia.
Qed.

(** The optimizer after a call that is not the first. *)
Lemma Optimize_step (t : Z) (o : Optimizer) (m : Mirror) (h : Heap)
    (pm : image.Paletted) (P0 : list Z) :
  wf_optimizer t o m -> wf_paletted h pm ->
  image.In (image.PRect pm) (mRect m) = true ->
  load h (image.Pix pm) = Ret P0 ->
  exists crop ret P' M' xs',
    Optimize o pm h =
      Ret (inl ret,
           mkOptimizer (Some (mkMirror M' (mStride m) (mRect m) (mPalette m))) xs',
           store h (image.Pix pm) P') /\
    data_inv P0 (mPix m) t (image.Stride pm) (image.PRect pm) (mStride m) (mRect m)
             (fun _ _ => True) crop P' M' xs' /\
    wf_optimizer t
      (mkOptimizer (Some (mkMirror M' (mStride m) (mRect m) (mPalette m))) xs')
      (mkMirror M' (mStride m) (mRect m) (mPalette m)) /\
    (ret = pm \/ exists crop', image.SubImage pm crop' = Ret ret) /\
    forall pm2, wf_paletted h pm2 -> wf_paletted (store h (image.Pix pm) P') pm2.
Proof.
  intros Hwo Hwf Hin Hload.
  destruct (Optimize_next t o m h pm P0 Hwo Hwf Hin Hload)
    as (crop & ret & P' & M' & xs' & Hopt & Hd & _ & Hret).
  destruct (load_wf h pm Hwf) as (b & buf & P & _ & _ & _ & Hload' & _ & HlP).
  rewrite Hload in Hload'. injection Hload' as <-.
  pose proof (d_lenP _ _ _ _ _ _ _ _ _ _ _ _ Hd) as HlP'.
  exists crop, ret, P', M', xs'. split_and!; try done.
  - destruct Hwo as [_ Hms HlM _].
    constructor; cbn [o_pm o_xs mStride mRect mPix]; try done.
    + unfold len. rewrite (d_lenM _ _ _ _ _ _ _ _ _ _ _ _ Hd). exact HlM.
    + exact (d_xs _ _ _ _ _ _ _ _ _ _ _ _ Hd).
  - destruct (image.Eq _ _); eauto.
  - intros pm2. apply store_wf; [done|lia].
Qed.

(** X1.  A call to [Optimize] after the first, on a well-formed frame: when
    the frame's rectangle lies inside the mirror's, the call returns an
    image, without a panic or an error, and leaves an optimizer that is
    ready for the next call, with the mirror's rectangle and palette as they
    were; the heap keeps its buffers, and every image of the heap is still
    well formed.  When the rectangle does not lie inside the mirror's, the
    call returns the error [image outside bounds] and changes nothing. *)
Theorem Optimize_is_safe_and_chains
    (t : Z) (o : Optimizer) (m : Mirror) (h : Heap) (pm : image.Paletted) :
  wf_optimizer t o m -> wf_paletted h pm ->
  (image.In (image.PRect pm) (mRect m) = true ->
   exists ret m' o' h',
     Optimize o pm h = Ret (inl ret, o', h') /\
     wf_optimizer t o' m' /\ mRect m' = mRect m /\ mPalette m' = mPalette m /\
     dom h' = dom h /\
     forall pm2, wf_paletted h pm2 -> wf_paletted h' pm2) /\
  (image.In (image.PRect pm) (mRect m) = false ->
   Optimize o pm h = Ret (inr (errors_New "image outside bounds"), o, h)).
Proof.
  intros Hwo Hwf. split; intros Hin.
  - destruct (load_wf h pm Hwf) as (b & buf & P0 & _ & _ & _ & Hload & _ & _).
    destruct (Optimize_step t o m h pm P0 Hwo Hwf Hin Hload)
      as (crop & ret & P' & M' & xs' & Hopt & _ & Hwo' & _ & Hwf').
    exists ret, (mkMirror M' (mStride m) (mRect m) (mPalette m)). do 2 eexists.
    split; [exact Hopt|]. split_and!; try done. apply store_dom.
  - unfold Optimize. by rewrite (wo_pm _ _ _ Hwo), Hin.
Qed.

Lemma Optimize_is_safe_and_chains_witness :
  (image.In (image.PRect w_frame) (mRect w_mirror) = true ->
   exists ret m' o' h',
     Optimize w_optimizer w_frame w_heap = Ret (inl ret, o', h') /\
     wf_optimizer 2 o' m' /\ mRect m' = mRect w_mirror /\
     mPalette m' = mPalette w_mirror /\
     dom h' = dom w_heap /\
     forall pm2, wf_paletted w_heap pm2 -> wf_paletted h' pm2) /\
  (image.In (image.PRect w_frame) (mRect w_mirror) = false ->
   Optimize w_optimizer w_frame w_heap
   = Ret (inr (errors_New "image outside bounds"), w_optimizer, w_heap)).
Proof.
  apply (Optimize_is_safe_and_chains 2 w_optimizer w_mirror w_heap w_frame).
  - exact w_optimizer_wf.
  - exact w_frame_wf.
Defined.

(** Every pixel of a well-formed frame is there to read, and so is every
    pixel of the mirror. *)
Lemma pixel_is_Some (h : Heap) (pm : image.Paletted) (x y : Z) :
  wf_paletted h pm -> image.PtIn x y (image.PRect pm) = true ->
  is_Some (pixel h pm x y).
Proof.
  intros Hwf Hxy.
  destruct (load_wf h pm Hwf) as (b & buf & P0 & _ & _ & _ & Hload & _ & HlP).
  rewrite (pixel_load h pm P0 x y Hwf Hload Hxy).
  apply lookup_lt_is_Some.
  destruct (pixel_loc_wf h pm x y Hwf Hxy) as (? & _ & Hk & _).
  unfold jof. lia.
Qed.

Lemma mirror_pixel_is_Some (t : Z) (o : Optimizer) (m : Mirror) (x y : Z) :
  wf_optimizer t o m -> image.PtIn x y (mRect m) = true ->
  is_Some (mirror_pixel m x y).
Proof.
  intros [_ Hs Hl _] Hxy. unfold mirror_pixel. apply lookup_lt_is_Some.
  rewrite Hs. unfold len, image.PtIn, image.PixOffset, image.Dx, image.Dy in *. nia.
Qed.

(** A pixel that needs no change shows what the mirror shows, unless it is
    transparent. *)
Lemma unchanged_shows (t : Z) (h : Heap) (m : Mirror) (pm : image.Paletted) (x y : Z) :
  is_Some (pixel h pm x y) -> is_Some (mirror_pixel m x y) ->
  (if unchanged t h m pm x y then mirror_pixel m x y else pixel h pm x y) =
  (if bool_decide (pixel h pm x y = Some t) then mirror_pixel m x y else pixel h pm x y).
Proof.
  intros [p Hp] [q Hq]. unfold unchanged. rewrite Hp, Hq.
  destruct (bool_decide_reflect (p = q)) as [->|Hpq]; cbn [orb].
  - by case_bool_decide.
  - destruct (bool_decide_reflect (p = t)) as [->|Hpt].
    + by rewrite bool_decide_eq_true_2.
    + rewrite bool_decide_eq_false_2; [done|]. by intros [= ->].
Qed.

(** X2.  What a call after the first does to the mirror: the frame is
    drawn over it.  Inside the frame's rectangle the mirror takes every
    pixel of the frame that is not the transparent index and keeps its own
    pixel under a transparent one; outside the rectangle it is as it was,
    and so are its stride and rectangle. *)
Theorem Optimize_updates_mirror
    (t : Z) (o : Optimizer) (m : Mirror) (h : Heap) (pm : image.Paletted) :
  wf_optimizer t o m -> wf_paletted h pm ->
  image.In (image.PRect pm) (mRect m) = true ->
  exists ret m' xs' h',
    Optimize o pm h = Ret (inl ret, mkOptimizer (Some m') xs', h') /\
    mStride m' = mStride m /\ mRect m' = mRect m /\
    forall x y, image.PtIn x y (mRect m) = true ->
      mirror_pixel m' x y =
        if image.PtIn x y (image.PRect pm) && negb (bool_decide (pixel h pm x y = Some t))
        then pixel h pm x y else mirror_pixel m x y.
Proof.
  intros Hwo Hwf Hin.
  destruct (load_wf h pm Hwf) as (b & buf & P0 & _ & _ & _ & Hload & _ & _).
  destruct (Optimize_step t o m h pm P0 Hwo Hwf Hin Hload)
    as (crop & ret & P' & M' & xs' & Hopt & Hd & _ & _ & _).
  exists ret, (mkMirror M' (mStride m) (mRect m) (mPalette m)), xs'. eexists.
  split; [exact Hopt|]. split; [done|]. split; [done|].
  intros x y Hxy. unfold mirror_pixel at 1. cbn [mPix mStride mRect].
  destruct (image.PtIn x y (image.PRect pm)) eqn:Hp; cbn [andb].
  - pose proof (d_Min _ _ _ _ _ _ _ _ _ _ _ _ Hd x y Hp I) as HM. unfold iof in HM.
    rewrite HM, (sameXY_unchanged t h m pm P0 x y Hwf Hload Hp).
    rewrite <- (pixel_load h pm P0 x y Hwf Hload Hp).
    fold (mirror_pixel m x y).
    rewrite (unchanged_shows t h m pm x y (pixel_is_Some h pm x y Hwf Hp)
               (mirror_pixel_is_Some t o m x y Hwo Hxy)).
    by case_bool_decide.
  - unfold mirror_pixel. apply (d_Mout _ _ _ _ _ _ _ _ _ _ _ _ Hd).
    intros x' y' Hp' _ Heq. unfold iof in Heq.
    pose proof (PtIn_In x' y' _ _ Hin Hp') as Hm'.
    rewrite (wo_stride _ _ _ Hwo) in Heq.
    assert (0 <= image.PixOffset (image.Dx (mRect m)) (mRect m) x y) as Hnn.
    { unfold image.PtIn, image.PixOffset, image.Dx in *. nia. }
    rewrite Z2Nat.id in Heq by done.
    destruct (PixOffset_inj (mRect m) x' y' x y Hm' Hxy Heq) as [-> ->].
    unfold inP in Hp'. congruence.
Qed.

Lemma Optimize_updates_mirror_witness :
  exists ret m' xs' h',
    Optimize w_optimizer w_frame w_heap = Ret (inl ret, mkOptimizer (Some m') xs', h') /\
    mStride m' = mStride w_mirror /\ mRect m' = mRect w_mirror /\
    forall x y, image.PtIn x y (mRect w_mirror) = true ->
      mirror_pixel m' x y =
        if image.PtIn x y (image.PRect w_frame) &&
           negb (bool_decide (pixel w_heap w_frame x y = Some 2))
        then pixel w_heap w_frame x y else mirror_pixel w_mirror x y.
Proof.
  apply (Optimize_updates_mirror 2 w_optimizer w_mirror w_heap w_frame).
  - exact w_optimizer_wf.
  - exact w_frame_wf.
  - reflexivity.
Defined.

(** X3.  A call after the first, on the line path or on a frame whose
    rectangle starts at the origin: drawing the returned image over what the
    mirror showed gives, at every pixel of the frame, what the new mirror
    shows, which is the frame's pixel where that is not the transparent
    index and the old mirror's under a transparent one.  So the mirror is at
    every call the picture a viewer has on screen. *)
Theorem Optimize_draws_frame_over_mirror
    (t : Z) (o : Optimizer) (m : Mirror) (h : Heap) (pm : image.Paletted) :
  wf_optimizer t o m -> wf_paletted h pm ->
  image.In (image.PRect pm) (mRect m) = true ->
  fast_path_taken m pm = false \/ image.Min (image.PRect pm) = image.Pt 0 0 ->
  exists ret m' xs' h',
    Optimize o pm h = Ret (inl ret, mkOptimizer (Some m') xs', h') /\
    forall x y, image.PtIn x y (image.PRect pm) = true ->
      composite t (mirror_pixel m x y) h' ret x y = mirror_pixel m' x y /\
      mirror_pixel m' x y =
        if bool_decide (pixel h pm x y = Some t)
        then mirror_pixel m x y else pixel h pm x y.
Proof.
  intros Hwo Hwf Hin Hpath.
  destruct (load_wf h pm Hwf) as (b & buf & P0 & _ & _ & _ & Hload & _ & HlP).
  destruct (Optimize_next t o m h pm P0 Hwo Hwf Hin Hload)
    as (crop & ret & P' & M' & xs' & Hopt & Hd & Hcov & Hret).
  specialize (Hcov Hpath).
  pose proof (d_lenP _ _ _ _ _ _ _ _ _ _ _ _ Hd) as HlP'.
  exists ret, (mkMirror M' (mStride m) (mRect m) (mPalette m)), xs'. eexists.
  split; [exact Hopt|].
  intros x y Hxy.
  pose proof (PtIn_In x y _ _ Hin Hxy) as Hxym.
  pose proof (unchanged_shows t h m pm x y (pixel_is_Some h pm x y Hwf Hxy)
                (mirror_pixel_is_Some t o m x y Hwo Hxym)) as Hshow.
  assert (mirror_pixel (mkMirror M' (mStride m) (mRect m) (mPalette m)) x y =
          if unchanged t h m pm x y then mirror_pixel m x y else pixel h pm x y) as Hmir.
  { unfold mirror_pixel at 1. cbn [mPix mStride mRect].
    pose proof (d_Min _ _ _ _ _ _ _ _ _ _ _ _ Hd x y Hxy I) as HM. unfold iof in HM.
    rewrite HM, (sameXY_unchanged t h m pm P0 x y Hwf Hload Hxy).
    by rewrite <- (pixel_load h pm P0 x y Hwf Hload Hxy). }
  split; [|by rewrite Hmir].
  rewrite Hmir.
  assert (pixel (store h (image.Pix pm) P') pm x y =
          if unchanged t h m pm x y then Some t else pixel h pm x y) as Hnew.
  { rewrite pixel_store by (done || lia).
    rewrite (d_Pin _ _ _ _ _ _ _ _ _ _ _ _ Hd x y Hxy I).
    rewrite (sameXY_unchanged t h m pm P0 x y Hwf Hload Hxy).
    by rewrite (pixel_load h pm P0 x y Hwf Hload Hxy). }
  assert (Hret' : (image.PtIn x y (image.PRect ret) = true /\
                   pixel (store h (image.Pix pm) P') ret x y
                   = pixel (store h (image.Pix pm) P') pm x y) \/
                  (image.PtIn x y (image.PRect ret) = false /\
                   unchanged t h m pm x y = true)).
  { destruct (image.Eq _ _).
    - subst ret. left. done.
    - destruct (SubImage_wf h pm (final_crop pm crop) Hwf)
        as (sub & Hsub & Hr & _ & _ & Hloc).
      rewrite Hsub in Hret. injection Hret as <-.
      destruct (image.PtIn x y (image.PRect sub)) eqn:Hsubin.
      + left. split; [done|]. unfold pixel. by rewrite (Hloc x y Hsubin).
      + right. split; [done|].
        destruct (unchanged t h m pm x y) eqn:Hu; [done|]. exfalso.
        rewrite <- (sameXY_unchanged t h m pm P0 x y Hwf Hload Hxy) in Hu.
        pose proof (Hcov x y Hxy I Hu) as Hc.
        rewrite Hr, Intersect_PtIn, Hxy in Hsubin.
        unfold final_crop in Hsubin. rewrite (PtIn_nonempty _ _ _ Hc), Hc in Hsubin.
        done. }
  destruct (pixel_is_Some h pm x y Hwf Hxy) as [p Hp].
  unfold composite.
  destruct Hret' as [[Hinr Hpix]|[Hout Hsame]].
  - rewrite Hinr, Hpix, Hnew.
    destruct (unchanged t h m pm x y) eqn:Eu.
    + by rewrite bool_decide_eq_true_2.
    + rewrite Hp. unfold unchanged in Eu. rewrite Hp in Eu.
      destruct (mirror_pixel m x y); [|done].
      apply orb_false_iff in Eu as [_ Hpt%bool_decide_eq_false].
      by rewrite bool_decide_eq_false_2.
  - by rewrite Hout, Hsame.
Qed.

Lemma Optimize_draws_frame_over_mirror_witness :
  exists ret m' xs' h',
    Optimize w_optimizer w_frame w_heap = Ret (inl ret, mkOptimizer (Some m') xs', h') /\
    forall x y, image.PtIn x y (image.PRect w_frame) = true ->
      composite 2 (mirror_pixel w_mirror x y) h' ret x y = mirror_pixel m' x y /\
      mirror_pixel m' x y =
        if bool_decide (pixel w_heap w_frame x y = Some 2)
        then mirror_pixel w_mirror x y else pixel w_heap w_frame x y.
Proof.
  apply (Optimize_draws_frame_over_mirror 2 w_optimizer w_mirror w_heap w_frame).
  - exact w_optimizer_wf.
  - exact w_frame_wf.
  - reflexivity.
  - right. reflexivity.
Defined.

(** X4.  The first call on a frame stored contiguously (stride = width):
    it returns the frame itself, leaves the heap untouched, and installs a
    mirror with the frame's rectangle and palette that shows the frame's
    pixel at every point of the rectangle. *)
Theorem Optimize_first_call_copies_contiguous_frame
    (t : Z) (h : Heap) (pm : image.Paletted) :
  wf_paletted h pm ->
  image.Stride pm = image.Dx (image.PRect pm) ->
  exists m,
    Optimize (NewOptimizer t) pm h = Ret (inl pm, mkOptimizer (Some m) [t], h) /\
    wf_optimizer t (mkOptimizer (Some m) [t]) m /\
    mRect m = image.PRect pm /\ mPalette m = image.Palette pm /\
    forall x y, image.PtIn x y (image.PRect pm) = true ->
      mirror_pixel m x y = pixel h pm x y.
Proof.
  intros Hwf Hs.
  destruct (load_wf h pm Hwf) as (b & buf & P0 & _ & _ & _ & Hload & _ & _).
  destruct (Optimize_first t h pm P0 Hwf Hload) as [Hfirst Hwo].
  exists (first_mirror pm P0). split_and!; try done.
  intros x y Hxy. by apply first_mirror_pixel.
Qed.

Lemma Optimize_first_call_copies_contiguous_frame_witness :
  exists m,
    Optimize (NewOptimizer 2) cx_A cx_heap
    = Ret (inl cx_A, mkOptimizer (Some m) [2], cx_heap) /\
    wf_optimizer 2 (mkOptimizer (Some m) [2]) m /\
    mRect m = image.PRect cx_A /\ mPalette m = image.Palette cx_A /\
    forall x y, image.PtIn x y (image.PRect cx_A) = true ->
      mirror_pixel m x y = pixel cx_heap cx_A x y.
Proof.
  apply (Optimize_first_call_copies_contiguous_frame 2 cx_heap cx_A).
  - exact cx_A_wf.
  - reflexivity.
Defined.

(** The loop of [OptimizeAll] from an optimizer that has its mirror. *)
Lemma OptimizeAll_loop_ok (t : Z) (todo : list image.Paletted) :
  forall (o : Optimizer) (m : Mirror) (h : Heap) (done : list image.Paletted),
  wf_optimizer t o m -> Forall (wf_paletted h) todo ->
  Forall (fun pm => image.In (image.PRect pm) (mRect m) = true) todo ->
  exists outs h',
    OptimizeAll_loop o todo done h = Ret (None, done ++ outs, h') /\
    Forall2 (fun pm pm' => pm' = pm \/ exists crop, image.SubImage pm crop = Ret pm')
            todo outs /\
    dom h' = dom h.
Proof.
  induction todo as [|pm todo IH]; intros o m h done Hwo Hwf Hin.
  - exists [], h. cbn [OptimizeAll_loop]. rewrite app_nil_r. by split_and!.
  - apply Forall_cons in Hwf as [Hwf Hwfs]. apply Forall_cons in Hin as [Hin Hins].
    destruct (load_wf h pm Hwf) as (b & buf & P0 & _ & _ & _ & Hload & _ & _).
    destruct (Optimize_step t o m h pm P0 Hwo Hwf Hin Hload)
      as (crop & ret & P' & M' & xs' & Hopt & _ & Hwo' & Hret & Hwf').
    cbn [OptimizeAll_loop]. rewrite Hopt. go_ret.
    destruct (IH _ _ (store h (image.Pix pm) P') (done ++ [ret]) Hwo') as
      (outs & h' & Hloop & Hall & Hdom).
    { eapply Forall_impl; [exact Hwfs|]. intros pm2. apply Hwf'. }
    { exact Hins. }
    exists (ret :: outs), h'. split_and!.
    + rewrite Hloop. by rewrite <- app_assoc.
    + by constructor.
    + by rewrite Hdom, store_dom.
Qed.

(** X5.  [OptimizeAll] leaves fewer than two images alone.  On two or
    more well-formed frames, all lying inside the rectangle of the first,
    it returns no error and as many
    images as it was given: the first frame itself, and for every later
    frame the frame itself or a sub-image of it; the heap keeps its
    buffers. *)
Theorem OptimizeAll_returns_every_frame
    (t : Z) (h : Heap) (pm0 : image.Paletted) (rest : list image.Paletted) :
  wf_paletted h pm0 -> Forall (wf_paletted h) rest ->
  Forall (fun pm => image.In (image.PRect pm) (image.PRect pm0) = true) rest ->
  OptimizeAll [] t h = Ret (None, [], h) /\
  OptimizeAll [pm0] t h = Ret (None, [pm0], h) /\
  (rest <> [] ->
   exists outs h',
     OptimizeAll (pm0 :: rest) t h = Ret (None, pm0 :: outs, h') /\
     Forall2 (fun pm pm' => pm' = pm \/ exists crop, image.SubImage pm crop = Ret pm')
             rest outs /\
     dom h' = dom h).
Proof.
  intros Hwf0 Hwfs Hins. split; [reflexivity|]. split; [reflexivity|].
  intros Hne.
  destruct (load_wf h pm0 Hwf0) as (b & buf & P0 & _ & _ & _ & Hload & _ & _).
  destruct (Optimize_first t h pm0 P0 Hwf0 Hload) as [Hfirst Hwo].
  destruct (OptimizeAll_loop_ok t rest _ _ h [pm0] Hwo Hwfs Hins)
    as (outs & h' & Hloop & Hall & Hdom).
  exists outs, h'. split_and!; try done.
  unfold OptimizeAll.
  assert ((len (pm0 :: rest) <? 2) = false) as ->.
  { destruct rest; [done|]. unfold len. cbn [length]. lia. }
  cbn [OptimizeAll_loop]. rewrite Hfirst. go_ret. exact Hloop.
Qed.

Lemma OptimizeAll_returns_every_frame_witness :
  OptimizeAll [] 2 cx_heap = Ret (None, [], cx_heap) /\
  OptimizeAll [cx_A] 2 cx_heap = Ret (None, [cx_A], cx_heap) /\
  ([cx_B] <> [] ->
   exists outs h',
     OptimizeAll [cx_A; cx_B] 2 cx_heap = Ret (None, cx_A :: outs, h') /\
     Forall2 (fun pm pm' => pm' = pm \/ exists crop, image.SubImage pm crop = Ret pm')
             [cx_B] outs /\
     dom h' = dom cx_heap).
Proof.
  apply (OptimizeAll_returns_every_frame 2 cx_heap cx_A [cx_B]).
  - exact cx_A_wf.
  - apply Forall_cons. split; [exact cx_B_wf|apply Forall_nil_2].
  - apply Forall_cons. split; [reflexivity|apply Forall_nil_2].
Defined.

(** * Further properties of the encoder and of the framing *)

Lemma rune_width_bounds (s : list Z) :
  s <> [] -> (1 <= rune_width s <= 4)%nat /\ (rune_width s <= length s)%nat.
Proof.
  destruct s as [|b0 rest]; [done|]. intros _. unfold rune_width.
  repeat match goal with
         | |- context [if ?c then _ else _] => destruct c
         | |- context [match ?l with [] => _ | _ :: _ => _ end] => destruct l
         end; cbn [length]; lia.
Qed.

(** A string of at most 128 bytes passes the loop over its characters,
    whatever the bytes are. *)
Lemma range_indices_ok_short (fuel : nat) : forall (c : Z) (s : list Z),
  c + len s <= 128 -> range_indices_ok fuel c s = true.
Proof.
  induction fuel as [|fuel IH]; intros c s Hlen; [done|].
  destruct s as [|b s]; [done|]. cbn [range_indices_ok].
  destruct (rune_width_bounds (b :: s) ltac:(done)) as [Hw Hwl].
  unfold len in *. cbn [length] in *.
  unfold unicode_MaxASCII. destruct (c >? 127) eqn:E; [lia|].
  apply IH. rewrite length_drop. cbn [length]. lia.
Qed.

(** A string that passes the loop has its last character start at an index
    of at most 127, so it has at most 131 bytes. *)
Lemma range_indices_ok_long (fuel : nat) : forall (c : Z) (s : list Z),
  (length s <= fuel)%nat -> range_indices_ok fuel c s = true ->
  s = [] \/ c + len s <= 131.
Proof.
  induction fuel as [|fuel IH]; intros c s Hfuel Hok.
  - left. destruct s; [done|]. cbn [length] in Hfuel. lia.
  - destruct s as [|b s]; [by left|]. right. cbn [range_indices_ok] in Hok.
    destruct (rune_width_bounds (b :: s) ltac:(done)) as [Hw Hwl].
    unfold unicode_MaxASCII in Hok. destruct (c >? 127) eqn:E; [done|].
    apply IH in Hok.
    + unfold len in *. rewrite length_drop in Hok.
      destruct Hok as [Hnil|Hok]; [|lia].
      apply (f_equal length) in Hnil. rewrite length_drop in Hnil.
      cbn [length] in *. lia.
    + rewrite length_drop. cbn [length] in *. lia.
Qed.

(** An ASCII string is turned away as soon as it has a byte at index 128. *)
Lemma range_indices_ok_ascii_long (fuel : nat) : forall (c : Z) (s : list Z),
  Forall (fun b => 0 <= b <= 0x7F) s -> (length s <= fuel)%nat ->
  c <= 128 -> 128 < c + len s -> range_indices_ok fuel c s = false.
Proof.
  induction fuel as [|fuel IH]; intros c s Hs Hfuel Hc Hlen.
  - destruct s; [unfold len in Hlen; cbn [length] in Hlen; lia|].
    cbn [length] in Hfuel. lia.
  - destruct s as [|b s]; [unfold len in Hlen; cbn [length] in Hlen; lia|].
    apply Forall_cons in Hs as [Hb Hs]. cbn [range_indices_ok].
    unfold unicode_MaxASCII. destruct (c >? 127) eqn:E; [done|].
    assert (rune_width (b :: s) = 1%nat) as ->.
    { unfold rune_width. destruct (b <? 128) eqn:Eb; [done|lia]. }
    cbn [drop]. rewrite drop_0. unfold len in *. cbn [length] in *.
    apply IH; [done|lia|lia|lia].
Qed.

(** X6.  [validateString] decides by length, not by content: a string of
    at most 128 bytes is accepted whatever its bytes; an accepted string has
    at most 131 bytes; a string of more than 255 bytes is [too long]; and an
    ASCII string of 129 to 255 bytes is turned away as not ASCII. *)
Theorem validateString_decides_by_length (s : list Z) :
  (len s <= 128 -> validateString s = None) /\
  (validateString s = None -> len s <= 131) /\
  (255 < len s -> validateString s = Some (errors_New "string too long")) /\
  (Forall (fun b => 0 <= b <= 0x7F) s -> 128 < len s <= 255 ->
   validateString s = Some (errors_New "string must only contain ASCII characters")).
Proof.
  unfold validateString. split_and!.
  - intros Hlen. destruct (len s >? 255) eqn:E; [lia|].
    by rewrite range_indices_ok_short by lia.
  - destruct (len s >? 255) eqn:E; [done|].
    destruct (range_indices_ok (length s) 0 s) eqn:Hok; [|done]. intros _.
    apply range_indices_ok_long in Hok as [->|Hok]; [done|lia|done].
  - intros Hlen. destruct (len s >? 255) eqn:E; [done|lia].
  - intros Hs Hlen. destruct (len s >? 255) eqn:E; [lia|].
    by rewrite range_indices_ok_ascii_long by (done || lia).
Qed.

Lemma validateString_decides_by_length_witness :
  validateString (replicate 128 0xFF) = None /\
  validateString (replicate 129 0x41)
  = Some (errors_New "string must only contain ASCII characters").
Proof.
  split.
  - apply (validateString_decides_by_length (replicate 128 0xFF)).
    vm_compute. discriminate.
  - apply (validateString_decides_by_length (replicate 129 0x41)).
    + apply Forall_replicate. lia.
    + vm_compute. split; [reflexivity|discriminate].
Defined.

Section writes_on_a_buffer.
Context `{ImageCodec}.

(** X7.  The five extension writers on a buffer with no error latched are
    all or nothing: a call that returns an error has written nothing, and a
    call that returns none has appended exactly the bytes of the block, the
    introducer and label, the fixed fields, and every string or sub-block
    behind its length byte with the terminator after the last. *)
Theorem Write_extension_is_all_or_nothing
    (cfg : Config) (w : list Z) (g : option (Config * Z)) (v : block) :
  (forall f, v <> BFrame f) ->
  let '(e', err) := Write_block (on_buffer w g) v in
  match err with
  | Some _ => e' = on_buffer w g
  | None => e' = on_buffer (w ++ block_bytes cfg v) g
  end.
Proof.
  intros Hv. destruct v as [f|pt|c|an|ua|ue]; cbn [Write_block block_bytes].
  - by destruct (Hv f).
  - destruct (validateStrings (pt_Strings pt)) eqn:E.
    + unfold WritePlainText. by rewrite E.
    + by rewrite WritePlainText_buffer.
  - unfold WriteComment. destruct (validateStrings (c_Strings c)); [done|].
    rewrite e_write_buffer. cbn [e_err on_buffer].
    rewrite writeStrings_buffer. by rewrite <- app_assoc.
  - unfold WriteApplicationNetscape.
    destruct (validateSubBlocks (an_SubBlocks an)); [done|].
    rewrite e_write_buffer. cbn [e_err on_buffer].
    rewrite e_WriteString_buffer. cbn [e_err on_buffer].
    rewrite e_write_buffer. cbn [e_err on_buffer].
    rewrite writeSubBlocks_buffer. by rewrite <- !app_assoc.
  - unfold WriteUnknownApplication.
    destruct (validateString (ua_Identifier ua)); [done|].
    destruct (validateSubBlocks (ua_SubBlocks ua)); [done|].
    rewrite e_write_buffer. cbn [e_err on_buffer].
    rewrite e_WriteString_buffer. cbn [e_err on_buffer].
    rewrite writeSubBlocks_buffer. by rewrite <- !app_assoc.
  - unfold WriteUnknownExtension.
    destruct (validateSubBlocks (ue_SubBlocks ue)); [done|].
    rewrite e_write_buffer. cbn [e_err on_buffer].
    rewrite writeSubBlocks_buffer. by rewrite <- !app_assoc.
Qed.

End writes_on_a_buffer.

Lemma Write_extension_is_all_or_nothing_witness :
  Write_block (H0 := row_codec) (on_buffer [] None)
    (BUnknownExtension (mkUnknownExtension 42 [bytes_of "hello"]))
  = (on_buffer [0x21; 42; 5; 104; 101; 108; 108; 111; 0] None, None).
Proof.
  pose proof (Write_extension_is_all_or_nothing (H := row_codec)
                (mkConfig NoModel 1 1) [] None
                (BUnknownExtension (mkUnknownExtension 42 [bytes_of "hello"]))
                ltac:(discriminate)) as Hw.
  destruct (Write_block _ _) as [e' [err|]] eqn:E.
  - exfalso. cbn in E. discriminate E.
  - rewrite Hw. reflexivity.
Defined.

Section framing.
Context `{ImageCodec}.

(** What [readBlock] has read when it returns a chunk, on a source of
    bytes. *)
Lemma readBlock_inv (d d' : decoder) (chunk : list Z) :
  Forall is_byte (d_r d) -> readBlock d = (inl chunk, d') ->
  d_r d = uint8_of (len chunk) :: chunk ++ d_r d' /\ len chunk <= 255 /\
  d' = set_r d (d_r d').
Proof.
  intros Hbytes Hb. pose proof (readBlock_shrinks d d' chunk Hb) as [_ Hd'].
  unfold readBlock in Hb. destruct (readByte d) as [[n|err] d1] eqn:Hrb; [|done].
  apply readByte_shrinks in Hrb as [Hr Hd1].
  rewrite Hr in Hbytes. apply Forall_cons in Hbytes as [Hn _]. unfold is_byte in Hn.
  destruct (n =? 0) eqn:En.
  - injection Hb as <- <-. rewrite Hr. split_and!; [|done|done].
    f_equal. change (uint8_of (len (@nil Z))) with 0. lia.
  - apply readFull_shrinks in Hb as (Hr1 & Hlen & _).
    rewrite Hr, Hr1. unfold len. rewrite Hlen, Z2Nat.id by lia.
    split_and!; [|lia|done]. f_equal. unfold uint8_of. rewrite Z.mod_small; lia.
Qed.

Lemma readStrings_loop_inv (fuel : nat) :
  forall (d d' : decoder) (acc res : list (list Z)),
  Forall is_byte (d_r d) ->
  readStrings_loop fuel d acc = Ret (inl res, d') ->
  exists chunks, res = acc ++ chunks /\ Forall chunk_ok chunks /\
    d_r d = frame_chunks chunks ++ d_r d'.
Proof.
  induction fuel as [|fuel IH]; intros d d' acc res Hbytes Hloop;
    rewrite readStrings_loop_unfold in Hloop;
    destruct (readBlock d) as [[chunk|err] d1] eqn:Hb; try done;
    destruct (readBlock_inv d d1 chunk Hbytes Hb) as (Hr & Hlen & Hd1);
    destruct (len chunk =? 0) eqn:E; try done.
  - injection Hloop as <- <-. exists []. rewrite app_nil_r. split_and!; [done|done|].
    rewrite Hr. assert (chunk = []) as -> by (destruct chunk; [done|unfold len in E; simpl in E; lia]).
    reflexivity.
  - injection Hloop as <- <-. exists []. rewrite app_nil_r. split_and!; [done|done|].
    rewrite Hr. assert (chunk = []) as -> by (destruct chunk; [done|unfold len in E; simpl in E; lia]).
    reflexivity.
  - apply IH in Hloop as (chunks & -> & Hok & Hr1).
    + exists (chunk :: chunks). rewrite <- app_assoc. split_and!; [done| |].
      * constructor; [|done]. unfold chunk_ok. pose proof (len_nonneg chunk). lia.
      * rewrite Hr, Hr1, frame_chunks_cons. cbn [app]. by rewrite <- app_assoc.
    + rewrite Hr in Hbytes. apply Forall_cons in Hbytes as [_ Hbytes].
      apply Forall_app in Hbytes as [_ Hbytes]. done.
Qed.

(** X8.  The framing round trip: what [writeSubBlocks] (or [writeStrings])
    has put on a buffer for chunks of 1 to 255 bytes, [readSubBlocks] (or
    [readStrings]) reads back as the same chunks, and it stops right after
    the terminator, whatever follows. *)
Theorem sub_blocks_written_are_read_back
    (d : decoder) (g : option (Config * Z)) (chunks : list (list Z)) (rest : list Z) :
  Forall (fun c => 1 <= len c <= 255) chunks ->
  (d_r d = e_w (fst (writeSubBlocks (on_buffer [] g) chunks)) ++ rest ->
   readSubBlocks d = Ret (inl chunks, set_r d rest)) /\
  (d_r d = e_w (fst (writeStrings (on_buffer [] g) chunks)) ++ rest ->
   readStrings d = Ret (inl chunks, set_r d rest)).
Proof.
  intros Hok. rewrite writeSubBlocks_buffer, writeStrings_buffer.
  cbn [fst e_w on_buffer app]. split; intros Hr.
  - by apply readSubBlocks_chunks.
  - by apply readStrings_chunks.
Qed.

(** X9.  Whatever [readSubBlocks] or [readStrings] accepts on a source of
    bytes is well framed: no chunk it returns is empty or longer than 255
    bytes, and the bytes it has read are exactly the framing of the chunks
    it returns, the terminator included. *)
Theorem sub_blocks_read_are_well_framed
    (d d' : decoder) (chunks : list (list Z)) :
  Forall is_byte (d_r d) ->
  readSubBlocks d = Ret (inl chunks, d') \/ readStrings d = Ret (inl chunks, d') ->
  Forall (fun c => 1 <= len c <= 255) chunks /\
  d_r d = frame_chunks chunks ++ d_r d'.
Proof.
  intros Hbytes Hread.
  assert (readStrings_loop (length (d_r d)) d [] = Ret (inl chunks, d')) as Hloop.
  { destruct Hread as [Hread|Hread]; [|done].
    unfold readSubBlocks in Hread. by rewrite readSubBlocks_loop_eq in Hread. }
  apply readStrings_loop_inv in Hloop as (chunks' & -> & Hok & Hr); [|done].
  done.
Qed.

End framing.

Lemma sub_blocks_written_are_read_back_witness :
  readSubBlocks (NewDecoder (H := row_codec) [5; 104; 101; 108; 108; 111; 0; 0x3B])
  = Ret (inl [bytes_of "hello"], NewDecoder (H := row_codec) [0x3B]).
Proof.
  apply (sub_blocks_written_are_read_back (H := row_codec)
           (NewDecoder [5; 104; 101; 108; 108; 111; 0; 0x3B]) None
           [bytes_of "hello"] [0x3B]).
  - apply Forall_cons. split; [vm_compute; split; discriminate|apply Forall_nil_2].
  - reflexivity.
Defined.

Lemma sub_blocks_read_are_well_framed_witness :
  Forall (fun c => 1 <= len c <= 255) [bytes_of "hello"] /\
  [5; 104; 101; 108; 108; 111; 0; 0x3B] = frame_chunks [bytes_of "hello"] ++ [0x3B].
Proof.
  apply (sub_blocks_read_are_well_framed (H := row_codec)
           (NewDecoder [5; 104; 101; 108; 108; 111; 0; 0x3B]) (NewDecoder [0x3B])
           [bytes_of "hello"]).
  - apply (bool_decide_unpack _). vm_compute. exact I.
  - left. reflexivity.
Defined.

(** * Further properties of the decoder *)

Section decoder_progress.
Context `{ImageCodec}.

Lemma readByte_le (d d' : decoder) r : readByte d = (r, d') -> no_longer d d'.
Proof.
  unfold readByte, no_longer. destruct (d_r d) as [|b rest] eqn:Hr.
  - intros [= _ <-]. by rewrite Hr.
  - intros [= _ <-]. cbn. lia.
Qed.

Lemma readFull_le (d d' : decoder) n r : readFull d n = (r, d') -> no_longer d d'.
Proof.
  unfold readFull, no_longer. case_decide; intros [= _ <-]; cbn.
  - rewrite length_drop. lia.
  - lia.
Qed.

Lemma readBlock_le (d d' : decoder) r : readBlock d = (r, d') -> no_longer d d'.
Proof.
  unfold readBlock, no_longer. destruct (readByte d) as [[n|err] d1] eqn:Hb.
  - apply readByte_le in Hb. unfold no_longer in Hb.
    destruct (n =? 0); [intros [= _ <-]; lia|].
    intros Hf%readFull_le. unfold no_longer in Hf. lia.
  - apply readByte_le in Hb. intros [= _ <-]. done.
Qed.

Lemma readStrings_loop_returns (fuel : nat) :
  forall (d : decoder) (acc : list (list Z)),
  (length (d_r d) <= fuel)%nat ->
  exists r d', readStrings_loop fuel d acc = Ret (r, d') /\ no_longer d d'.
Proof.
  induction fuel as [|fuel IH]; intros d acc Hfuel;
    rewrite readStrings_loop_unfold;
    destruct (readBlock d) as [[chunk|err] d1] eqn:Hb;
    pose proof (readBlock_le _ _ _ Hb) as Hle; try by eauto.
  - apply readBlock_shrinks in Hb as [Hlt _]. lia.
  - destruct (len chunk =? 0); [by eauto|].
    apply readBlock_shrinks in Hb as [Hlt _].
    destruct (IH d1 (acc ++ [chunk])) as (r & d' & -> & Hle'); [lia|].
    do 2 eexists. split; [done|]. unfold no_longer in *. lia.
Qed.

Lemma readStrings_returns (d : decoder) :
  exists r d', readStrings d = Ret (r, d') /\ no_longer d d'.
Proof. by apply readStrings_loop_returns. Qed.

Lemma readSubBlocks_returns (d : decoder) :
  exists r d', readSubBlocks d = Ret (r, d') /\ no_longer d d'.
Proof.
  unfold readSubBlocks. rewrite readSubBlocks_loop_eq. by apply readStrings_loop_returns.
Qed.

Lemma readPlainText_returns (d : decoder) :
  exists r d', readPlainText d = Ret (r, d') /\ no_longer d d'.
Proof.
  unfold readPlainText.
  destruct (readFull d 13) as [[tmp|err] d1] eqn:Hf;
    pose proof (readFull_le _ _ _ _ Hf) as Hle; [|by eauto].
  apply readFull_shrinks in Hf as (Hr & Hlen & Hd1).
  do 13 (destruct tmp as [|? tmp]; [done|]). destruct tmp; [|done].
  destruct (negb (_ =? 12)); [by eauto|].
  cbn [readUint16 mbind outcome_bind].
  destruct (readStrings_returns d1) as (r & d2 & -> & Hle2). cbn [mbind outcome_bind].
  unfold no_longer in *.
  destruct r as [strings|err]; do 2 eexists; (split; [reflexivity|]); cbn [d_r]; lia.
Qed.

Lemma readComment_returns (d : decoder) :
  exists r d', readComment d = Ret (r, d') /\ no_longer d d'.
Proof.
  unfold readComment.
  destruct (readStrings_returns d) as (r & d2 & -> & Hle2). cbn [mbind outcome_bind].
  destruct r; by eauto.
Qed.

Lemma readUnknownExtension_returns (d : decoder) (label : Z) :
  exists r d', readUnknownExtension d label = Ret (r, d') /\ no_longer d d'.
Proof.
  unfold readUnknownExtension.
  destruct (readSubBlocks_returns d) as (r & d2 & -> & Hle2). cbn [mbind outcome_bind].
  destruct r; by eauto.
Qed.

Lemma readApplication_returns (d : decoder) :
  exists r d', readApplication d = Ret (r, d') /\ no_longer d d'.
Proof.
  unfold readApplication.
  destruct (readByte d) as [[b|err] d1] eqn:Hb;
    pose proof (readByte_le _ _ _ Hb) as Hle1; [|by eauto].
  destruct (readFull d1 (Z.to_nat b)) as [[id|err] d2] eqn:Hf;
    pose proof (readFull_le _ _ _ _ Hf) as Hle2; unfold no_longer in *;
    [|do 2 eexists; split; [reflexivity|lia]].
  case_bool_decide.
  - destruct (readBlock d2) as [[tmp|err] d3] eqn:Hbl;
      pose proof (readBlock_le _ _ _ Hbl) as Hle3; unfold no_longer in *;
      [|do 2 eexists; split; [reflexivity|lia]].
    assert (exists d4, (if (len tmp =? 3) && bool_decide (tmp !! 0%nat = Some 1)
                        then n ← readUint16 (drop 1 tmp); Ret (set_loopCount d3 n)
                        else Ret d3) = Ret d4 /\ d_r d4 = d_r d3) as (d4 & -> & Hr4).
    { destruct ((len tmp =? 3) && _) eqn:E; [|by eauto].
      destruct tmp as [|t0 [|t1 [|t2 tmp]]]; unfold len in E; cbn [length] in E;
        try (exfalso; lia).
      cbn [drop readUint16 mbind outcome_bind]. by eauto. }
    cbn [mbind outcome_bind].
    destruct (readSubBlocks_returns d4) as (r & d5 & -> & Hle5). cbn [mbind outcome_bind].
    unfold no_longer in *. rewrite Hr4 in Hle5.
    destruct r; do 2 eexists; (split; [reflexivity|lia]).
  - destruct (readSubBlocks_returns d2) as (r & d5 & -> & Hle5). cbn [mbind outcome_bind].
    unfold no_longer in *.
    destruct r; do 2 eexists; (split; [reflexivity|lia]).
Qed.

Lemma readExtension_returns (d : decoder) :
  exists r d', readExtension_ d = Ret (r, d') /\ no_longer d d'.
Proof.
  unfold readExtension_.
  destruct (readByte d) as [[label|err] d1] eqn:Hb;
    pose proof (readByte_le _ _ _ Hb) as Hle1; [|by eauto].
  unfold no_longer in *.
  destruct (label =? eText).
  { destruct (readPlainText_returns d1) as (r & d2 & -> & Hle2).
    unfold no_longer in *. do 2 eexists. split; [reflexivity|lia]. }
  destruct (label =? eGraphicControl).
  { destruct (readGraphicControl d1) as [err d2] eqn:Hg.
    do 2 eexists. split; [reflexivity|].
    unfold readGraphicControl in Hg.
    destruct (readFull d1 6) as [[tmp|e] d3] eqn:Hf;
      pose proof (readFull_le _ _ _ _ Hf) as Hle3; unfold no_longer in *.
    - destruct tmp as [|size [|flags [|d0 [|d1' [|ti [|term [|]]]]]]];
        try (injection Hg as _ <-; lia).
      destruct (negb (size =? 4)); [injection Hg as _ <-; cbn [d_r]; lia|].
      cbv zeta in Hg.
      destruct (negb (term =? 0)); injection Hg as _ <-; cbn [d_r]; lia.
    - injection Hg as _ <-. lia. }
  destruct (label =? eComment).
  { destruct (readComment_returns d1) as (r & d2 & -> & Hle2).
    unfold no_longer in *. do 2 eexists. split; [reflexivity|lia]. }
  destruct (label =? eApplication).
  { destruct (readApplication_returns d1) as (r & d2 & -> & Hle2).
    unfold no_longer in *. do 2 eexists. split; [reflexivity|lia]. }
  destruct (readUnknownExtension_returns d1 label) as (r & d2 & -> & Hle2).
  unfold no_longer in *. do 2 eexists. split; [reflexivity|lia].
Qed.

Lemma read_frame_returns (d : decoder) :
  codec_no_growth ->
  exists r d', read_frame d = Ret (r, d') /\ no_longer d d'.
Proof.
  intros Hcodec. unfold read_frame, readImageDescriptor, no_longer.
  destruct (decode_image _ _ _) as [[m rest]|err] eqn:Hdec; [|by eauto].
  apply Hcodec in Hdec.
  cbn [d_image d_delay d_disposal d_r].
  destruct (d_image d), (d_delay d), (d_disposal d);
    cbn [app lookup list_lookup of_option mbind outcome_bind];
    do 2 eexists; (split; [reflexivity|]); cbn [d_r]; lia.
Qed.

(** [ReadBlock] returns, and a block it returns has cost at least one
    byte. *)
Lemma ReadBlock_loop_returns (fuel : nat) : forall (d : decoder),
  codec_no_growth -> (length (d_r d) <= fuel)%nat ->
  exists r d', ReadBlock_loop fuel d = Ret (r, d') /\ no_longer d d' /\
    (is_Some (match r with inl b => Some b | inr _ => None end) ->
     (length (d_r d') < length (d_r d))%nat).
Proof.
  induction fuel as [|fuel IH]; intros d Hcodec Hfuel;
    rewrite ReadBlock_loop_unfold;
    destruct (readByte d) as [[c|err] d1] eqn:Hb.
  all: try (do 2 eexists; split; [reflexivity|];
            split; [by eapply readByte_le|by intros [? [=]]]).
  - apply readByte_shrinks in Hb as [Hr _]. rewrite Hr in Hfuel. cbn in Hfuel. lia.
  - apply readByte_shrinks in Hb as [Hr _].
    assert (length (d_r d1) < length (d_r d))%nat as Hlt by (rewrite Hr; cbn; lia).
    unfold no_longer.
    destruct (c =? sExtension).
    { destruct (readExtension_returns d1) as (r & d2 & He & Hle2).
      rewrite He. cbn [mbind outcome_bind]. unfold no_longer in Hle2.
      destruct r as [b|err|].
      - do 2 eexists. split; [reflexivity|]. split; [lia|intros _; lia].
      - do 2 eexists. split; [reflexivity|]. split; [lia|by intros [? [=]]].
      - destruct (IH d2 Hcodec) as (r & d3 & -> & Hle3 & Hlt3); [lia|].
        unfold no_longer in Hle3.
        do 2 eexists. split; [reflexivity|]. split; [lia|]. intros Hs.
        specialize (Hlt3 Hs). lia. }
    destruct (c =? sImageDescriptor).
    { destruct (read_frame_returns d1 Hcodec) as (r & d2 & -> & Hle2).
      unfold no_longer in Hle2.
      do 2 eexists. split; [reflexivity|]. split; [lia|intros _; lia]. }
    destruct (c =? sTrailer);
      do 2 eexists; (split; [reflexivity|]); (split; [lia|by intros [? [=]]]).
Qed.

Lemma ReadBlock_returns (d : decoder) :
  codec_no_growth ->
  exists r d', ReadBlock d = Ret (r, d') /\ no_longer d d' /\
    (is_Some (match r with inl b => Some b | inr _ => None end) ->
     (length (d_r d') < length (d_r d))%nat).
Proof. intros Hcodec. by apply ReadBlock_loop_returns. Qed.

End decoder_progress.

Section decoder_never_hangs.
Context `{ImageCodec}.
Hypothesis Hcodec : codec_no_growth.

(** X10.  [ReadBlock] returns on every decoder and every source, well
    formed or not: it does not panic on an index and its loop over graphic
    control extensions ends.  The source it leaves is no longer than the one
    it found, and a block it returns has cost at least one byte. *)
Theorem ReadBlock_always_returns (d : decoder) :
  exists r d', ReadBlock d = Ret (r, d') /\
    (length (d_r d') <= length (d_r d))%nat /\
    match r with
    | inl _ => (length (d_r d') < length (d_r d))%nat
    | inr _ => True
    end.
Proof.
  destruct (ReadBlock_returns d Hcodec) as (r & d' & Hrb & Hle & Hlt).
  exists r, d'. split; [done|]. split; [done|].
  destruct r; [|done]. apply Hlt. by eexists.
Qed.

(** A frame that [ReadBlock] returns has a delay that fits 16 bits. *)
Lemma readExtension_no_frame (d d' : decoder) (f : Frame) :
  readExtension_ d <> Ret (ExtBlock (BFrame f), d').
Proof.
  unfold readExtension_.
  destruct (readByte d) as [[label|err] d1]; [|done].
  destruct (label =? eText).
  { destruct (readPlainText d1) as [[[?|?] ?]| |]; done. }
  destruct (label =? eGraphicControl).
  { destruct (readGraphicControl d1) as [[?|] ?]; done. }
  destruct (label =? eComment).
  { destruct (readComment d1) as [[[?|?] ?]| |]; done. }
  destruct (label =? eApplication).
  { unfold readApplication.
    destruct (readByte d1) as [[b|err] d2]; [|done].
    destruct (readFull d2 (Z.to_nat b)) as [[id|err] d3]; [|done].
    case_bool_decide.
    - destruct (readBlock d3) as [[tmp|err] d4]; [|done].
      destruct (if (len tmp =? 3) && _ then _ else _) as [d5| |]; try done.
      cbn [mbind outcome_bind].
      destruct (readSubBlocks d5) as [[[?|?] ?]| |]; done.
    - destruct (readSubBlocks d3) as [[[?|?] ?]| |]; done. }
  destruct (readUnknownExtension d1 label) as [[[?|?] ?]| |]; done.
Qed.

Lemma ReadBlock_loop_frame_delay (fuel : nat) : forall (d d' : decoder) (f : Frame),
  ReadBlock_loop fuel d = Ret (inl (BFrame f), d') -> is_uint16 (f_DelayTime f).
Proof.
  induction fuel as [|fuel IH]; intros d d' f; rewrite ReadBlock_loop_unfold;
    destruct (readByte d) as [[c|err] d1]; try done;
    (destruct (c =? sExtension);
     [destruct (readExtension_ d1) as [[[b|err|] d2]| |] eqn:He; try done;
      cbn [mbind outcome_bind]; try by eauto;
      intros [= -> ->]; by apply readExtension_no_frame in He|]);
    (destruct (c =? sImageDescriptor); [|by destruct (c =? sTrailer)]);
    unfold read_frame; destruct (readImageDescriptor d1) as [[err|] d2]; try done;
    destruct (d_image d2 !! 0%nat); try done;
    destruct (d_delay d2 !! 0%nat); try done;
    destruct (d_disposal d2 !! 0%nat); try done;
    cbn [of_option mbind outcome_bind]; intros [= <- _];
    apply uint16_of_range.
Qed.

Lemma Decode_loop_returns (fuel : nat) : forall (d : decoder) (g : GIF),
  (length (d_r d) <= fuel)%nat ->
  len (g_Delay g) = len (g_Image g) -> len (g_Disposal g) = len (g_Image g) ->
  Forall is_uint16 (g_Delay g) ->
  exists r d', Decode_loop fuel d g = Ret (r, d') /\
    match r with
    | inl g' =>
        1 <= len (g_Image g') /\ len (g_Delay g') = len (g_Image g') /\
        len (g_Disposal g') = len (g_Image g') /\ Forall is_uint16 (g_Delay g') /\
        g_Config g' = g_Config g /\ g_BackgroundIndex g' = g_BackgroundIndex g
    | inr _ => True
    end.
Proof.
  induction fuel as [|fuel IH]; intros d g Hfuel Hl1 Hl2 Hu;
    cbn [Decode_loop];
    destruct (ReadBlock_returns d Hcodec) as (r & d1 & Hrb & Hle & Hlt);
    rewrite Hrb; cbn [mbind outcome_bind];
    (destruct r as [b|err];
     [specialize (Hlt (ex_intro _ b eq_refl))|
      destruct (is_EOF err); [|do 2 eexists; split; [reflexivity|exact I]];
      destruct (len (g_Image g) =? 0) eqn:E; [do 2 eexists; split; [reflexivity|exact I]|];
      do 2 eexists; split; [reflexivity|]; split_and!; try done;
      unfold len in *; lia]).
  - lia.
  - unfold no_longer in Hle.
    destruct b as [f| | | | |];
      try (apply IH; [lia|done|done|done]).
    + destruct (IH d1 (mkGIF (g_Image g ++ [f_Image f]) (g_Delay g ++ [f_DelayTime f])
                        (g_Disposal g ++ [f_DisposalMethod f]) (g_Config g)
                        (g_BackgroundIndex g) (g_LoopCount g))) as (r & d' & -> & Hr).
      * lia.
      * cbn [g_Image g_Delay]. unfold len in *. rewrite !length_app. cbn [length]. lia.
      * cbn [g_Image g_Disposal]. unfold len in *. rewrite !length_app. cbn [length]. lia.
      * cbn [g_Delay]. apply Forall_app. split; [done|].
        apply Forall_cons. split; [|apply Forall_nil_2].
        unfold ReadBlock in Hrb. by apply ReadBlock_loop_frame_delay in Hrb.
      * do 2 eexists. split; [reflexivity|exact Hr].
    + destruct (IH d1 (mkGIF (g_Image g) (g_Delay g) (g_Disposal g) (g_Config g)
                        (g_BackgroundIndex g) (an_LoopCount an))) as (r & d' & -> & Hr);
        [lia|done|done|done|].
      do 2 eexists. split; [reflexivity|exact Hr].
Qed.

Lemma DecodeFirst_loop_returns (fuel : nat) : forall (d : decoder),
  (length (d_r d) <= fuel)%nat ->
  exists r d', DecodeFirst_loop fuel d = Ret (r, d').
Proof.
  induction fuel as [|fuel IH]; intros d Hfuel;
    cbn [DecodeFirst_loop];
    destruct (ReadBlock_returns d Hcodec) as (r & d1 & Hrb & Hle & Hlt);
    rewrite Hrb; cbn [mbind outcome_bind];
    (destruct r as [b|err];
     [specialize (Hlt (ex_intro _ b eq_refl))|destruct (is_EOF err); by eauto]).
  - lia.
  - unfold no_longer in Hle. destruct b; try by eauto.
    all: apply IH; lia.
Qed.

(** X11.  [Decode] and [DecodeFirst] return on every source, well formed
    or not.  A [GIF] that [Decode] returns has at least one image, as many
    delays and disposal methods as images, and every delay within 16
    bits. *)
Theorem Decode_always_returns (d : decoder) :
  (exists r d', Decode d = Ret (r, d') /\
     match r with
     | inl g =>
         1 <= len (g_Image g) /\ len (g_Delay g) = len (g_Image g) /\
         len (g_Disposal g) = len (g_Image g) /\ Forall is_uint16 (g_Delay g)
     | inr _ => True
     end) /\
  (exists r d', DecodeFirst d = Ret (r, d')).
Proof.
  split.
  - unfold Decode. destruct (ReadHeader _) as [[hdr|err] d1];
      [|do 2 eexists; split; [reflexivity|exact I]].
    destruct (Decode_loop_returns (length (d_r d1)) d1
                (mkGIF [] [] []
                   (match hdr with Some h => Some (hdr_Config h) | None => None end)
                   (match hdr with Some h => hdr_BackgroundIndex h | None => 0 end) (-1)))
      as (r & d' & -> & Hr); try done.
    do 2 eexists. split; [reflexivity|].
    destruct r as [g|]; [|done]. by destruct Hr as (? & ? & ? & ? & _).
  - unfold DecodeFirst. destruct (ReadHeader d) as [[hdr|err] d1]; [|by eauto].
    by apply DecodeFirst_loop_returns.
Qed.

End decoder_never_hangs.

Lemma row_codec_no_growth : codec_no_growth (H := row_codec).
Proof.
  intros hdr ti r m rest Hdec. cbn in Hdec. unfold row_decode_image in Hdec.
  destruct r as [|n r]; [discriminate Hdec|].
  destruct (decide (Z.to_nat n <= length r)%nat); [|discriminate Hdec].
  injection Hdec as _ <-. rewrite length_drop. cbn [length]. lia.
Defined.

Lemma ReadBlock_always_returns_witness :
  exists r d', ReadBlock (NewDecoder (H := row_codec) [0x2C; 0x01]) = Ret (r, d') /\
    (length (d_r d') <= 2)%nat /\
    match r with
    | inl _ => (length (d_r d') < 2)%nat
    | inr _ => True
    end.
Proof.
  apply (ReadBlock_always_returns (H := row_codec) row_codec_no_growth
           (NewDecoder [0x2C; 0x01])).
Defined.

Lemma Decode_always_returns_witness :
  (exists r d', Decode (NewDecoder (H := row_codec) [0x47; 0x49]) = Ret (r, d') /\
     match r with
     | inl g =>
         1 <= len (g_Image g) /\ len (g_Delay g) = len (g_Image g) /\
         len (g_Disposal g) = len (g_Image g) /\ Forall is_uint16 (g_Delay g)
     | inr _ => True
     end) /\
  (exists r d', DecodeFirst (NewDecoder (H := row_codec) [0x47; 0x49]) = Ret (r, d')).
Proof.
  apply (Decode_always_returns (H := row_codec) row_codec_no_growth
           (NewDecoder [0x47; 0x49])).
Defined.

(** ** Streams of blocks *)

Section streams.
Context `{ImageCodec}.

Lemma block_bytes_nonempty (cfg : Config) (v : block) :
  (1 <= length (block_bytes cfg v))%nat.
Proof.
  destruct v; cbn [block_bytes]; unfold frame_bytes, plain_text_head;
    rewrite ?length_app; cbn [length]; lia.
Qed.

Lemma stream_bytes_cons (cfg : Config) (v : block) (blocks : list block) :
  stream_bytes cfg (v :: blocks) = block_bytes cfg v ++ stream_bytes cfg blocks.
Proof. reflexivity. Qed.

Lemma stream_bytes_app (cfg : Config) (l1 l2 : list block) :
  stream_bytes cfg (l1 ++ l2) = stream_bytes cfg l1 ++ stream_bytes cfg l2.
Proof. unfold stream_bytes. by rewrite map_app, concat_app. Qed.

Lemma ReadBlock_trailer_rest (d : decoder) (rest : list Z) :
  d_r d = sTrailer :: rest -> ReadBlock d = Ret (inr io_EOF, set_r d rest).
Proof.
  intros Hr. unfold ReadBlock. rewrite ReadBlock_loop_unfold.
  by rewrite (readByte_cons d sTrailer rest Hr).
Qed.

(** [Decode]'s loop over a stream of blocks that are valid for the round
    trip, from a decoder between blocks. *)
Lemma Decode_loop_stream (cfg : Config) (hdr : Header) (blocks : list block) :
  forall (fuel : nat) (d : decoder) (g : GIF) (junk : list Z),
  Forall (rt_valid cfg hdr) blocks ->
  d_hdr d = Some hdr -> scratch_idle d -> queues_empty d ->
  d_r d = stream_bytes cfg blocks ++ sTrailer :: junk ->
  (length blocks <= fuel)%nat ->
  exists d',
    Decode_loop fuel d g =
      Ret (let g' :=
             mkGIF (g_Image g ++ map f_Image (frames_in blocks))
                   (g_Delay g ++ map (fun f => delay_units (f_DelayTime f)) (frames_in blocks))
                   (g_Disposal g ++ disposals_from (d_disposalMethod d) blocks)
                   (g_Config g) (g_BackgroundIndex g)
                   (foldl (fun acc b => match b with
                                        | BApplicationNetscape an => an_LoopCount an
                                        | _ => acc
                                        end) (g_LoopCount g) blocks) in
           if len (g_Image g') =? 0
           then inr (errors_New "gif: missing image data") else inl g', d') /\
    d_r d' = junk.
Proof.
  induction blocks as [|v blocks IH]; intros fuel d g junk Hv Hhdr Hsc Hq Hr Hfuel.
  - cbn [stream_bytes map concat app] in Hr.
    exists (set_r d junk). split; [|done].
    destruct fuel; cbn [Decode_loop]; rewrite (ReadBlock_trailer_rest d junk Hr);
      cbn [mbind outcome_bind is_EOF frames_in omap map foldl disposals_from];
      rewrite !app_nil_r; destruct g; cbn [g_Image g_Delay g_Disposal g_Config
        g_BackgroundIndex g_LoopCount]; by destruct (len _ =? 0).
  - apply Forall_cons in Hv as [Hv Hvs].
    rewrite stream_bytes_cons, <- app_assoc in Hr.
    destruct (ReadBlock_block_bytes cfg hdr v d _ Hv Hhdr Hsc Hq Hr)
      as (d1 & Hrb & Hr1 & Hh1 & Hsc1 & Hp1 & Hq1).
    rewrite Hhdr in Hh1.
    destruct fuel as [|fuel]; [cbn [length] in Hfuel; lia|].
    cbn [length] in Hfuel.
    cbn [Decode_loop]. rewrite Hrb. cbn [mbind outcome_bind].
    cbn [disposals_from]. rewrite <- Hp1.
    destruct v as [f|pt|c|an|ua|ue]; cbn [decoded_from].
    + destruct (IH fuel d1
                  (mkGIF (g_Image g ++ [f_Image f])
                     (g_Delay g ++ [delay_units (f_DelayTime f)])
                     (g_Disposal g ++ [d_disposalMethod d1])
                     (g_Config g) (g_BackgroundIndex g) (g_LoopCount g)) junk)
        as (d' & Heq & Hr'); try done; [lia|].
      exists d'. split; [|done].
      cbn [pending_after] in Hp1. cbn [f_Image f_DelayTime f_DisposalMethod].
      rewrite <- Hp1, Heq.
      cbn [g_Image g_Delay g_Disposal g_Config g_BackgroundIndex g_LoopCount
           frames_in omap map foldl].
      by rewrite <- !app_assoc.
    + destruct (IH fuel d1 g junk) as (d' & -> & Hr'); try done; [lia|]. by exists d'.
    + destruct (IH fuel d1 g junk) as (d' & -> & Hr'); try done; [lia|]. by exists d'.
    + destruct (IH fuel d1
                  (mkGIF (g_Image g) (g_Delay g) (g_Disposal g) (g_Config g)
                     (g_BackgroundIndex g) (an_LoopCount an)) junk)
        as (d' & -> & Hr'); try done; [lia|]. by exists d'.
    + destruct (IH fuel d1 g junk) as (d' & -> & Hr'); try done; [lia|]. by exists d'.
    + destruct (IH fuel d1 g junk) as (d' & -> & Hr'); try done; [lia|]. by exists d'.
Qed.

Lemma stream_bytes_length (cfg : Config) (blocks : list block) :
  (length blocks <= length (stream_bytes cfg blocks))%nat.
Proof.
  induction blocks as [|v blocks IH]; [done|].
  rewrite stream_bytes_cons, length_app. cbn [length].
  pose proof (block_bytes_nonempty cfg v). lia.
Qed.

(** [Decode] on the header, a stream of blocks, the trailer and whatever
    follows. *)
Lemma Decode_stream (cfg : Config) (backgroundIndex : Z) (hdr : Header)
    (blocks : list block) (junk : list Z) :
  (forall rest,
     decode_header (encode_header cfg backgroundIndex ++ rest) = inl (hdr, rest)) ->
  Forall (rt_valid cfg hdr) blocks ->
  exists d',
    Decode (NewDecoder (encode_header cfg backgroundIndex ++
                        stream_bytes cfg blocks ++ sTrailer :: junk)) =
      Ret (if len (frames_in blocks) =? 0
           then inr (errors_New "gif: missing image data")
           else inl (mkGIF (map f_Image (frames_in blocks))
                       (map (fun f => delay_units (f_DelayTime f)) (frames_in blocks))
                       (disposals_from 0 blocks)
                       (Some (hdr_Config hdr)) (hdr_BackgroundIndex hdr)
                       (last_loop_count blocks)), d') /\
    d_r d' = junk.
Proof.
  intros Hheader Hv.
  unfold Decode, ReadHeader, readHeaderAndScreenDescriptor.
  unfold NewDecoder, set_loopCount. cbn [d_r]. rewrite Hheader.
  cbn [d_hdr d_r d_loopCount d_delayTime d_disposalMethod d_transparentIndex
       d_hasTransparentIndex d_delay d_disposal d_image].
  edestruct (Decode_loop_stream cfg hdr blocks) as (d' & -> & Hr');
    [exact Hv|..|exists d'; split; [|exact Hr']].
  - reflexivity.
  - done.
  - done.
  - reflexivity.
  - cbn [d_r]. rewrite length_app. pose proof (stream_bytes_length cfg blocks). lia.
  - cbn [g_Image g_Delay g_Disposal g_Config g_BackgroundIndex g_LoopCount app
         d_disposalMethod].
    unfold len. rewrite length_map. reflexivity.
Qed.

(** Frames that are all written with a graphic control extension of their
    own are reported with their own disposal methods, whatever was
    pending. *)
Lemma disposals_from_own (blocks : list block) : forall p : Z,
  Forall (fun f => has_graphic_control f = true) (frames_in blocks) ->
  disposals_from p blocks = map f_DisposalMethod (frames_in blocks).
Proof.
  induction blocks as [|v blocks IH]; intros p Hall; [done|].
  cbn [disposals_from].
  destruct v as [f|pt|c|an|ua|ue];
    try (cbn [app]; apply IH; exact Hall).
  change (frames_in (BFrame f :: blocks)) with (f :: frames_in blocks) in Hall |- *.
  apply Forall_cons in Hall as [Hf Hall].
  cbn [pending_after map app]. rewrite Hf. f_equal. by apply IH.
Qed.

(** X12.  [Decode] on a well-formed stream: the header, any sequence of
    blocks that are valid for the round trip, the trailer, and whatever
    follows.  It returns the images of the frames in stream order with their
    delays (in units of 10 ms), the configuration and background index of
    the header, and the loop count of the last NETSCAPE2.0 block, [-1] when
    there is none; plain texts, comments and other extensions are skipped,
    and nothing after the trailer is read.  The disposal method reported for
    a frame is its own when the frame was written with a graphic control
    extension (a delay of at least 10 ms, a disposal method other than 0 or
    a transparent color); a frame without one is reported with the disposal
    method of the last frame before it that had one, or 0 when there is none
    or a plain text has come since.  With no frame in the stream the result
    is the error [gif: missing image data]. *)
Theorem Decode_collects_the_frames_of_a_stream
    (cfg : Config) (backgroundIndex : Z) (hdr : Header)
    (blocks : list block) (junk : list Z) :
  (forall rest,
     decode_header (encode_header cfg backgroundIndex ++ rest) = inl (hdr, rest)) ->
  Forall (rt_valid cfg hdr) blocks ->
  (exists d',
     Decode (NewDecoder (encode_header cfg backgroundIndex ++
                         stream_bytes cfg blocks ++ sTrailer :: junk)) =
       Ret (if len (frames_in blocks) =? 0
            then inr (errors_New "gif: missing image data")
            else inl (mkGIF (map f_Image (frames_in blocks))
                        (map (fun f => delay_units (f_DelayTime f)) (frames_in blocks))
                        (disposals_from 0 blocks)
                        (Some (hdr_Config hdr)) (hdr_BackgroundIndex hdr)
                        (last_loop_count blocks)), d') /\
     d_r d' = junk) /\
  (Forall (fun f => has_graphic_control f = true) (frames_in blocks) ->
   disposals_from 0 blocks = map f_DisposalMethod (frames_in blocks)).
Proof.
  intros Hheader Hv. split; [by apply Decode_stream|apply disposals_from_own].
Qed.

End streams.

Lemma row_header_round_trip (rest : list Z) :
  decode_header (ImageCodec := row_codec)
    (encode_header (ImageCodec := row_codec) (mkConfig NoModel 1 1) 0 ++ rest)
  = inl (mkHeader (bytes_of "GIF89a") (mkConfig NoModel 1 1) 0, rest).
Proof. reflexivity. Defined.

Lemma row_frame_valid :
  rt_frame (H := row_codec) (mkConfig NoModel 1 1)
    (mkHeader (bytes_of "GIF89a") (mkConfig NoModel 1 1) 0)
    (mkFrame ([0] : @Img row_codec) 0 0).
Proof.
  split; [unfold rt_delay; simpl; lia|].
  split; [unfold rt_disposal; simpl; lia|].
  split; [reflexivity|]. split; [discriminate|].
  intros rest. reflexivity.
Defined.

Lemma row_comment_valid :
  rt_valid (H := row_codec) (mkConfig NoModel 1 1)
    (mkHeader (bytes_of "GIF89a") (mkConfig NoModel 1 1) 0)
    (BComment (mkComment [bytes_of "hello"])).
Proof.
  split; [discriminate|]. unfold rt_string. apply (bool_decide_unpack _).
  vm_compute. exact I.
Defined.

Lemma row_frame_with_disposal_valid :
  rt_frame (H := row_codec) (mkConfig NoModel 1 1)
    (mkHeader (bytes_of "GIF89a") (mkConfig NoModel 1 1) 0)
    (mkFrame ([7] : @Img row_codec) (90 * time_Millisecond) 2).
Proof.
  split; [unfold rt_delay, time_Millisecond; cbn [f_DelayTime]; lia|].
  split; [unfold rt_disposal; simpl; lia|].
  split; [reflexivity|]. split; [discriminate|].
  intros rest. reflexivity.
Defined.

Lemma Decode_collects_the_frames_of_a_stream_witness :
  exists d',
    Decode (NewDecoder (H := row_codec)
              (encode_header (mkConfig NoModel 1 1) 0 ++
               stream_bytes (mkConfig NoModel 1 1)
                 [BFrame (mkFrame ([7] : @Img row_codec) (90 * time_Millisecond) 2);
                  BComment (mkComment [bytes_of "hello"]);
                  BFrame (mkFrame ([0] : @Img row_codec) 0 0)] ++
               sTrailer :: [0x99])) =
      Ret (inl (mkGIF [([7] : @Img row_codec); [0]] [9; 0] [2; 2]
                  (Some (mkConfig NoModel 1 1)) 0 (-1)), d') /\
    d_r d' = [0x99].
Proof.
  refine (proj1 (Decode_collects_the_frames_of_a_stream (H := row_codec)
                   (mkConfig NoModel 1 1) 0
                   (mkHeader (bytes_of "GIF89a") (mkConfig NoModel 1 1) 0)
                   [BFrame (mkFrame ([7] : @Img row_codec) (90 * time_Millisecond) 2);
                    BComment (mkComment [bytes_of "hello"]);
                    BFrame (mkFrame ([0] : @Img row_codec) 0 0)] [0x99] _ _)).
  - exact row_header_round_trip.
  - apply Forall_cons. split; [exact row_frame_with_disposal_valid|].
    apply Forall_cons. split; [exact row_comment_valid|].
    apply Forall_cons. split; [exact row_frame_valid|apply Forall_nil_2].
Defined.

Section first_frame.
Context `{ImageCodec}.

Lemma DecodeFirst_loop_stream (cfg : Config) (hdr : Header) (exts : list block) :
  forall (fuel : nat) (d : decoder) (f : Frame) (junk : list Z),
  Forall (rt_valid cfg hdr) exts -> frames_in exts = [] -> rt_frame cfg hdr f ->
  d_hdr d = Some hdr -> scratch_idle d -> queues_empty d ->
  d_r d = stream_bytes cfg exts ++ frame_bytes cfg f ++ junk ->
  (length exts <= fuel)%nat ->
  exists d', DecodeFirst_loop fuel d = Ret (inl (f_Image f), d') /\ d_r d' = junk.
Proof.
  induction exts as [|v exts IH]; intros fuel d f junk Hv Hnf Hf Hhdr Hsc Hq Hr Hfuel.
  - cbn [stream_bytes map concat app] in Hr.
    destruct (ReadBlock_block_bytes cfg hdr (BFrame f) d junk Hf Hhdr Hsc Hq Hr)
      as (d1 & Hrb & Hr1 & _).
    exists d1. split; [|done].
    cbn [decoded_from] in Hrb.
    destruct fuel; cbn [DecodeFirst_loop]; rewrite Hrb; reflexivity.
  - apply Forall_cons in Hv as [Hv Hvs].
    rewrite stream_bytes_cons, <- app_assoc in Hr.
    destruct (ReadBlock_block_bytes cfg hdr v d _ Hv Hhdr Hsc Hq Hr)
      as (d1 & Hrb & Hr1 & Hh1 & Hsc1 & _ & Hq1).
    rewrite Hhdr in Hh1.
    destruct fuel as [|fuel]; [cbn [length] in Hfuel; lia|].
    cbn [length] in Hfuel.
    cbn [DecodeFirst_loop]. rewrite Hrb. cbn [mbind outcome_bind].
    destruct v as [f0|pt|c|an|ua|ue]; [done|..]; cbn [decoded_from];
      (apply IH; [done|done|done|done|done|done|done|lia]).
Qed.

(** X13.  [DecodeFirst] stops at the first frame: on the header, any
    sequence of extension blocks that are valid for the round trip, a frame,
    and then anything at all, it returns the image of that frame, and the
    bytes after the frame are left unread, so they need not be a well-formed
    rest of a GIF. *)
Theorem DecodeFirst_stops_at_the_first_frame
    (cfg : Config) (backgroundIndex : Z) (hdr : Header)
    (exts : list block) (f : Frame) (junk : list Z) :
  (forall rest,
     decode_header (encode_header cfg backgroundIndex ++ rest) = inl (hdr, rest)) ->
  Forall (rt_valid cfg hdr) exts -> frames_in exts = [] -> rt_frame cfg hdr f ->
  exists d',
    DecodeFirst (NewDecoder (encode_header cfg backgroundIndex ++
                             stream_bytes cfg exts ++ frame_bytes cfg f ++ junk))
    = Ret (inl (f_Image f), d') /\
    d_r d' = junk.
Proof.
  intros Hheader Hv Hnf Hf.
  unfold DecodeFirst, ReadHeader, readHeaderAndScreenDescriptor.
  unfold NewDecoder. cbn [d_r]. rewrite Hheader.
  cbn [d_hdr d_r d_loopCount d_delayTime d_disposalMethod d_transparentIndex
       d_hasTransparentIndex d_delay d_disposal d_image].
  apply (DecodeFirst_loop_stream cfg hdr exts); try done.
  cbn [d_r]. rewrite length_app. pose proof (stream_bytes_length cfg exts). lia.
Qed.

Lemma DecodeFirst_loop_no_frame (cfg : Config) (hdr : Header) (exts : list block) :
  forall (fuel : nat) (d : decoder) (junk : list Z),
  Forall (rt_valid cfg hdr) exts -> frames_in exts = [] ->
  d_hdr d = Some hdr -> scratch_idle d -> queues_empty d ->
  d_r d = stream_bytes cfg exts ++ sTrailer :: junk ->
  (length exts <= fuel)%nat ->
  exists d', DecodeFirst_loop fuel d
             = Ret (inr (errors_New "gif: missing image data"), d') /\
             d_r d' = junk.
Proof.
  induction exts as [|v exts IH]; intros fuel d junk Hv Hnf Hhdr Hsc Hq Hr Hfuel.
  - cbn [stream_bytes map concat app] in Hr.
    exists (set_r d junk). split; [|done].
    destruct fuel; cbn [DecodeFirst_loop];
      rewrite (ReadBlock_trailer_rest d junk Hr); reflexivity.
  - apply Forall_cons in Hv as [Hv Hvs].
    rewrite stream_bytes_cons, <- app_assoc in Hr.
    destruct (ReadBlock_block_bytes cfg hdr v d _ Hv Hhdr Hsc Hq Hr)
      as (d1 & Hrb & Hr1 & Hh1 & Hsc1 & _ & Hq1).
    rewrite Hhdr in Hh1.
    destruct fuel as [|fuel]; [cbn [length] in Hfuel; lia|].
    cbn [length] in Hfuel.
    cbn [DecodeFirst_loop]. rewrite Hrb. cbn [mbind outcome_bind].
    destruct v as [f0|pt|c|an|ua|ue]; [done|..]; cbn [decoded_from];
      (apply IH; [done|done|done|done|done|done|lia]).
Qed.

(** X16.  [DecodeFirst] on a stream without a frame: on the header, any
    sequence of extension blocks that are valid for the round trip, and the
    trailer, it reads up to the trailer and returns the error
    [gif: missing image data], not the end of the stream. *)
Theorem DecodeFirst_without_a_frame_is_an_error
    (cfg : Config) (backgroundIndex : Z) (hdr : Header)
    (exts : list block) (junk : list Z) :
  (forall rest,
     decode_header (encode_header cfg backgroundIndex ++ rest) = inl (hdr, rest)) ->
  Forall (rt_valid cfg hdr) exts -> frames_in exts = [] ->
  exists d',
    DecodeFirst (NewDecoder (encode_header cfg backgroundIndex ++
                             stream_bytes cfg exts ++ sTrailer :: junk))
    = Ret (inr (errors_New "gif: missing image data"), d') /\
    d_r d' = junk.
Proof.
  intros Hheader Hv Hnf.
  unfold DecodeFirst, ReadHeader, readHeaderAndScreenDescriptor.
  unfold NewDecoder. cbn [d_r]. rewrite Hheader.
  cbn [d_hdr d_r d_loopCount d_delayTime d_disposalMethod d_transparentIndex
       d_hasTransparentIndex d_delay d_disposal d_image].
  apply (DecodeFirst_loop_no_frame cfg hdr exts); try done.
  cbn [d_r]. rewrite length_app. pose proof (stream_bytes_length cfg exts). lia.
Qed.

End first_frame.

Lemma DecodeFirst_stops_at_the_first_frame_witness :
  exists d',
    DecodeFirst (NewDecoder (H := row_codec)
                   (encode_header (mkConfig NoModel 1 1) 0 ++
                    stream_bytes (mkConfig NoModel 1 1)
                      [BComment (mkComment [bytes_of "hello"])] ++
                    frame_bytes (mkConfig NoModel 1 1)
                      (mkFrame ([0] : @Img row_codec) 0 0) ++ [0x99; 0x98]))
    = Ret (inl ([0] : @Img row_codec), d') /\
    d_r d' = [0x99; 0x98].
Proof.
  apply (DecodeFirst_stops_at_the_first_frame (H := row_codec)
           (mkConfig NoModel 1 1) 0
           (mkHeader (bytes_of "GIF89a") (mkConfig NoModel 1 1) 0)
           [BComment (mkComment [bytes_of "hello"])]
           (mkFrame ([0] : @Img row_codec) 0 0) [0x99; 0x98]).
  - exact row_header_round_trip.
  - apply Forall_cons. split; [exact row_comment_valid|apply Forall_nil_2].
  - reflexivity.
  - exact row_frame_valid.
Defined.

Lemma DecodeFirst_without_a_frame_is_an_error_witness :
  exists d',
    DecodeFirst (NewDecoder (H := row_codec)
                   (encode_header (mkConfig NoModel 1 1) 0 ++
                    stream_bytes (mkConfig NoModel 1 1)
                      [BComment (mkComment [bytes_of "hello"])] ++
                    sTrailer :: [0x99; 0x98]))
    = Ret (inr (errors_New "gif: missing image data"), d') /\
    d_r d' = [0x99; 0x98].
Proof.
  apply (DecodeFirst_without_a_frame_is_an_error (H := row_codec)
           (mkConfig NoModel 1 1) 0
           (mkHeader (bytes_of "GIF89a") (mkConfig NoModel 1 1) 0)
           [BComment (mkComment [bytes_of "hello"])] [0x99; 0x98]).
  - exact row_header_round_trip.
  - apply Forall_cons. split; [exact row_comment_valid|apply Forall_nil_2].
  - reflexivity.
Defined.

(** ** [Encode] *)

(** Delays of up to 65535 units do not wrap as durations and come back
    from the wire as they were. *)
Lemma duration_of_delay_small (delay : Z) :
  is_uint16 delay -> duration_of_delay delay = delay * (10 * time_Millisecond).
Proof.
  unfold is_uint16, duration_of_delay, int64_of, time_Millisecond. intros Hd.
  rewrite (Z.mod_small (delay * 10 + 2 ^ 63)) by lia.
  replace (delay * 10 + 2 ^ 63 - 2 ^ 63) with (delay * 10) by lia.
  rewrite Z.mod_small by lia. lia.
Qed.

Lemma delay_units_duration (delay : Z) :
  is_uint16 delay -> delay_units (duration_of_delay delay) = delay.
Proof.
  intros Hd. rewrite duration_of_delay_small by done. unfold delay_units.
  rewrite Z.quot_mul by (unfold time_Millisecond; lia).
  by apply uint16_of_small.
Qed.

Section encode.
Context `{ImageBounds}.

Lemma WriteFrame_buffer (cfg : Config) (bi : Z) (w : list Z) (f : Frame) :
  check_image cfg (f_Image f) = None ->
  WriteFrame (on_buffer w (Some (cfg, bi))) f
  = (on_buffer (w ++ frame_bytes cfg f) (Some (cfg, bi)), None).
Proof.
  intros Hchk. unfold WriteFrame, writeImageBlock, frame_bytes, has_graphic_control.
  cbn [e_err e_g on_buffer]. rewrite Hchk.
  destruct (_ || _); rewrite ?e_write_buffer; cbn [e_err on_buffer];
    by rewrite <- ?app_assoc.
Qed.

(** The loop of [Encode] on a buffer, from index [i]. *)
Lemma Encode_frames_buffer (cfg : Config) (bi : Z) (Delay dl : list Z)
    (Disposal : option (list Z)) (images : list Img) :
  forall (i : nat) (w : list Z),
  (match Disposal with Some l => dl = l | None => exists n, dl = replicate n 0 end) ->
  length (drop i Delay) = length images -> length (drop i dl) = length images ->
  Forall (fun pm => check_image cfg pm = None) images ->
  Encode_frames (on_buffer w (Some (cfg, bi))) images i Delay Disposal
  = Ret (on_buffer
           (w ++ stream_bytes cfg
                   (map BFrame
                      (zip_with (fun pm dd => mkFrame pm (duration_of_delay (fst dd)) (snd dd))
                         images (zip (drop i Delay) (drop i dl)))))
           (Some (cfg, bi)), None).
Proof.
  induction images as [|pm images IH]; intros i w Hdl HlD Hll Hchk.
  - cbn [Encode_frames zip_with map stream_bytes concat]. by rewrite app_nil_r.
  - apply Forall_cons in Hchk as [Hpm Hchk].
    destruct (drop i Delay) as [|delay Delay'] eqn:ED; [done|].
    destruct (drop i dl) as [|disposal dl'] eqn:Edl; [done|].
    assert (Delay !! i = Some delay) as HDi.
    { rewrite <- (Nat.add_0_r i), <- lookup_drop, ED. done. }
    assert (dl !! i = Some disposal) as Hdi.
    { rewrite <- (Nat.add_0_r i), <- lookup_drop, Edl. done. }
    assert (drop (S i) Delay = Delay') as ED'.
    { replace (S i) with (i + 1)%nat by lia. by rewrite <- drop_drop, ED. }
    assert (drop (S i) dl = dl') as Edl'.
    { replace (S i) with (i + 1)%nat by lia. by rewrite <- drop_drop, Edl. }
    cbn [Encode_frames].
    assert (match Disposal with
            | Some l => of_option (l !! i)
            | None => Ret 0
            end = Ret disposal) as ->.
    { destruct Disposal as [l|].
      - subst dl. by rewrite Hdi.
      - destruct Hdl as [n ->]. apply lookup_replicate in Hdi as [-> _]. done. }
    cbn [mbind outcome_bind]. rewrite HDi. cbn [of_option mbind outcome_bind].
    rewrite WriteFrame_buffer by done.
    rewrite (IH (S i)); [|done|rewrite ED'; by injection HlD|rewrite Edl'; by injection Hll|done].
    rewrite ED', Edl'. cbn [zip zip_with map fst snd]. rewrite stream_bytes_cons.
    cbn [block_bytes]. by rewrite <- app_assoc.
Qed.

(** What [Encode] puts on a buffer. *)
Lemma Encode_buffer (g : GIF) (Disposal : option (list Z)) :
  g_Image g <> [] -> length (g_Delay g) = length (g_Image g) ->
  (forall l, Disposal = Some l -> length l = length (g_Image g)) ->
  cfg_ColorModel (GIF_Config g) <> OtherModel ->
  Forall (fun pm => check_image (Encode_Config g) pm = None) (g_Image g) ->
  Encode (NewEncoder []) g Disposal =
    Ret (on_buffer
           (encode_header (Encode_Config g) (g_BackgroundIndex g) ++
            stream_bytes (Encode_Config g) (Encode_blocks g Disposal) ++ [sTrailer])
           (Some (Encode_Config g, g_BackgroundIndex g)),
         mkGIF (g_Image g) (g_Delay g) (g_Disposal g) (Some (Encode_Config g))
               (g_BackgroundIndex g) (g_LoopCount g),
         None).
Proof.
  intros Hne HlD HlDisp Hcm Hchk. unfold Encode.
  destruct (g_Image g) as [|pm0 images] eqn:Eimg; [done|].
  assert ((len (pm0 :: images) =? 0) = false) as -> by (unfold len; cbn [length]; lia).
  assert ((len (pm0 :: images) =? len (g_Delay g)) = true) as ->
    by (unfold len; rewrite HlD; lia).
  cbn [negb].
  assert (match Disposal with
          | Some l => negb (len (pm0 :: images) =? len l)
          | None => false
          end = false) as ->.
  { destruct Disposal as [l|]; [|done]. unfold len. rewrite (HlDisp l eq_refl). lia. }
  assert ((if Config_is_zero (GIF_Config g) then
             pm ← of_option ((pm0 :: images) !! 0%nat);
             Ret (mkConfig (cfg_ColorModel (GIF_Config g))
                           (image.X (bounds_Max pm)) (image.Y (bounds_Max pm)))
           else Ret (GIF_Config g)) = Ret (Encode_Config g)) as ->.
  { unfold Encode_Config. rewrite Eimg. by destruct (Config_is_zero _). }
  cbn [mbind outcome_bind]. cbv zeta.
  cbn [g_Image g_Delay g_Disposal g_Config g_BackgroundIndex g_LoopCount].
  assert (cfg_ColorModel (Encode_Config g) <> OtherModel) as Hcm'.
  { unfold Encode_Config. rewrite Eimg. by destruct (Config_is_zero _). }
  assert (WriteHeader (NewEncoder []) (Encode_Config g) (g_BackgroundIndex g)
          = (on_buffer (encode_header (Encode_Config g) (g_BackgroundIndex g))
               (Some (Encode_Config g, g_BackgroundIndex g)), None)) as ->.
  { unfold WriteHeader. by destruct (cfg_ColorModel (Encode_Config g)). }
  set (dl := match Disposal with
             | None => replicate (length (pm0 :: images)) 0
             | Some l => l
             end).
  set (loop := (1 <? len (pm0 :: images)) && (0 <=? g_LoopCount g)).
  assert (Encode_blocks g Disposal =
          (if loop then [BApplicationNetscape (mkApplicationNetscape (g_LoopCount g) [])]
           else []) ++
          map BFrame
            (zip_with (fun pm dd => mkFrame pm (duration_of_delay (fst dd)) (snd dd))
               (pm0 :: images) (zip (drop 0 (g_Delay g)) (drop 0 dl)))) as ->.
  { unfold Encode_blocks, frames_of. by rewrite Eimg, !drop_0. }
  assert (exists w,
    (if loop
     then WriteApplicationNetscape
            (on_buffer (encode_header (Encode_Config g) (g_BackgroundIndex g))
               (Some (Encode_Config g, g_BackgroundIndex g)))
            (mkApplicationNetscape (g_LoopCount g) [])
     else (on_buffer (encode_header (Encode_Config g) (g_BackgroundIndex g))
             (Some (Encode_Config g, g_BackgroundIndex g)), None))
    = (on_buffer w (Some (Encode_Config g, g_BackgroundIndex g)), None) /\
    w = encode_header (Encode_Config g) (g_BackgroundIndex g) ++
        stream_bytes (Encode_Config g)
          (if loop then [BApplicationNetscape (mkApplicationNetscape (g_LoopCount g) [])]
           else [])) as (w & -> & Hw).
  { destruct loop.
    - eexists. split; [|reflexivity].
      unfold WriteApplicationNetscape. cbn [an_SubBlocks validateSubBlocks].
      rewrite e_write_buffer. cbn [e_err on_buffer].
      rewrite e_WriteString_buffer. cbn [e_err on_buffer].
      rewrite e_write_buffer. cbn [e_err on_buffer].
      rewrite writeSubBlocks_buffer.
      cbn [stream_bytes map concat block_bytes an_LoopCount an_SubBlocks].
      by rewrite app_nil_r, <- !app_assoc.
    - eexists. split; [reflexivity|]. cbn [stream_bytes map concat]. by rewrite app_nil_r. }
  rewrite (Encode_frames_buffer (Encode_Config g) (g_BackgroundIndex g) (g_Delay g) dl
             Disposal (pm0 :: images) 0 w).
  - cbn [mbind outcome_bind]. unfold WriteTrailer, Encoder_Flush.
    rewrite e_writeByte_buffer. cbn. rewrite Hw, stream_bytes_app.
    by rewrite <- !app_assoc.
  - unfold dl. destruct Disposal; [done|by eexists].
  - by rewrite drop_0.
  - rewrite drop_0. unfold dl. destruct Disposal as [l|].
    + by apply HlDisp.
    + by rewrite length_replicate.
  - done.
Qed.


End encode.


Section encode_decode.
Context `{ImageBounds}.

Lemma frames_in_frames (fs : list Frame) : frames_in (map BFrame fs) = fs.
Proof.
  induction fs as [|f fs IH]; [done|].
  change (frames_in (map BFrame (f :: fs))) with (f :: frames_in (map BFrame fs)).
  by rewrite IH.
Qed.

Lemma frames_in_app (l1 l2 : list block) :
  frames_in (l1 ++ l2) = frames_in l1 ++ frames_in l2.
Proof. apply omap_app. Qed.

Lemma last_loop_count_frames (fs : list Frame) (acc : Z) :
  foldl (fun acc b => match b with
                      | BApplicationNetscape an => an_LoopCount an
                      | _ => acc
                      end) acc (map BFrame fs) = acc.
Proof. revert acc. induction fs as [|f fs IH]; intros acc; [done|]. cbn. apply IH. Qed.

Lemma frames_of_valid (cfg : Config) (hdr : Header) (images : list Img) :
  forall (Delay dl : list Z),
  Forall (image_round_trip cfg hdr) images -> Forall is_uint16 Delay ->
  Forall rt_disposal dl ->
  Forall (rt_valid cfg hdr)
    (map BFrame (zip_with (fun pm dd => mkFrame pm (duration_of_delay (fst dd)) (snd dd))
                   images (zip Delay dl))).
Proof.
  induction images as [|pm images IH]; intros Delay dl Himg HD Hdl; [by constructor|].
  destruct Delay as [|delay Delay]; [by constructor|].
  destruct dl as [|disposal dl]; [by constructor|].
  apply Forall_cons in Himg as [Hpm Himg]. apply Forall_cons in HD as [Hd HD].
  apply Forall_cons in Hdl as [Hp Hdl].
  cbn [zip zip_with map fst snd]. constructor; [|by apply IH].
  cbn [rt_valid]. split_and!; cbn [f_DelayTime f_DisposalMethod f_Image]; try done.
  unfold rt_delay. rewrite duration_of_delay_small by done.
  unfold is_uint16, time_Millisecond in *. lia.
Qed.

Lemma frames_of_fields (images : list Img) :
  forall (Delay dl : list Z),
  length Delay = length images -> length dl = length images ->
  Forall is_uint16 Delay ->
  map f_Image (zip_with (fun pm dd => mkFrame pm (duration_of_delay (fst dd)) (snd dd))
                 images (zip Delay dl)) = images /\
  map (fun f => delay_units (f_DelayTime f))
      (zip_with (fun pm dd => mkFrame pm (duration_of_delay (fst dd)) (snd dd))
         images (zip Delay dl)) = Delay /\
  map f_DisposalMethod
      (zip_with (fun pm dd => mkFrame pm (duration_of_delay (fst dd)) (snd dd))
         images (zip Delay dl)) = dl.
Proof.
  induction images as [|pm images IH]; intros Delay dl HlD Hll HD.
  - destruct Delay; [|done]. destruct dl; [|done]. done.
  - destruct Delay as [|delay Delay]; [done|].
    destruct dl as [|disposal dl]; [done|].
    apply Forall_cons in HD as [Hd HD].
    destruct (IH Delay dl) as (H1 & H2 & H3); [by injection HlD|by injection Hll|done|].
    cbn [zip zip_with map fst snd f_Image f_DelayTime f_DisposalMethod].
    rewrite H1, H2, H3, delay_units_duration by done. done.
Qed.

(** With nothing pending, frames whose disposal methods are all 0 are
    reported with disposal method 0. *)
Lemma disposals_from_zero (blocks : list block) :
  Forall (fun f => f_DisposalMethod f = 0) (frames_in blocks) ->
  disposals_from 0 blocks = map f_DisposalMethod (frames_in blocks).
Proof.
  induction blocks as [|v blocks IH]; intros Hall; [done|].
  cbn [disposals_from].
  destruct v as [f|pt|c|an|ua|ue];
    try (cbn [app pending_after]; apply IH; exact Hall).
  change (frames_in (BFrame f :: blocks)) with (f :: frames_in blocks) in Hall |- *.
  apply Forall_cons in Hall as [Hf Hall].
  cbn [pending_after map app]. rewrite Hf.
  assert ((if has_graphic_control f then 0 else 0) = 0) as ->
    by (by destruct (has_graphic_control f)).
  f_equal. by apply IH.
Qed.

(** X15.  [Encode] and then [Decode]: for at least one image, delays of 0
    to 65535 units, disposal methods of 0 to 7 (or none given), a loop
    count below 65536, a color model that is a palette or absent, and a
    header and images that the codec reads back, [Encode] succeeds on a
    buffer and [Decode] reads its bytes to the end and gives back the
    images and the delays as they were, with the configuration and
    background index of the header; the loop count comes back when there is
    more than one image and it is not negative, and is [-1] otherwise.  The
    disposal methods come back as the decoder reports them for the stream
    written: as they were (zeros when none were given) when every delay is
    positive or none were given; in general an image with delay 0, disposal
    method 0 and no transparent color comes back with the disposal method
    of the image before it. *)
Theorem Encode_then_Decode_gives_the_animation_back
    (g : GIF) (Disposal : option (list Z)) (hdr : Header) :
  g_Image g <> [] -> length (g_Delay g) = length (g_Image g) ->
  (forall l, Disposal = Some l ->
     length l = length (g_Image g) /\ Forall rt_disposal l) ->
  cfg_ColorModel (GIF_Config g) <> OtherModel ->
  Forall is_uint16 (g_Delay g) -> g_LoopCount g < 65536 ->
  Forall (image_round_trip (Encode_Config g) hdr) (g_Image g) ->
  (forall rest,
     decode_header (encode_header (Encode_Config g) (g_BackgroundIndex g) ++ rest)
     = inl (hdr, rest)) ->
  exists e' g' d',
    Encode (NewEncoder []) g Disposal = Ret (e', g', None) /\
    Decode (NewDecoder (e_w e')) =
      Ret (inl (mkGIF (g_Image g) (g_Delay g)
                  (disposals_from 0 (Encode_blocks g Disposal))
                  (Some (hdr_Config hdr)) (hdr_BackgroundIndex hdr)
                  (if (1 <? len (g_Image g)) && (0 <=? g_LoopCount g)
                   then g_LoopCount g else -1)), d') /\
    d_r d' = [] /\
    (Forall (fun delay => 0 < delay) (g_Delay g) \/ Disposal = None ->
     disposals_from 0 (Encode_blocks g Disposal) =
       match Disposal with
       | Some l => l
       | None => replicate (length (g_Image g)) 0
       end).
Proof.
  intros Hne HlD HDisp Hcm HD Hloop Himg Hheader.
  set (dl := match Disposal with
             | Some l => l
             | None => replicate (length (g_Image g)) 0
             end).
  assert (length dl = length (g_Image g) /\ Forall rt_disposal dl) as [Hll Hdl].
  { unfold dl. destruct Disposal as [l|]; [by apply HDisp|].
    split; [by rewrite length_replicate|]. apply Forall_replicate.
    unfold rt_disposal. lia. }
  assert (frames_of (g_Image g) (g_Delay g) Disposal =
          zip_with (fun pm dd => mkFrame pm (duration_of_delay (fst dd)) (snd dd))
            (g_Image g) (zip (g_Delay g) dl)) as Hfs.
  { unfold frames_of, dl. by destruct Disposal. }
  destruct (Decode_stream (Encode_Config g) (g_BackgroundIndex g) hdr
              (Encode_blocks g Disposal) [] Hheader) as (d' & HDec & Hr').
  { unfold Encode_blocks. apply Forall_app. split.
    - destruct (_ && _) eqn:E; [|by constructor].
      constructor; [|by constructor]. cbn [rt_valid an_LoopCount an_SubBlocks].
      split; [unfold is_uint16; lia|by constructor].
    - rewrite Hfs. by apply frames_of_valid. }
  destruct (frames_of_fields (g_Image g) (g_Delay g) dl HlD Hll HD) as (H1 & H2 & H3).
  assert (frames_in (Encode_blocks g Disposal) =
          zip_with (fun pm dd => mkFrame pm (duration_of_delay (fst dd)) (snd dd))
            (g_Image g) (zip (g_Delay g) dl)) as Hfin.
  { unfold Encode_blocks. rewrite frames_in_app, frames_in_frames, Hfs.
    by destruct (_ && _). }
  eexists _, _, d'. split.
  { apply Encode_buffer; try done.
    - intros l Hl. by apply HDisp.
    - eapply Forall_impl; [exact Himg|]. by intros pm (Hchk & _). }
  cbn [e_w on_buffer].
  split; [|split; [exact Hr'|]].
  - assert ((len (frames_in (Encode_blocks g Disposal)) =? 0) = false) as Hlen.
    { unfold len.
      rewrite <- (length_map f_Image (frames_in (Encode_blocks g Disposal))), Hfin, H1.
      destruct (g_Image g); [done|]. cbn [length]. lia. }
    rewrite HDec, Hlen, Hfin, H1, H2.
    do 3 f_equal. unfold Encode_blocks, last_loop_count.
    rewrite foldl_app, last_loop_count_frames.
    by destruct (_ && _).
  - fold dl. intros [Hpos|Hnone].
    + rewrite disposals_from_own; [by rewrite Hfin, H3|].
      rewrite Hfin. clear -HlD Hll HD Hpos.
      revert HlD Hll HD Hpos. generalize (g_Delay g) dl.
      induction (g_Image g) as [|pm images IH]; intros Delay dl' HlD Hll HD Hpos.
      { destruct Delay; [|done]. by constructor. }
      destruct Delay as [|delay Delay]; [done|].
      destruct dl' as [|disposal dl']; [done|].
      apply Forall_cons in HD as [Hd HD]. apply Forall_cons in Hpos as [Hp Hpos].
      cbn [zip zip_with fst snd]. constructor.
      * unfold has_graphic_control. cbn [f_DelayTime].
        rewrite duration_of_delay_small by done.
        rewrite Z.quot_mul by (unfold time_Millisecond; lia).
        assert ((0 <? delay) = true) as -> by lia. reflexivity.
      * apply IH; [by injection HlD|by injection Hll|done|done].
    + rewrite disposals_from_zero; [by rewrite Hfin, H3|].
      rewrite Hfin. apply Forall_forall. intros f Hf.
      assert (f_DisposalMethod f ∈ dl) as Hin.
      { rewrite <- H3. apply list_elem_of_fmap. by exists f. }
      unfold dl in Hin. rewrite Hnone in Hin.
      by apply elem_of_replicate in Hin as [-> _].
Qed.

End encode_decode.

Lemma Encode_then_Decode_gives_the_animation_back_witness :
  exists e' g' d',
    Encode (H := buffer_writer) (H0 := row_codec) (NewEncoder [])
      (mkGIF [([7] : @Img row_codec); [8]] [9; 0] [2; 0] (Some (mkConfig NoModel 1 1)) 0 3)
      (Some [2; 0])
    = Ret (e', g', None) /\
    Decode (NewDecoder (H := row_codec) (e_w e')) =
      Ret (inl (mkGIF [([7] : @Img row_codec); [8]] [9; 0] [2; 2]
                  (Some (mkConfig NoModel 1 1)) 0 3), d') /\
    d_r d' = [] /\
    (Forall (fun delay => 0 < delay) [9; 0] \/ Some [2; 0] = None ->
     [2; 2] = [2; 0]).
Proof.
  refine (Encode_then_Decode_gives_the_animation_back (H := row_codec)
            (mkGIF [([7] : @Img row_codec); [8]] [9; 0] [2; 0]
                   (Some (mkConfig NoModel 1 1)) 0 3)
            (Some [2; 0])
            (mkHeader (bytes_of "GIF89a") (mkConfig NoModel 1 1) 0) _ _ _ _ _ _ _ _).
  - discriminate.
  - reflexivity.
  - intros l [= <-]. split; [reflexivity|].
    unfold rt_disposal. apply (bool_decide_unpack _). vm_compute. exact I.
  - discriminate.
  - unfold is_uint16. apply (bool_decide_unpack _). vm_compute. exact I.
  - simpl. lia.
  - apply Forall_cons. split.
    { split; [reflexivity|]. split; [discriminate|]. intros rest. reflexivity. }
    apply Forall_cons. split; [|apply Forall_nil_2].
    split; [reflexivity|]. split; [discriminate|]. intros rest. reflexivity.
  - intros rest. reflexivity.
Defined.
